(** * map-routing-app: terrain generation and A* route search

    A shallow embedding of the algorithmic core of the application
    ([utils/noise.ts], [utils/terrainConstants.ts], [utils/mapGenerator.ts],
    [utils/pathfinding_quicker.ts]) together with the properties that the
    design document states about it.

    Layout:
    - [completion]: how a call ends (normally, or with an uncaught exception);
    - [Number]: the arithmetic of the JavaScript [number] type, as an
      interface with two implementations, IEEE binary64 ([binary64]) and
      exact reals extended with the IEEE special values ([exact]);
    - the terrain tables and the default classifier;
    - the noise field generator and the visibility-filtered classifier;
    - the indexed binary heap and the A* search;
    - the theorems of the design document's statements, and further
      properties of the code. *)

From Stdlib Require Import ZArith QArith Reals Lra Lia Floats Ascii.
From stdpp Require Import gmap strings list fin_maps pretty.

Set Warnings "-register-all,-clear-no-such-hyp".
Open Scope Z_scope.

(** ** Completions

    A JavaScript call either returns or throws.  The loops of the search are
    bounded by a step budget in the model; [OutOfFuel] is the value of a run
    whose budget ended, and the theorems below show that no run of the
    modelled functions produces it. *)

Inductive completion (A : Type) : Type :=
| Normal (a : A)
| Throw (msg : string)
| OutOfFuel.
Arguments Normal {A} a.
Arguments Throw {A} msg.
Arguments OutOfFuel {A}.

#[global] Instance completion_ret : MRet completion := fun A a => Normal a.
#[global] Instance completion_bind : MBind completion := fun A B k m =>
  match m with
  | Normal a => k a
  | Throw msg => Throw msg
  | OutOfFuel => OutOfFuel
  end.

Definition TypeError : string := "TypeError: Cannot read properties of undefined".

(** ** The [number] type

    The source computes with JavaScript numbers.  Every function below is
    written once, over this interface of the operations the source uses. *)

Class Number := {
  num : Type;
  ofZ : Z -> num;                 (* an integer literal or integer value *)
  Infinity : num;
  NaN : num;
  opp : num -> num;               (* unary minus *)
  add : num -> num -> num;
  sub : num -> num -> num;
  mul : num -> num -> num;
  div : num -> num -> num;
  ltb : num -> num -> bool;       (* a < b *)
  leb : num -> num -> bool;       (* a <= b *)
  eqb : num -> num -> bool;       (* a === b *)
  Math_sqrt : num -> num;
  Math_abs : num -> num;
  Math_round : num -> num;
  Math_min : num -> num -> num;
  Math_max : num -> num -> num
}.

Section NumberOps.
Context {N : Number}.

(** [a > b] and [a >= b] *)
Definition gtb (a b : num) : bool := ltb b a.
Definition geb (a b : num) : bool := leb b a.

(** a decimal literal such as [0.40] or [1.414] *)
Definition ofQ (q : Q) : num := div (ofZ (Qnum q)) (ofZ (Z.pos (Qden q))).

Definition isNaN (a : num) : bool := negb (eqb a a).

(** truthiness of a number: everything but [0], [-0] and [NaN] *)
Definition truthy (a : num) : bool := negb (eqb a (ofZ 0)) && negb (isNaN a).

(** [o || d] where [o] is the result of [Map.prototype.get] *)
Definition or_default (o : option num) (d : num) : num :=
  match o with
  | Some v => if truthy v then v else d
  | None => d
  end.
End NumberOps.

(** *** IEEE binary64 *)

Module Binary64.
Definition of_Z (z : Z) : float := SF2Prim (binary_normalize 53 1024 z 0 false).

Definition is_nan (a : float) : bool := negb (PrimFloat.eqb a a).

Definition is_neg_zero (a : float) : bool :=
  match Prim2SF a with S754_zero true => true | _ => false end.

Definition min (a b : float) : float :=
  if is_nan a || is_nan b then nan
  else if PrimFloat.ltb a b then a
  else if PrimFloat.ltb b a then b
  else if is_neg_zero a then a else b.

Definition max (a b : float) : float :=
  if is_nan a || is_nan b then nan
  else if PrimFloat.ltb a b then b
  else if PrimFloat.ltb b a then a
  else if is_neg_zero a then b else a.

(** [Math.round]: the integer nearest to [a], halves going up.  The value
    [floor (a + 1/2)] is computed exactly from mantissa and exponent. *)
Definition round (a : float) : float :=
  match Prim2SF a with
  | S754_finite s m e =>
      let m' := if s then Z.neg m else Z.pos m in
      if 0 <=? e then a
      else of_Z ((2 * m' + 2 ^ (- e)) / 2 ^ (- e + 1))
  | _ => a
  end.
End Binary64.

Definition binary64 : Number := {|
  num := float;
  ofZ := Binary64.of_Z;
  Infinity := infinity;
  NaN := nan;
  opp := PrimFloat.opp;
  add := PrimFloat.add;
  sub := PrimFloat.sub;
  mul := PrimFloat.mul;
  div := PrimFloat.div;
  ltb := PrimFloat.ltb;
  leb := PrimFloat.leb;
  eqb := PrimFloat.eqb;
  Math_sqrt := PrimFloat.sqrt;
  Math_abs := PrimFloat.abs;
  Math_round := Binary64.round;
  Math_min := Binary64.min;
  Math_max := Binary64.max
|}.

(** *** Exact arithmetic

    Real numbers with the IEEE special values: no rounding, no overflow, and
    a single zero (taken as [+0] when something is divided by it). *)

Module Exact.
Inductive ereal : Type := Fin (r : R) | PInf | NInf | Nan.

Definition Rltb (a b : R) : bool := if Rlt_dec a b then true else false.
Definition Rleb (a b : R) : bool := if Rle_dec a b then true else false.
Definition Reqb (a b : R) : bool := if Req_dec_T a b then true else false.

Definition e_opp (x : ereal) : ereal :=
  match x with Fin r => Fin (- r) | PInf => NInf | NInf => PInf | Nan => Nan end.

Definition e_add (x y : ereal) : ereal :=
  match x, y with
  | Nan, _ | _, Nan => Nan
  | Fin a, Fin b => Fin (a + b)
  | PInf, NInf | NInf, PInf => Nan
  | PInf, _ | _, PInf => PInf
  | NInf, _ | _, NInf => NInf
  end.

Definition e_sub (x y : ereal) : ereal := e_add x (e_opp y).

(** an infinity [i] scaled by the sign of a finite factor *)
Definition scale_inf (i : ereal) (a : R) : ereal :=
  if Reqb a 0 then Nan else if Rltb 0 a then i else e_opp i.

Definition e_mul (x y : ereal) : ereal :=
  match x, y with
  | Nan, _ | _, Nan => Nan
  | Fin a, Fin b => Fin (a * b)
  | Fin a, i | i, Fin a => scale_inf i a
  | PInf, PInf | NInf, NInf => PInf
  | PInf, NInf | NInf, PInf => NInf
  end.

Definition e_div (x y : ereal) : ereal :=
  match x, y with
  | Nan, _ | _, Nan => Nan
  | Fin a, Fin b =>
      if Reqb b 0 then
        (if Reqb a 0 then Nan else if Rltb 0 a then PInf else NInf)
      else Fin (a / b)
  | Fin _, _ => Fin 0
  | i, Fin b => if Rltb b 0 then e_opp i else i
  | _, _ => Nan
  end.

Definition e_ltb (x y : ereal) : bool :=
  match x, y with
  | Nan, _ | _, Nan => false
  | Fin a, Fin b => Rltb a b
  | NInf, NInf | PInf, _ | _, NInf => false
  | NInf, _ | _, PInf => true
  end.

Definition e_eqb (x y : ereal) : bool :=
  match x, y with
  | Fin a, Fin b => Reqb a b
  | PInf, PInf | NInf, NInf => true
  | _, _ => false
  end.

Definition e_leb (x y : ereal) : bool := e_ltb x y || e_eqb x y.

Definition e_sqrt (x : ereal) : ereal :=
  match x with
  | Fin a => if Rltb a 0 then Nan else Fin (R_sqrt.sqrt a)
  | PInf => PInf
  | _ => Nan
  end.

Definition e_abs (x : ereal) : ereal :=
  match x with Fin a => Fin (Rabs a) | PInf | NInf => PInf | Nan => Nan end.

Definition e_round (x : ereal) : ereal :=
  match x with Fin a => Fin (IZR (Int_part (a + / 2))) | _ => x end.

Definition e_min (x y : ereal) : ereal :=
  match x, y with
  | Nan, _ | _, Nan => Nan
  | _, _ => if e_ltb y x then y else x
  end.

Definition e_max (x y : ereal) : ereal :=
  match x, y with
  | Nan, _ | _, Nan => Nan
  | _, _ => if e_ltb x y then y else x
  end.
End Exact.

Definition exact : Number := {|
  num := Exact.ereal;
  ofZ := fun z => Exact.Fin (IZR z);
  Infinity := Exact.PInf;
  NaN := Exact.Nan;
  opp := Exact.e_opp;
  add := Exact.e_add;
  sub := Exact.e_sub;
  mul := Exact.e_mul;
  div := Exact.e_div;
  ltb := Exact.e_ltb;
  leb := Exact.e_leb;
  eqb := Exact.e_eqb;
  Math_sqrt := Exact.e_sqrt;
  Math_abs := Exact.e_abs;
  Math_round := Exact.e_round;
  Math_min := Exact.e_min;
  Math_max := Exact.e_max
|}.

(** ** Objects used as string-keyed tables

    A plain object is the list of its own properties in enumeration order;
    [o[k]] reads the first binding of [k], a missing property reads as
    [undefined] ([None]). *)

Fixpoint prop {A : Type} (o : list (string * A)) (k : string) : option A :=
  match o with
  | [] => None
  | (k', v) :: o' => if decide (k' = k) then Some v else prop o' k
  end.

Definition Object_keys {A : Type} (o : list (string * A)) : list string := o.*1.

(** The names that every plain object inherits from [Object.prototype]:
    [o[k]] for such a [k] that is not a property of [o] itself is a
    function (the prototype object for [__proto__]), not [undefined].  The
    table lookups below say where that matters. *)
Definition Object_prototype_names : list string :=
  ["constructor"; "__defineGetter__"; "__defineSetter__"; "hasOwnProperty";
   "__lookupGetter__"; "__lookupSetter__"; "isPrototypeOf"; "propertyIsEnumerable";
   "toString"; "valueOf"; "__proto__"; "toLocaleString"].

(** a list index given as a JavaScript number holding an integer *)
Definition at_index {A : Type} (l : list A) (i : Z) : option A :=
  if i <? 0 then None else l !! Z.to_nat i.

(** [a[i][j]]: reading a property of a missing row throws, a missing cell
    of an existing row is [undefined] *)
Definition at_index2 {A : Type} (a : list (list A)) (i j : Z) : completion (option A) :=
  match at_index a i with
  | Some row => Normal (at_index row j)
  | None => Throw TypeError
  end.

Fixpoint mapM_index {A B : Type} (f : A -> nat -> completion B) (i : nat) (l : list A)
  : completion (list B) :=
  match l with
  | [] => Normal []
  | a :: l' => b ← f a i; bs ← mapM_index f (S i) l'; Normal (b :: bs)
  end.

(** ** terrainConstants.ts *)

Module RGB.
Record t := { r : Z; g : Z; b : Z }.
End RGB.

Module TerrainBoundaries.
Record t {N : Number} := {
  water : num; sand : num; land : num; hills : num; mountain : num; snow : num
}.
End TerrainBoundaries.

Module TerrainDefinition.
Record t {N : Number} := {
  name : string;
  color_base : RGB.t;
  color_variation : RGB.t;
  cost : num;
  boundary : num
}.
End TerrainDefinition.

Section TerrainConstants.
Context {N : Number}.

Definition TERRAIN_BOUNDARIES : TerrainBoundaries.t := {|
  TerrainBoundaries.water := ofQ 0.40;
  TerrainBoundaries.sand := ofQ 0.45;
  TerrainBoundaries.land := ofQ 0.65;
  TerrainBoundaries.hills := ofQ 0.75;
  TerrainBoundaries.mountain := ofQ 0.85;
  TerrainBoundaries.snow := ofQ 0.95
|}.

Definition TERRAIN_DEFINITIONS : list (string * TerrainDefinition.t) := [
  ("water", {| TerrainDefinition.name := "water";
               TerrainDefinition.color_base := RGB.Build_t 20 60 120;
               TerrainDefinition.color_variation := RGB.Build_t 40 80 100;
               TerrainDefinition.cost := Infinity;
               TerrainDefinition.boundary := TerrainBoundaries.water TERRAIN_BOUNDARIES |});
  ("sand", {| TerrainDefinition.name := "sand";
              TerrainDefinition.color_base := RGB.Build_t 200 180 100;
              TerrainDefinition.color_variation := RGB.Build_t 55 75 50;
              TerrainDefinition.cost := ofZ 3;
              TerrainDefinition.boundary := TerrainBoundaries.sand TERRAIN_BOUNDARIES |});
  ("land", {| TerrainDefinition.name := "land";
              TerrainDefinition.color_base := RGB.Build_t 50 120 50;
              TerrainDefinition.color_variation := RGB.Build_t 100 100 50;
              TerrainDefinition.cost := ofZ 1;
              TerrainDefinition.boundary := TerrainBoundaries.land TERRAIN_BOUNDARIES |});
  ("hills", {| TerrainDefinition.name := "hills";
               TerrainDefinition.color_base := RGB.Build_t 160 140 100;
               TerrainDefinition.color_variation := RGB.Build_t 60 50 40;
               TerrainDefinition.cost := ofZ 2;
               TerrainDefinition.boundary := TerrainBoundaries.hills TERRAIN_BOUNDARIES |});
  ("mountain", {| TerrainDefinition.name := "mountain";
                  TerrainDefinition.color_base := RGB.Build_t 120 100 80;
                  TerrainDefinition.color_variation := RGB.Build_t 60 40 30;
                  TerrainDefinition.cost := ofZ 4;
                  TerrainDefinition.boundary := TerrainBoundaries.mountain TERRAIN_BOUNDARIES |});
  ("snow", {| TerrainDefinition.name := "snow";
              TerrainDefinition.color_base := RGB.Build_t 200 220 240;
              TerrainDefinition.color_variation := RGB.Build_t 55 35 15;
              TerrainDefinition.cost := ofZ 5;
              TerrainDefinition.boundary := TerrainBoundaries.snow TERRAIN_BOUNDARIES |})
].

(** [TERRAIN_DEFINITIONS[terrain]?.cost ?? 1].  A cell that reads as
    [undefined] is looked up under the property name ["undefined"]. *)
Definition getTerrainCost (terrain : string) : num :=
  match prop TERRAIN_DEFINITIONS terrain with
  | Some definition => TerrainDefinition.cost definition
  | None => ofZ 1
  end.


Definition getTerrainOrder : list string :=
  ["water"; "sand"; "land"; "hills"; "mountain"; "snow"].
End TerrainConstants.

(** the property name under which a possibly missing cell is looked up *)
Definition prop_key (cell : option string) : string := default "undefined" cell.

(** *** Colours

    The colour functions use two more operations on numbers, [Math.floor]
    and the conversion of a number to a string in a template literal; they
    are written over any two such functions.  [getTerrainColor] also writes
    a warning to the console when it does not know the terrain; the console
    is not modelled. *)

(** [Math.floor] in exact arithmetic *)
Definition exact_floor (x : @num exact) : @num exact :=
  match x with Exact.Fin a => Exact.Fin (IZR (Int_part a)) | _ => x end.

Section TerrainColors.
Context {N : Number}.
Variable Math_floor : num -> num.
Variable toString : num -> string.

(** [`rgb(${r}, ${g}, ${b})`] *)
Definition rgb_template (r g b : num) : string :=
  "rgb(" +:+ toString r +:+ ", " +:+ toString g +:+ ", " +:+ toString b +:+ ")".

(** lines 105-115: the colour of a definition at an intensity *)
Definition definition_color (definition : TerrainDefinition.t) (intensity : num) : string :=
  let base := TerrainDefinition.color_base definition in
  let variation := TerrainDefinition.color_variation definition in
  let r := Math_floor (add (ofZ (RGB.r base)) (mul intensity (ofZ (RGB.r variation)))) in
  let g := Math_floor (add (ofZ (RGB.g base)) (mul intensity (ofZ (RGB.g variation)))) in
  let b := Math_floor (add (ofZ (RGB.b base)) (mul intensity (ofZ (RGB.b variation)))) in
  let clampedR := Math_max (ofZ 0) (Math_min (ofZ 255) r) in
  let clampedG := Math_max (ofZ 0) (Math_min (ofZ 255) g) in
  let clampedB := Math_max (ofZ 0) (Math_min (ofZ 255) b) in
  rgb_template clampedR clampedG clampedB.

(** [getTerrainColor] calls itself for ['land'] on a terrain it does not
    know; [depth] bounds the nesting of the calls.  A name that the table
    inherits reads as a function, which is truthy and has no [color]:
    reading [definition.color.base] throws. *)
Fixpoint getTerrainColor_within (depth : nat) (terrain : string) (intensity : num)
  : completion string :=
  match prop TERRAIN_DEFINITIONS terrain with
  | None =>
      if bool_decide (terrain ∈ Object_prototype_names) then Throw TypeError
      else
        match depth with
        | O => OutOfFuel
        | S depth' => getTerrainColor_within depth' "land" intensity
        end
  | Some definition => Normal (definition_color definition intensity)
  end.

Definition getTerrainColor (terrain : string) (intensity : num) : completion string :=
  getTerrainColor_within 1 terrain intensity.

Definition getTerrainBaseColor (terrain : string) : completion string :=
  match prop TERRAIN_DEFINITIONS terrain with
  | None =>
      if bool_decide (terrain ∈ Object_prototype_names) then Throw TypeError
      else Normal "rgb(50, 120, 50)"
  | Some definition =>
      let baseIntensity := ofQ 0.8 in
      let variation := ofQ 0.2 in
      let intensity :=
        Math_min (ofQ 1.0) (add baseIntensity (mul (ofQ 0.5) variation)) in
      Normal (definition_color definition intensity)
  end.
End TerrainColors.

(** ** noise.ts *)

Section Noise.
Context {N : Number}.

(** The function [makeNoise2D(() => Math.random())] returns; the noise
    library is a dependency of the application, and every call of
    [generateMap] draws a fresh one. *)
Variable noise2D : num -> num -> num.

Fixpoint fractal_octaves (octaves : nat) (persistence x y : num)
    (value amplitude frequency maxValue : num) : num * num :=
  match octaves with
  | O => (value, maxValue)
  | S i =>
      fractal_octaves i persistence x y
        (add value (mul (noise2D (mul x frequency) (mul y frequency)) amplitude))
        (mul amplitude persistence)
        (mul frequency (ofZ 2))
        (add maxValue amplitude)
  end.

Definition generateFractalNoise (x y : num) (octaves : nat) (persistence : num) : num :=
  let '(value, maxValue) :=
    fractal_octaves octaves persistence x y (ofZ 0) (ofZ 1) (ofZ 1) (ofZ 0) in
  div (add (div value maxValue) (ofZ 1)) (ofZ 2).

(** one cell of the first pass: the value, and the running minimum and
    maximum *)
Definition first_pass_cell (y : Z) (st : list num * (num * num)) (x : Z)
  : list num * (num * num) :=
  let '(row, (minValue, maxValue)) := st in
  let val :=
    generateFractalNoise (div (ofZ x) (ofZ 50)) (div (ofZ y) (ofZ 50)) 4 (ofQ 0.5) in
  (row ++ [val], (Math_min minValue val, Math_max maxValue val)).

Definition first_pass_row (width : Z) (st : list (list num) * (num * num)) (y : Z)
  : list (list num) * (num * num) :=
  let '(map, mm) := st in
  let '(row, mm') := foldl (first_pass_cell y) ([], mm) (seqZ 0 width) in
  (map ++ [row], mm').

Definition generateMap (width height : Z) : list (list num) :=
  let '(map, (minValue, maxValue)) :=
    foldl (first_pass_row width) ([], (Infinity, opp Infinity)) (seqZ 0 height) in
  (* second pass: every cell written in the first pass is rescaled *)
  (fun row : list num =>
     (fun v => div (sub v minValue) (sub maxValue minValue)) <$> row) <$> map.
End Noise.

Section Classifier.
Context {N : Number}.

Definition getTerrainType (val : num) : string :=
  if ltb val (TerrainBoundaries.water TERRAIN_BOUNDARIES) then "water"
  else if ltb val (TerrainBoundaries.sand TERRAIN_BOUNDARIES) then "sand"
  else if ltb val (TerrainBoundaries.land TERRAIN_BOUNDARIES) then "land"
  else if ltb val (TerrainBoundaries.hills TERRAIN_BOUNDARIES) then "hills"
  else if ltb val (TerrainBoundaries.mountain TERRAIN_BOUNDARIES) then "mountain"
  else if ltb val (TerrainBoundaries.snow TERRAIN_BOUNDARIES) then "snow"
  else "snow".

(** [switch (terrain)]: where [val] lies in the range of [terrain] *)
Definition getTerrainIntensity (val : num) (terrain : string) : num :=
  let water := TerrainBoundaries.water TERRAIN_BOUNDARIES in
  let sand := TerrainBoundaries.sand TERRAIN_BOUNDARIES in
  let land := TerrainBoundaries.land TERRAIN_BOUNDARIES in
  let hills := TerrainBoundaries.hills TERRAIN_BOUNDARIES in
  let mountain := TerrainBoundaries.mountain TERRAIN_BOUNDARIES in
  let snow := TerrainBoundaries.snow TERRAIN_BOUNDARIES in
  if bool_decide (terrain = "water") then div val water
  else if bool_decide (terrain = "sand") then div (sub val water) (sub sand water)
  else if bool_decide (terrain = "land") then div (sub val sand) (sub land sand)
  else if bool_decide (terrain = "hills") then div (sub val land) (sub hills land)
  else if bool_decide (terrain = "mountain") then div (sub val hills) (sub mountain hills)
  else if bool_decide (terrain = "snow") then div (sub val mountain) (sub snow mountain)
  else ofZ 0.
End Classifier.

(** ** mapGenerator.ts *)

Module MapConfig.
Record t {N : Number} := { width : Z; height : Z; cellSize : num }.
End MapConfig.

Module TerrainData.
Record t {N : Number} := {
  noiseMap : list (list num);
  terrainMap : list (list string)
}.
End TerrainData.

Module TerrainRange.
Record t {N : Number} := { terrain : string; min : num; max : num }.
End TerrainRange.

(** a loop whose body may [return true], ending in [return false] *)
Fixpoint anyM {A : Type} (body : A -> completion bool) (l : list A) : completion bool :=
  match l with
  | [] => Normal false
  | a :: l' => b ← body a; if b : bool then Normal true else anyM body l'
  end.

Section MapGenerator.
Context {N : Number}.

Definition pow2 (a : num) : num := mul a a.

(** the truth value of [terrainVisibility[terrain]] *)
Definition visible (terrainVisibility : list (string * bool)) (terrain : string) : bool :=
  match prop terrainVisibility terrain with
  | Some v => v
  | None => false
  end.

Definition checkNearWater (noiseMap : list (list num)) (row col radius : Z)
  : completion bool :=
  let height := Z.of_nat (length noiseMap) in
  row0 ← match noiseMap !! 0%nat with
         | Some row0 => Normal row0
         | None => Throw TypeError
         end;
  let width := Z.of_nat (length row0) in
  let r0 := Z.max 0 (row - radius) in
  let r1 := Z.min (height - 1) (row + radius) in
  let c0 := Z.max 0 (col - radius) in
  let c1 := Z.min (width - 1) (col + radius) in
  anyM (fun r =>
    anyM (fun c =>
      if (r =? row) && (c =? col) then Normal false
      else
        let distance :=
          Math_sqrt (add (pow2 (sub (ofZ r) (ofZ row))) (pow2 (sub (ofZ c) (ofZ col)))) in
        if leb distance (ofZ radius) then
          cell ← at_index2 noiseMap r c;
          Normal (match cell with
                  | Some v => ltb v (ofQ 0.40)
                  | None => false
                  end)
        else Normal false)
      (seqZ c0 (c1 - c0 + 1)))
    (seqZ r0 (r1 - r0 + 1)).

Definition terrainRanges : list TerrainRange.t := [
  TerrainRange.Build_t _ "water" (ofZ 0) (ofQ 0.40);
  TerrainRange.Build_t _ "sand" (ofQ 0.40) (ofQ 0.45);
  TerrainRange.Build_t _ "land" (ofQ 0.45) (ofQ 0.65);
  TerrainRange.Build_t _ "hills" (ofQ 0.65) (ofQ 0.75);
  TerrainRange.Build_t _ "mountain" (ofQ 0.75) (ofQ 0.85);
  TerrainRange.Build_t _ "snow" (ofQ 0.85) (ofQ 0.95)
].

(** one round of [for (const terrain of availableTerrains)] *)
Definition closest_step (noiseValue : num) (st : string * num) (terrain : string)
  : string * num :=
  let '(closestTerrain, minDistance) := st in
  match List.find (fun r => bool_decide (TerrainRange.terrain r = terrain)) terrainRanges with
  | Some terrainRange =>
      let terrainCenter :=
        div (add (TerrainRange.min terrainRange) (TerrainRange.max terrainRange)) (ofZ 2) in
      let distance := Math_abs (sub noiseValue terrainCenter) in
      if ltb distance minDistance then (terrain, distance) else (closestTerrain, minDistance)
  | None => (closestTerrain, minDistance)
  end.

(** the callback of the inner [row.map] in the branch for several
    selected terrains; [first] is [availableTerrains[0]] *)
Definition classifyCell (noiseMap : list (list num))
    (terrainVisibility : list (string * bool))
    (availableTerrains : list string) (first : string)
    (rowIndex : nat) (noiseValue : num) (colIndex : nat) : completion string :=
  let originalTerrain := getTerrainType noiseValue in
  if visible terrainVisibility originalTerrain then Normal originalTerrain
  else
    beach ←
      (if visible terrainVisibility "sand" && negb (visible terrainVisibility originalTerrain)
       then
         if bool_decide (originalTerrain = "land")
         then checkNearWater noiseMap (Z.of_nat rowIndex) (Z.of_nat colIndex) 1
         else Normal false
       else Normal false);
    if beach : bool then Normal "sand"
    else
      Normal (fst (foldl (closest_step noiseValue) (first, Infinity) availableTerrains)).

(** lines 51-125 of [generateTerrainData]: the terrain map for a noise map
    under a visibility setting *)
Definition filteredTerrainMap (noiseMap : list (list num))
    (terrainVisibility : list (string * bool)) : completion (list (list string)) :=
  let availableTerrains :=
    List.filter (fun terrain => visible terrainVisibility terrain)
                (Object_keys terrainVisibility) in
  match availableTerrains with
  | [] => Normal ((fun row : list num => (fun _ => "land") <$> row) <$> noiseMap)
  | [only] => Normal ((fun row : list num => (fun _ => only) <$> row) <$> noiseMap)
  | first :: _ =>
      mapM_index (fun row rowIndex =>
        mapM_index
          (classifyCell noiseMap terrainVisibility availableTerrains first rowIndex)
          0%nat row) 0%nat noiseMap
  end.

Variable noise2D : num -> num -> num.

Definition generateTerrainData (config : MapConfig.t)
    (terrainVisibility : option (list (string * bool))) : completion TerrainData.t :=
  let noiseMap := generateMap noise2D (MapConfig.width config) (MapConfig.height config) in
  match terrainVisibility with
  | Some terrainVisibility =>
      terrainMap ← filteredTerrainMap noiseMap terrainVisibility;
      Normal (TerrainData.Build_t _ noiseMap terrainMap)
  | None =>
      Normal (TerrainData.Build_t _ noiseMap
                ((fun row : list num => getTerrainType <$> row) <$> noiseMap))
  end.
End MapGenerator.

(** *** Rendering helpers

    The helpers of [drawMapToCanvas] that compute on numbers and strings.
    [Math.sin], [Math.hypot] and [Math.floor] are taken as functions on
    numbers; in exact arithmetic they are the functions below. *)


(** [Math.hypot] of two arguments: an infinite argument wins over [NaN] *)
Definition exact_hypot (x y : @num exact) : @num exact :=
  match x, y with
  | Exact.PInf, _ | Exact.NInf, _ | _, Exact.PInf | _, Exact.NInf => Exact.PInf
  | Exact.Nan, _ | _, Exact.Nan => Exact.Nan
  | Exact.Fin a, Exact.Fin b => Exact.Fin (R_sqrt.sqrt (a * a + b * b))
  end.

(** [v >>> 0] for an integer [v] *)
Definition to_uint32 (v : Z) : Z := v mod 2 ^ 32.

(** [terrain.charCodeAt(i)] for each [i] (a string in the model is a
    sequence of 8-bit characters) *)
Definition charCodes (s : string) : list Z :=
  (fun c => Z.of_N (N_of_ascii c)) <$> String.list_ascii_of_string s.

(** the integers that occur stay far below 2^53, where the arithmetic of
    numbers is that of integers *)
Definition terrainHashSeed (terrain : string) : Z :=
  foldl (fun seed code => to_uint32 (seed * 31 + code)) 0 (charCodes terrain).

Section Rendering.
Context {N : Number}.
Variables (Math_floor Math_sin : num -> num) (Math_hypot : num -> num -> num).

Definition clamp255 (v : num) : num :=
  Math_max (ofZ 0) (Math_min (ofZ 255) (Math_round v)).

Definition clamp01 (v : num) : num := Math_max (ofZ 0) (Math_min (ofZ 1) v).

Definition normalize2D (v : num * num) : num * num :=
  let len := or_default (Some (Math_hypot v.1 v.2)) (ofZ 1) in
  (div v.1 len, div v.2 len).

(** [heightMap[i][j]] as an operand of a subtraction: a missing cell is
    [undefined], which converts to [NaN] *)
Definition height_at (heightMap : list (list num)) (i j : Z) : completion num :=
  cell ← at_index2 heightMap i j; Normal (default NaN cell).

Definition estimateNormal (heightMap : list (list num)) (x y : Z)
  : completion (num * num) :=
  let h := Z.of_nat (length heightMap) in
  row0 ← match heightMap !! 0%nat with
         | Some row0 => Normal row0
         | None => Throw TypeError
         end;
  let w := Z.of_nat (length row0) in
  let xm := Z.max 0 (x - 1) in
  let xp := Z.min (w - 1) (x + 1) in
  let ym := Z.max 0 (y - 1) in
  let yp := Z.min (h - 1) (y + 1) in
  right ← height_at heightMap y xp;
  left ← height_at heightMap y xm;
  let dx := sub right left in
  below ← height_at heightMap yp x;
  above ← height_at heightMap ym x;
  let dy := sub below above in
  Normal (normalize2D (dx, opp dy)).


End Rendering.

(** ** components/MapCanvas.tsx

    The state update of the component that computes on data; the drawing
    and the event wiring are not modelled. *)

Module Pin.
Record t {N : Number} := { x : num; y : num }.
End Pin.

(** the updater that [handleCanvasClick] passes to [setPins], for a click
    at [pin] *)
Definition placePin {N : Number} (prevPins : list Pin.t) (pin : Pin.t) : list Pin.t :=
  match prevPins with
  | _ :: second :: _ => [second; pin]       (* [newPins.length >= 2] *)
  | _ => prevPins ++ [pin]
  end.

(** ** pathfinding_quicker.ts *)

(** the template string [`${x},${y}`] for integer coordinates *)
Definition coordKey (x y : Z) : string := pretty x +:+ "," +:+ pretty y.

Module Node.
Inductive t {N : Number} : Type := Build {
  x : Z;
  y : Z;
  g : num;
  h : num;
  f : num;
  parent : option t
}.
Arguments Build {N} x y g h f parent.
End Node.

Module PathResult.
Record t {N : Number} := {
  path : list Node.t;
  distance : num;
  success : bool;
  computationTime : option num
}.
Arguments Build_t {N} path distance success computationTime.
End PathResult.

Module BinaryHeap.
Section BinaryHeap.
Context {N : Number}.

Record t := { heap : list Node.t; nodeMap : gmap string nat }.

Definition empty : t := {| heap := []; nodeMap := ∅ |}.

Definition getKey (node : Node.t) : string :=
  coordKey (Node.x node) (Node.y node).

(** [this.heap[i]] where a property of the element is read next *)
Definition elem (this : t) (i : nat) : completion Node.t :=
  match heap this !! i with
  | Some node => Normal node
  | None => Throw TypeError
  end.

Definition swap (i j : nat) (this : t) : completion t :=
  a ← elem this i;
  b ← elem this j;
  let this1 := {| heap := <[j := a]> (<[i := b]> (heap this)); nodeMap := nodeMap this |} in
  ni ← elem this1 i;
  let this2 := {| heap := heap this1; nodeMap := <[getKey ni := i]> (nodeMap this1) |} in
  nj ← elem this2 j;
  Normal {| heap := heap this2; nodeMap := <[getKey nj := j]> (nodeMap this2) |}.

Fixpoint heapifyUp (fuel : nat) (index : nat) (this : t) : completion t :=
  if (index =? 0)%nat then Normal this
  else
    match fuel with
    | O => OutOfFuel
    | S fuel' =>
        let parentIndex := ((index - 1) / 2)%nat in
        child ← elem this index;
        up ← elem this parentIndex;
        if geb (Node.f child) (Node.f up) then Normal this
        else
          this' ← swap index parentIndex this;
          heapifyUp fuel' parentIndex this'
    end.

Fixpoint heapifyDown (fuel : nat) (index : nat) (this : t) : completion t :=
  match fuel with
  | O => OutOfFuel
  | S fuel' =>
      let smallest := index in
      let left := (2 * index + 1)%nat in
      let right := (2 * index + 2)%nat in
      smallest ←
        (if (left <? length (heap this))%nat then
           l ← elem this left;
           s ← elem this smallest;
           Normal (if ltb (Node.f l) (Node.f s) then left else smallest)
         else Normal smallest);
      smallest ←
        (if (right <? length (heap this))%nat then
           r ← elem this right;
           s ← elem this smallest;
           Normal (if ltb (Node.f r) (Node.f s) then right else smallest)
         else Normal smallest);
      if (smallest =? index)%nat then Normal this
      else
        this' ← swap index smallest this;
        heapifyDown fuel' smallest this'
  end.

Definition push (node : Node.t) (this : t) : completion t :=
  let key := getKey node in
  match nodeMap this !! key with
  | Some index =>
      old ← elem this index;
      let oldF := Node.f old in
      let this' := {| heap := <[index := node]> (heap this); nodeMap := nodeMap this |} in
      if ltb (Node.f node) oldF then heapifyUp index index this'
      else if gtb (Node.f node) oldF then heapifyDown (length (heap this')) index this'
      else Normal this'
  | None =>
      let heap' := heap this ++ [node] in
      let this' := {| heap := heap';
                      nodeMap := <[key := (length heap' - 1)%nat]> (nodeMap this) |} in
      heapifyUp (length heap' - 1) (length heap' - 1) this'
  end.

Definition pop (this : t) : completion (option Node.t * t) :=
  match heap this with
  | [] => Normal (None, this)
  | [node] => Normal (Some node, {| heap := []; nodeMap := ∅ |})
  | root :: rest =>
      let moved := List.last rest root in
      let heap' := moved :: removelast rest in
      let nodeMap' := <[getKey moved := 0%nat]> (delete (getKey root) (nodeMap this)) in
      this' ← heapifyDown (length heap') 0 {| heap := heap'; nodeMap := nodeMap' |};
      Normal (Some root, this')
  end.

Definition isEmpty (this : t) : bool := (length (heap this) =? 0)%nat.

Definition has (node : Node.t) (this : t) : bool :=
  bool_decide (is_Some (nodeMap this !! getKey node)).
End BinaryHeap.
End BinaryHeap.

Module SearchState.
Record t {N : Number} := {
  openSet : BinaryHeap.t;
  closedSet : gset string;
  gScore : gmap string num;
  fScore : gmap string num
}.
Arguments Build_t {N} openSet closedSet gScore fScore.
End SearchState.

Section Pathfinding.
Context {N : Number}.

Definition getHeuristic (a b : Node.t) : num :=
  let dx := Math_abs (sub (ofZ (Node.x a)) (ofZ (Node.x b))) in
  let dy := Math_abs (sub (ofZ (Node.y a)) (ofZ (Node.y b))) in
  Math_sqrt (add (mul dx dx) (mul dy dy)).

Definition DIRECTIONS : list (Z * Z) := [
  (-1, -1); (-1, 0); (-1, 1);
  (0, -1);           (0, 1);
  (1, -1);  (1, 0);  (1, 1)
].

Definition out_of_bounds (x y width height : Z) : bool :=
  (x <? 0) || (y <? 0) || (x >=? width) || (y >=? height).

(** the [for] loop of [getNeighbors], from direction [i] on *)
Fixpoint getNeighbors_from (directions : list (Z * Z)) (node : Node.t)
    (terrainMap : list (list string)) (width height : Z)
    (neighbors : list Node.t) : completion (list Node.t) :=
  match directions with
  | [] => Normal neighbors
  | (dx, dy) :: directions' =>
      let nx := Node.x node + dx in
      let ny := Node.y node + dy in
      if out_of_bounds nx ny width height
      then getNeighbors_from directions' node terrainMap width height neighbors
      else
        terrain ← at_index2 terrainMap ny nx;
        if eqb (getTerrainCost (prop_key terrain)) Infinity
        then getNeighbors_from directions' node terrainMap width height neighbors
        else
          getNeighbors_from directions' node terrainMap width height
            (neighbors ++ [Node.Build nx ny (ofZ 0) (ofZ 0) (ofZ 0) (Some node)])
  end.

Definition getNeighbors (node : Node.t) (terrainMap : list (list string))
    (width height : Z) : completion (list Node.t) :=
  getNeighbors_from DIRECTIONS node terrainMap width height [].

(** lines 299-305 of [findPath]: the cost of the move from [current] to
    [neighbor], a cell of cost [terrainCost] *)
Definition movementCost (terrainCost : num) (current neighbor : Node.t) : num :=
  let isDiagonal :=
    (Z.abs (Node.x neighbor - Node.x current) =? 1)
    && (Z.abs (Node.y neighbor - Node.y current) =? 1) in
  if isDiagonal then mul terrainCost (ofQ 1.414) else terrainCost.

(** [while (node) { path.push(node); node = node.parent; }] *)
Fixpoint parent_chain (node : Node.t) : list Node.t :=
  match node with
  | Node.Build _ _ _ _ _ parent =>
      node :: match parent with
              | Some up => parent_chain up
              | None => []
              end
  end.

Section Search.
(** [performance.now()]: the reading of the [k]-th call *)
Variable now : nat -> num.
Variables (endX endY : Z) (terrainMap : list (list string)) (width height : Z).

Let finish : Node.t := Node.Build endX endY (ofZ 0) (ofZ 0) (ofZ 0) None.

Definition elapsed : option num := Some (Math_round (sub (now 1%nat) (now 0%nat))).

(** the body of [for (const neighbor of neighbors)] *)
Definition relax (current : Node.t) (currentKey : string)
    (st : SearchState.t) (neighbor : Node.t) : completion SearchState.t :=
  let neighborKey := coordKey (Node.x neighbor) (Node.y neighbor) in
  if bool_decide (neighborKey ∈ SearchState.closedSet st) then Normal st
  else
    terrain ← at_index2 terrainMap (Node.y neighbor) (Node.x neighbor);
    let terrainCost := getTerrainCost (prop_key terrain) in
    let newGScore :=
      add (or_default (SearchState.gScore st !! currentKey) (ofZ 0))
          (movementCost terrainCost current neighbor) in
    let currentG := or_default (SearchState.gScore st !! neighborKey) Infinity in
    if ltb newGScore currentG then
      let h := getHeuristic neighbor finish in
      let f := add newGScore h in
      let neighborNode :=
        Node.Build (Node.x neighbor) (Node.y neighbor) newGScore h f (Some current) in
      openSet' ← BinaryHeap.push neighborNode (SearchState.openSet st);
      Normal (SearchState.Build_t openSet' (SearchState.closedSet st)
                (<[neighborKey := newGScore]> (SearchState.gScore st))
                (<[neighborKey := f]> (SearchState.fScore st)))
    else Normal st.

Fixpoint relax_all (current : Node.t) (currentKey : string)
    (st : SearchState.t) (neighbors : list Node.t) : completion SearchState.t :=
  match neighbors with
  | [] => Normal st
  | neighbor :: neighbors' =>
      st' ← relax current currentKey st neighbor;
      relax_all current currentKey st' neighbors'
  end.

(** one round of the main loop, [while (!openSet.isEmpty()) { ... }]:
    the result that ends the search, or the state for the next round *)
Definition search_step (st : SearchState.t) : completion (PathResult.t + SearchState.t) :=
  if BinaryHeap.isEmpty (SearchState.openSet st)
  then Normal (inl (PathResult.Build_t [] (ofZ 0) false elapsed))
  else
    popped ← BinaryHeap.pop (SearchState.openSet st);
    let '(top, openSet') := popped in
    match top with
    | None => Throw TypeError
    | Some current =>
        let currentKey := coordKey (Node.x current) (Node.y current) in
        if bool_decide (currentKey ∈ SearchState.closedSet st)
        then Normal (inr (SearchState.Build_t openSet' (SearchState.closedSet st)
                            (SearchState.gScore st) (SearchState.fScore st)))
        else
          let st' := SearchState.Build_t openSet'
                       ({[currentKey]} ∪ SearchState.closedSet st)
                       (SearchState.gScore st) (SearchState.fScore st) in
          if (Node.x current =? endX) && (Node.y current =? endY)
          then Normal (inl (PathResult.Build_t (rev (parent_chain current))
                              (Node.g current) true elapsed))
          else
            neighbors ← getNeighbors current terrainMap width height;
            st'' ← relax_all current currentKey st' neighbors;
            Normal (inr st'')
    end.

Fixpoint search (fuel : nat) (st : SearchState.t) : completion PathResult.t :=
  match fuel with
  | O => OutOfFuel
  | S fuel' =>
      next ← search_step st;
      match next with
      | inl result => Normal result
      | inr st' => search fuel' st'
      end
  end.
End Search.

(** lines 226-254 of [findPath]: the open set holding the start node, the
    empty closed set and the scores of the start *)
Definition initial_state (startX startY endX endY : Z) : completion SearchState.t :=
  let start :=
    Node.Build startX startY (ofZ 0)
      (getHeuristic (Node.Build startX startY (ofZ 0) (ofZ 0) (ofZ 0) None)
                    (Node.Build endX endY (ofZ 0) (ofZ 0) (ofZ 0) None))
      (ofZ 0) None in
  let startKey := coordKey startX startY in
  openSet ← BinaryHeap.push start BinaryHeap.empty;
  Normal (SearchState.Build_t openSet ∅
            (<[startKey := ofZ 0]> ∅) (<[startKey := Node.h start]> ∅)).

(** a number of rounds of the main loop that no search exceeds *)
Definition search_budget (width height : Z) : nat :=
  (9 * (Z.to_nat width * Z.to_nat height) + 2)%nat.

Definition findPath (now : nat -> num) (startX startY endX endY : Z)
    (terrainMap : list (list string)) : completion PathResult.t :=
  let startTime := now 0%nat in
  row0 ← match terrainMap !! 0%nat with
         | Some row0 => Normal row0
         | None => Throw TypeError
         end;
  let width := Z.of_nat (length row0) in
  let height := Z.of_nat (length terrainMap) in
  if out_of_bounds startX startY width height || out_of_bounds endX endY width height
  then Normal (PathResult.Build_t [] (ofZ 0) false None)
  else
    startTerrain ← at_index2 terrainMap startY startX;
    blocked ←
      (if eqb (getTerrainCost (prop_key startTerrain)) Infinity then Normal true
       else
         endTerrain ← at_index2 terrainMap endY endX;
         Normal (eqb (getTerrainCost (prop_key endTerrain)) Infinity));
    if blocked : bool then Normal (PathResult.Build_t [] (ofZ 0) false None)
    else if (startX =? endX) && (startY =? endY)
    then Normal (PathResult.Build_t
                   [Node.Build startX startY (ofZ 0) (ofZ 0) (ofZ 0) None]
                   (ofZ 0) true (elapsed now))
    else
      st ← initial_state startX startY endX endY;
      search now endX endY terrainMap width height (search_budget width height) st.
End Pathfinding.

(** ** Statements used by the theorems *)

Section SpecDefinitions.
Context {N : Number}.

(** The categories with their boundaries, in the order of
    [getTerrainOrder], read from [TERRAIN_DEFINITIONS]. *)
Definition boundaries_ascending : list (string * num) :=
  omap (fun name =>
          definition ← prop TERRAIN_DEFINITIONS name;
          Some (name, TerrainDefinition.boundary definition))
       getTerrainOrder.

(** The default-mode rule as the design document words it: the first
    boundary, in ascending order, that the value is strictly below; the
    top category when there is none. *)
Definition first_boundary_above (val : num) : string :=
  match List.find (fun entry => ltb val entry.2) boundaries_ascending with
  | Some entry => entry.1
  | None => "snow"
  end.

(** [costs[i] <= costs[i+1]] along a list of category names *)
Fixpoint nondecreasing_costs (names : list string) : bool :=
  match names with
  | a :: (b :: _) as rest =>
      leb (getTerrainCost a) (getTerrainCost b) && nondecreasing_costs rest
  | _ => true
  end.

(** a finite number that is at least 1 *)
Definition finite_ge_1 (c : num) : bool := leb (ofZ 1) c && ltb c Infinity.

(** The cost table as the design document describes it: water impassable,
    the other categories finite and at least 1, and costs non-decreasing
    with elevation rank from sand up to snow. *)
Definition cost_table_as_documented : Prop :=
  eqb (getTerrainCost "water") Infinity = true
  /\ forallb (fun name => finite_ge_1 (getTerrainCost name)) (tail getTerrainOrder) = true
  /\ nondecreasing_costs (tail getTerrainOrder) = true.

(** The cost table as shipped: water impassable; the other categories
    finite and at least 1; land the cheapest and snow the most expensive of
    them; costs non-decreasing with elevation rank over land, hills,
    mountain, snow; sand dearer than land and than hills. *)
Definition cost_table_as_shipped : Prop :=
  eqb (getTerrainCost "water") Infinity = true
  /\ forallb (fun name => finite_ge_1 (getTerrainCost name)) (tail getTerrainOrder) = true
  /\ forallb (fun name => leb (getTerrainCost "land") (getTerrainCost name)
                        && leb (getTerrainCost name) (getTerrainCost "snow"))
       (tail getTerrainOrder) = true
  /\ nondecreasing_costs ["land"; "hills"; "mountain"; "snow"] = true
  /\ ltb (getTerrainCost "land") (getTerrainCost "sand") = true
  /\ ltb (getTerrainCost "hills") (getTerrainCost "sand") = true.

(** the dimensions [findPath] reads off a grid *)
Definition grid_width (terrainMap : list (list string)) : Z :=
  match terrainMap with
  | row0 :: _ => Z.of_nat (length row0)
  | [] => 0
  end.

Definition grid_height (terrainMap : list (list string)) : Z :=
  Z.of_nat (length terrainMap).

Definition in_bounds (terrainMap : list (list string)) (x y : Z) : Prop :=
  0 <= x < grid_width terrainMap /\ 0 <= y < grid_height terrainMap.

(** the cell [terrainMap[y][x]] of an existing row, and its cost *)
Definition cell_at (terrainMap : list (list string)) (x y : Z) : option string :=
  row ← at_index terrainMap y; at_index row x.

Definition terrainCostAt (terrainMap : list (list string)) (x y : Z) : num :=
  getTerrainCost (prop_key (cell_at terrainMap x y)).

Definition impassable (terrainMap : list (list string)) (x y : Z) : Prop :=
  eqb (terrainCostAt terrainMap x y) Infinity = true.

(** a failed result: empty path, cost 0, [success = false] *)
Definition is_failure (result : completion PathResult.t) : Prop :=
  exists r, result = Normal r /\ PathResult.path r = []
            /\ PathResult.distance r = ofZ 0 /\ PathResult.success r = false.

(** the trivial result: the single node [(x, y)], cost 0, [success = true] *)
Definition is_trivial_path (x y : Z) (result : completion PathResult.t) : Prop :=
  exists r node, result = Normal r /\ PathResult.path r = [node]
                 /\ Node.x node = x /\ Node.y node = y
                 /\ PathResult.distance r = ofZ 0 /\ PathResult.success r = true.

(** The three fast-fail rules of [findPath] on one grid. *)
Definition fast_fail_rules (terrainMap : list (list string)) : Prop :=
  forall (now : nat -> num) (startX startY endX endY : Z),
    (~ in_bounds terrainMap startX startY \/ ~ in_bounds terrainMap endX endY ->
     is_failure (findPath now startX startY endX endY terrainMap))
    /\ (in_bounds terrainMap startX startY -> in_bounds terrainMap endX endY ->
        impassable terrainMap startX startY \/ impassable terrainMap endX endY ->
        is_failure (findPath now startX startY endX endY terrainMap))
    /\ (in_bounds terrainMap startX startY -> ~ impassable terrainMap startX startY ->
        is_trivial_path startX startY (findPath now startX startY startX startY terrainMap)).

(** the value the first pass of [generateMap] writes at [(x, y)] *)
Definition raw_value (noise2D : num -> num -> num) (x y : Z) : num :=
  generateFractalNoise noise2D (div (ofZ x) (ofZ 50)) (div (ofZ y) (ofZ 50)) 4 (ofQ 0.5).

(** the field after the first pass, and the update of the running minimum
    and maximum by one value *)
Definition raw_field (noise2D : num -> num -> num) (width height : Z) : list (list num) :=
  (fun y => (fun x => raw_value noise2D x y) <$> seqZ 0 width) <$> seqZ 0 height.

Definition min_max_step (mm : num * num) (val : num) : num * num :=
  (Math_min mm.1 val, Math_max mm.2 val).

Definition raw_min_max (noise2D : num -> num -> num) (width height : Z) : num * num :=
  foldl min_max_step (Infinity, opp Infinity) (concat (raw_field noise2D width height)).

(** a field of [height] rows of [width] cells; a non-positive dimension
    counts as 0 *)
Definition has_dimensions {A : Type} (width height : Z) (field : list (list A)) : Prop :=
  length field = Z.to_nat height
  /\ Forall (fun row => length row = Z.to_nat width) field.

(** Generation as the design document describes it: it fails exactly when
    a dimension is non-positive, and otherwise returns a field of the
    requested dimensions. *)
Definition generation_fails_on_bad_dimensions : Prop :=
  forall (noise2D : num -> num -> num) (config : MapConfig.t)
         (terrainVisibility : option (list (string * bool))),
    let width := MapConfig.width config in
    let height := MapConfig.height config in
    ((width <= 0 \/ height <= 0) <->
       exists msg, generateTerrainData noise2D config terrainVisibility = Throw msg)
    /\ (0 < width -> 0 < height ->
        exists data, generateTerrainData noise2D config terrainVisibility = Normal data
                     /\ has_dimensions width height (TerrainData.noiseMap data)).

(** what one round of the loops of [checkNearWater] decides at [(r, c)] *)
Definition water_within (noiseMap : list (list num)) (row col radius r c : Z) : bool :=
  if (r =? row) && (c =? col) then false
  else
    leb (Math_sqrt (add (pow2 (sub (ofZ r) (ofZ row))) (pow2 (sub (ofZ c) (ofZ col)))))
        (ofZ radius)
    && match row ← at_index noiseMap r; at_index row c with
       | Some v => ltb v (ofQ 0.40)
       | None => false
       end.

(** the enabled categories: the keys of the visibility mapping whose value
    is true, in enumeration order ([availableTerrains] in the source) *)
Definition enabled_terrains (terrainVisibility : list (string * bool)) : list string :=
  List.filter (fun terrain => visible terrainVisibility terrain)
              (Object_keys terrainVisibility).

(** what the classifier promises for one cell under a visibility mapping *)
Definition respects_visibility (terrainVisibility : list (string * bool))
    (terrain : string) : Prop :=
  match enabled_terrains terrainVisibility with
  | [] => terrain = "land"
  | [only] => terrain = only
  | _ => terrain ∈ enabled_terrains terrainVisibility
  end.

(** What the classifier promises for the cell of elevation [v]: a terrain
    that respects the visibility mapping, which is the natural category of
    [v] when several categories are enabled and that one is among them. *)
Definition classifies (terrainVisibility : list (string * bool)) (v : num)
    (terrain : string) : Prop :=
  respects_visibility terrainVisibility terrain
  /\ ((2 <= length (enabled_terrains terrainVisibility))%nat ->
      visible terrainVisibility (getTerrainType v) = true ->
      terrain = getTerrainType v).

(** a terrain map that classifies a noise map: as many rows, as many cells
    in each row, and every cell of the noise map classified by the cell at
    its place *)
Definition classified_field (terrainVisibility : list (string * bool))
    (noiseMap : list (list num)) (terrainMap : list (list string)) : Prop :=
  Forall2 (Forall2 (classifies terrainVisibility)) noiseMap terrainMap.

(** the cell of a field or terrain map at row [r], column [c] *)
Definition cell {A : Type} (field : list (list A)) (r c : nat) : option A :=
  row ← field !! r; row !! c.

(** two cells next to each other in a row or in a column *)
Definition orthogonal_neighbours (r c r' c' : nat) : Prop :=
  (r = r' /\ (c = S c' \/ c' = S c)) \/ (c = c' /\ (r = S r' \/ r' = S r)).

(** A 7 by 7 field of the value [high] with the value [low] at (5,5). *)
Definition field_with_pond (low high : num) : list (list num) :=
  <[5%nat := <[5%nat := low]> (replicate 7 high)]> (replicate 7 (replicate 7 high)).

Definition visibility_of (water sand land hills mountain snow : bool) : list (string * bool) :=
  [("water", water); ("sand", sand); ("land", land);
   ("hills", hills); ("mountain", mountain); ("snow", snow)].






(** The invariant of the open set: the coordinate-to-index map binds
    exactly the keys of the nodes stored in the heap, each to the slot that
    holds the node. *)
Definition heap_inv (this : BinaryHeap.t) : Prop :=
  forall (key : string) (i : nat),
    BinaryHeap.nodeMap this !! key = Some i
    <-> exists node, BinaryHeap.heap this !! i = Some node
                     /\ BinaryHeap.getKey node = key.

(** at most one heap entry per grid coordinate *)
Definition one_entry_per_coordinate (this : BinaryHeap.t) : Prop :=
  forall (i j : nat) (a b : Node.t),
    BinaryHeap.heap this !! i = Some a -> BinaryHeap.heap this !! j = Some b ->
    Node.x a = Node.x b -> Node.y a = Node.y b -> i = j.

(** a number other than [NaN] *)
Definition not_NaN (a : num) : Prop := isNaN a = false.

(** Numbers that [<], [<=] and [>=] order: among them [a >= b] holds
    exactly when [a < b] does not, [a < b] gives [a <= b], no number is
    below itself, and [<=] is transitive.  Every number but [NaN] is such a
    number, in IEEE binary64 and in exact arithmetic. *)
Record ordered_numbers (ordered : num -> Prop) : Prop := {
  order_total : forall a b, ordered a -> ordered b -> geb a b = negb (ltb a b);
  order_lt_le : forall a b, ordered a -> ordered b -> ltb a b = true -> leb a b = true;
  order_irrefl : forall a, ordered a -> ltb a a = false;
  order_trans : forall a b c, ordered a -> ordered b -> ordered c ->
                leb a b = true -> leb b c = true -> leb a c = true
}.

(** the order of the heap: the [f] of the first node is not above that of
    the second *)
Definition node_le (a b : Node.t) : Prop := leb (Node.f a) (Node.f b) = true.

(** slot [c] holds a child of slot [p] *)
Definition child_of (c p : nat) : Prop := c = (2 * p + 1)%nat \/ c = (2 * p + 2)%nat.

(** a list of nodes in which a parent is not above its child, for the pairs
    of slots that [P] selects *)
Definition ordered_where (P : nat -> nat -> Prop) (heap : list Node.t) : Prop :=
  forall (p c : nat) (a b : Node.t),
    child_of c p -> P p c -> heap !! p = Some a -> heap !! c = Some b -> node_le a b.

(** The min-heap order: no node is above a child of its. *)
Definition heap_ordered (this : BinaryHeap.t) : Prop :=
  ordered_where (fun _ _ => True) (BinaryHeap.heap this).

(** every [f] in the heap is an ordered number *)
Definition heap_values (ordered : num -> Prop) (this : BinaryHeap.t) : Prop :=
  Forall (fun node => ordered (Node.f node)) (BinaryHeap.heap this).

(** the parent of slot [index], when it has one, is not above a child of
    slot [index] *)
Definition grandparent_ordered (index : nat) (heap : list Node.t) : Prop :=
  forall (pp c : nat) (a b : Node.t),
    child_of index pp -> child_of c index ->
    heap !! pp = Some a -> heap !! c = Some b -> node_le a b.

(** what [heapifyUp index] starts from: the order may fail between slot
    [index] and its parent only *)
Definition up_ready (index : nat) (heap : list Node.t) : Prop :=
  ordered_where (fun _ c => c <> index) heap /\ grandparent_ordered index heap.

(** what [heapifyDown index] starts from: the order may fail between slot
    [index] and its children only *)
Definition down_ready (index : nat) (heap : list Node.t) : Prop :=
  ordered_where (fun p _ => p <> index) heap /\ grandparent_ordered index heap.

(** the same nodes in as many slots *)
Definition same_nodes (this this' : BinaryHeap.t) : Prop :=
  length (BinaryHeap.heap this') = length (BinaryHeap.heap this)
  /\ forall node, node ∈ BinaryHeap.heap this' <-> node ∈ BinaryHeap.heap this.

(** The heaps a search can hold: what [push] and [pop] make of the empty
    heap. *)
Inductive heap_reachable : BinaryHeap.t -> Prop :=
| reachable_empty : heap_reachable BinaryHeap.empty
| reachable_push (node : Node.t) (this this' : BinaryHeap.t) :
    heap_reachable this -> BinaryHeap.push node this = Normal this' ->
    heap_reachable this'
| reachable_pop (top : option Node.t) (this this' : BinaryHeap.t) :
    heap_reachable this -> BinaryHeap.pop this = Normal (top, this') ->
    heap_reachable this'.

(** a node on the grid *)
Definition node_in_bounds (width height : Z) (node : Node.t) : Prop :=
  0 <= Node.x node < width /\ 0 <= Node.y node < height.

(** the keys of the cells of a [width] by [height] grid *)
Definition grid_keys (width height : Z) : gset string :=
  list_to_set (y ← seqZ 0 height; (fun x => coordKey x y) <$> seqZ 0 width).

(** what holds of the search state at the head of every round of the main
    loop *)
Definition search_inv (width height : Z) (st : SearchState.t) : Prop :=
  heap_reachable (SearchState.openSet st)
  /\ forall node, node ∈ BinaryHeap.heap (SearchState.openSet st) ->
                  node_in_bounds width height node.

(** the measure that every round of the main loop decreases: the entries of
    the open set, and 9 for every cell that is not closed yet *)
Definition potential (width height : Z) (st : SearchState.t) : nat :=
  (length (BinaryHeap.heap (SearchState.openSet st))
   + 9 * size (grid_keys width height ∖ SearchState.closedSet st))%nat.

(** the states at the head of the rounds of a search from [init] *)
Inductive search_reaches (step : SearchState.t -> completion (PathResult.t + SearchState.t))
    (init : SearchState.t) : SearchState.t -> Prop :=
| reaches_init : search_reaches step init init
| reaches_next (st st' : SearchState.t) :
    search_reaches step init st -> step st = Normal (inr st') ->
    search_reaches step init st'.

(** the fields of a result that make up its contract: everything but the
    elapsed time *)
Definition contract (result : PathResult.t) : list Node.t * num * bool :=
  (PathResult.path result, PathResult.distance result, PathResult.success result).

(** the contract of a call: how it ends, and the contract fields of its
    result *)
Definition contract_of (outcome : completion PathResult.t)
  : completion (list Node.t * num * bool) :=
  result ← outcome; Normal (contract result).

(** a string without the separator of [coordKey] *)
Fixpoint comma_free (s : string) : bool :=
  match s with
  | EmptyString => true
  | String c s' => negb (Ascii.eqb c ","%char) && comma_free s'
  end.

(** the node that stands for a coordinate *)
Definition node_at (c : Z * Z) : Node.t :=
  Node.Build c.1 c.2 (ofZ 0) (ofZ 0) (ofZ 0) None.

(** one of the 8 moves of [DIRECTIONS] *)
Definition is_move (from to : Z * Z) : Prop :=
  (to.1 - from.1, to.2 - from.2) ∈ DIRECTIONS.

(** a sequence of moves from [from] that ends at [goal], every cell entered
    being on the grid and passable *)
Fixpoint is_path (terrainMap : list (list string)) (from : Z * Z)
    (steps : list (Z * Z)) (goal : Z * Z) : Prop :=
  match steps with
  | [] => from = goal
  | to :: rest =>
      is_move from to /\ in_bounds terrainMap to.1 to.2
      /\ ~ impassable terrainMap to.1 to.2
      /\ is_path terrainMap to rest goal
  end.

(** the cost [findPath] gives a sequence of moves: the [g] of the last
    cell, for a [g] of the first *)
Fixpoint path_cost_from (terrainMap : list (list string)) (g : num) (from : Z * Z)
    (steps : list (Z * Z)) : num :=
  match steps with
  | [] => g
  | to :: rest =>
      path_cost_from terrainMap
        (add g (movementCost (terrainCostAt terrainMap to.1 to.2)
                             (node_at from) (node_at to)))
        to rest
  end.

Definition path_cost (terrainMap : list (list string)) (from : Z * Z)
    (steps : list (Z * Z)) : num :=
  path_cost_from terrainMap (ofZ 0) from steps.

(** The heuristic never exceeds the cost of a path to the goal. *)
Definition admissible_on (terrainMap : list (list string)) : Prop :=
  forall (from goal : Z * Z) (steps : list (Z * Z)),
    in_bounds terrainMap from.1 from.2 -> ~ impassable terrainMap from.1 from.2 ->
    is_path terrainMap from steps goal ->
    leb (getHeuristic (node_at from) (node_at goal)) (path_cost terrainMap from steps)
    = true.

(** [movementCost] and [path_cost_from] with the diagonal multiplier as a
    parameter; the shipped ones are those of the literal [1.414] *)
Definition movementCost_with (diagonal terrainCost : num) (current neighbor : Node.t) : num :=
  let isDiagonal :=
    (Z.abs (Node.x neighbor - Node.x current) =? 1)
    && (Z.abs (Node.y neighbor - Node.y current) =? 1) in
  if isDiagonal then mul terrainCost diagonal else terrainCost.

Fixpoint path_cost_from_with (diagonal : num) (terrainMap : list (list string)) (g : num)
    (from : Z * Z) (steps : list (Z * Z)) : num :=
  match steps with
  | [] => g
  | to :: rest =>
      path_cost_from_with diagonal terrainMap
        (add g (movementCost_with diagonal (terrainCostAt terrainMap to.1 to.2)
                                  (node_at from) (node_at to)))
        to rest
  end.

(** the coordinate of a node *)
Definition coords (node : Node.t) : Z * Z := (Node.x node, Node.y node).

(** the node [getNeighbors] makes for the cell at offset [d] of [node] *)
Definition neighbour_node (node : Node.t) (d : Z * Z) : Node.t :=
  Node.Build (Node.x node + d.1) (Node.y node + d.2) (ofZ 0) (ofZ 0) (ofZ 0) (Some node).

(** the test of [getNeighbors] on the cell at offset [d] of [node]: on the
    grid, and of a cost other than [Infinity] *)
Definition open_cell (terrainMap : list (list string)) (width height : Z)
    (node : Node.t) (d : Z * Z) : bool :=
  negb (out_of_bounds (Node.x node + d.1) (Node.y node + d.2) width height)
  && negb (eqb (terrainCostAt terrainMap (Node.x node + d.1) (Node.y node + d.2)) Infinity).

(** A route from [start] to [goal]: a list of nodes whose coordinates begin
    at [start] and go on by moves of [DIRECTIONS], each into a cell on the
    grid that is passable, up to [goal]. *)
Definition is_route (terrainMap : list (list string)) (start goal : Z * Z)
    (path : list Node.t) : Prop :=
  exists steps, coords <$> path = start :: steps /\ is_path terrainMap start steps goal.

(** What a result of [findPath] is for the endpoints [start] and [goal]:
    a success carries a route from [start] to [goal], both on the grid and
    passable, and the [g] of its last node as the distance; a failure carries
    the empty path and the distance 0. *)
Definition route_result (terrainMap : list (list string)) (start goal : Z * Z)
    (result : PathResult.t) : Prop :=
  if PathResult.success result
  then in_bounds terrainMap start.1 start.2 /\ ~ impassable terrainMap start.1 start.2
       /\ in_bounds terrainMap goal.1 goal.2 /\ ~ impassable terrainMap goal.1 goal.2
       /\ is_route terrainMap start goal (PathResult.path result)
       /\ exists final, last (PathResult.path result) = Some final
                        /\ coords final = goal
                        /\ PathResult.distance result = Node.g final
  else PathResult.path result = [] /\ PathResult.distance result = ofZ 0.

(** the open set of a search from [start] holds nodes whose chain of
    parents, read backwards, is a route from [start] to the node *)
Definition route_inv (terrainMap : list (list string)) (start : Z * Z)
    (st : SearchState.t) : Prop :=
  heap_inv (SearchState.openSet st)
  /\ forall node, node ∈ BinaryHeap.heap (SearchState.openSet st) ->
                  is_route terrainMap start (coords node) (rev (parent_chain node)).
End SpecDefinitions.

(** A key of three integers for a binary64 value that is not [NaN]: the
    comparison of two values is the comparison of their keys, place by
    place. *)
Definition float_key (x : spec_float) : Z * Z * Z :=
  match x with
  | S754_infinity false => (2, 0, 0)
  | S754_infinity true => (-2, 0, 0)
  | S754_finite false m e => (1, e, Z.pos m)
  | S754_finite true m e => (-1, - e, Z.neg m)
  | _ => (0, 0, 0)
  end.

Definition key_compare (k1 k2 : Z * Z * Z) : comparison :=
  match k1.1.1 ?= k2.1.1 with
  | Eq => match k1.1.2 ?= k2.1.2 with
          | Eq => k1.2 ?= k2.2
          | c => c
          end
  | c => c
  end.

(** the 2 by 2 grid of land *)
Definition land2 : list (list string) := [["land"; "land"]; ["land"; "land"]].


(** a node for examples: the cell [(x, 0)] with the total cost [f] *)
Definition example_node (x f : Z) : @Node.t binary64 :=
  Node.Build x 0 (ofZ 0) (ofZ 0) (ofZ f) None.








(* ================================================================== *)
(** ** Statements about the classifier and the tables *)

(** the place of a terrain in the order of elevation, from 0 for water;
    6 for a name that is not in the order *)
Definition terrain_rank (terrain : string) : nat :=
  match list_find (fun name => name = terrain) getTerrainOrder with
  | Some (i, _) => i
  | None => length getTerrainOrder
  end.

(** a colour channel as [definition_color] computes it in exact arithmetic:
    the floor of [base + intensity * variation], kept within 0 and 255 *)
Definition channel (base variation : Z) (intensity : R) : Z :=
  Z.max 0 (Z.min 255 (Int_part (IZR base + intensity * IZR variation))).

(** the definition [getTerrainColor] takes the colour from: that of the
    terrain, or that of land for a terrain it does not know; none for a
    name that the table inherits *)
Definition color_definition {N : Number} (terrain : string) : option TerrainDefinition.t :=
  match prop TERRAIN_DEFINITIONS terrain with
  | Some definition => Some definition
  | None =>
      if bool_decide (terrain ∈ Object_prototype_names) then None
      else prop TERRAIN_DEFINITIONS "land"
  end.

(** a palette entry whose colours stay within 0 and 255 for intensities
    between 0 and 1 *)
Definition palette_in_range {N : Number} (definition : TerrainDefinition.t) : Prop :=
  let base := TerrainDefinition.color_base definition in
  let variation := TerrainDefinition.color_variation definition in
  (0 <= RGB.r base /\ 0 <= RGB.r variation /\ RGB.r base + RGB.r variation <= 255)
  /\ (0 <= RGB.g base /\ 0 <= RGB.g variation /\ RGB.g base + RGB.g variation <= 255)
  /\ (0 <= RGB.b base /\ 0 <= RGB.b variation /\ RGB.b base + RGB.b variation <= 255).

(** the polynomial in 31 whose coefficients are the character codes, the
    first code in the highest place *)
Definition polynomial_hash (codes : list Z) : Z :=
  foldl (fun acc code => acc * 31 + code) 0 codes.

(** * Theorems *)
(* ================================================================== *)

(** ** The two arithmetics on literals *)

Lemma Rltb_true (a b : R) : Exact.Rltb a b = true <-> (a < b)%R.
Proof. unfold Exact.Rltb. destruct (Rlt_dec a b); split; intros; try done. Qed.

Lemma Rltb_false (a b : R) : Exact.Rltb a b = false <-> (b <= a)%R.
Proof.
  unfold Exact.Rltb. destruct (Rlt_dec a b); split; intros; try done; lra.
Qed.

Lemma Reqb_true (a b : R) : Exact.Reqb a b = true <-> a = b.
Proof. unfold Exact.Reqb. destruct (Req_dec_T a b); split; intros; try done. Qed.

Lemma Reqb_false (a b : R) : Exact.Reqb a b = false <-> a <> b.
Proof. unfold Exact.Reqb. destruct (Req_dec_T a b); split; intros; try done. Qed.

Lemma exact_ofQ (n : Z) (d : positive) :
  @ofQ exact (n # d) = Exact.Fin (IZR n / IZR (Z.pos d)).
Proof.
  unfold ofQ; simpl.
  assert (H : Exact.Reqb (IZR (Z.pos d)) 0 = false).
  { apply Reqb_false. apply not_0_IZR. lia. }
  rewrite H. reflexivity.
Qed.

(** Unfolds the operations of [exact], and nothing else. *)
Ltac exact_arith_step :=
  cbn [num ofZ Infinity NaN opp add sub mul div ltb leb eqb
       Math_sqrt Math_abs Math_round Math_min Math_max exact
       Exact.e_opp Exact.e_add Exact.e_sub Exact.e_mul Exact.e_div
       Exact.e_ltb Exact.e_leb Exact.e_eqb Exact.e_sqrt Exact.e_abs
       Exact.e_min Exact.e_max Exact.scale_inf];
  try unfold Exact.e_leb; try unfold Exact.e_sub; try unfold Exact.scale_inf.

Ltac exact_arith := exact_arith_step; repeat (progress exact_arith_step).

Ltac unfold_boundaries :=
  unfold TERRAIN_BOUNDARIES;
  cbn [TerrainBoundaries.water TerrainBoundaries.sand TerrainBoundaries.land
       TerrainBoundaries.hills TerrainBoundaries.mountain TerrainBoundaries.snow].

(** Decides comparisons of real literals that appear in a goal. *)
Ltac real_cases :=
  repeat match goal with
    | |- context [Exact.Rltb ?a ?b] =>
        let H := fresh in
        destruct (Exact.Rltb a b) eqn:H;
        [apply Rltb_true in H | apply Rltb_false in H]; try lra
    | |- context [Exact.Reqb ?a ?b] =>
        let H := fresh in
        destruct (Exact.Reqb a b) eqn:H;
        [apply Reqb_true in H | apply Reqb_false in H]; try lra
    end.

(** ** C7: the default classifier *)

Lemma boundaries_ascending_eq {N : Number} :
  boundaries_ascending =
    [("water", ofQ 0.40); ("sand", ofQ 0.45); ("land", ofQ 0.65);
     ("hills", ofQ 0.75); ("mountain", ofQ 0.85); ("snow", ofQ 0.95)].
Proof. reflexivity. Qed.

(** C7.  For every number arithmetic and every value [val] (inside or
    outside [0,1], [NaN] included), [getTerrainType val] is the category of
    the first boundary, in the ascending order water 0.40, sand 0.45,
    land 0.65, hills 0.75, mountain 0.85, snow 0.95, that [val] is strictly
    below, and ["snow"] when [val] is below none of them; so it is a total
    function into the six categories.  In exact arithmetic every value at or
    above the highest boundary 0.95 is ["snow"]. *)
Theorem getTerrainType_first_boundary :
  (forall (N : Number) (val : num),
     getTerrainType val = first_boundary_above val
     /\ getTerrainType val ∈ getTerrainOrder)
  /\ (forall r : R, (0.95 <= r)%R -> @getTerrainType exact (Exact.Fin r) = "snow").
Proof.
  split; [intros N val; split|].
  - unfold first_boundary_above. rewrite boundaries_ascending_eq.
    unfold getTerrainType; simpl.
    repeat (match goal with |- context [ltb val ?b] => destruct (ltb val b) end;
            try reflexivity).
  - unfold getTerrainType, getTerrainOrder.
    repeat (match goal with |- context [ltb val ?b] => destruct (ltb val b) end;
            try (apply list_elem_of_In; simpl; tauto)).
  - intros r Hr. unfold getTerrainType. unfold_boundaries.
    rewrite !exact_ofQ. exact_arith. real_cases. reflexivity.
Qed.

Lemma getTerrainType_first_boundary_witness :
  @getTerrainType exact (Exact.Fin 1) = "snow".
Proof. apply (proj2 getTerrainType_first_boundary 1%R). lra. Defined.

(** ** C6: the cost table *)

Lemma getTerrainCost_table {N : Number} :
  getTerrainCost "water" = Infinity /\ getTerrainCost "sand" = ofZ 3
  /\ getTerrainCost "land" = ofZ 1 /\ getTerrainCost "hills" = ofZ 2
  /\ getTerrainCost "mountain" = ofZ 4 /\ getTerrainCost "snow" = ofZ 5.
Proof. repeat split. Qed.

(** Rewrites the costs of the six categories to their literals. *)
Ltac table_costs :=
  repeat match goal with
    | |- context [getTerrainCost "water"] =>
        rewrite (proj1 getTerrainCost_table)
    | |- context [getTerrainCost "sand"] =>
        rewrite (proj1 (proj2 getTerrainCost_table))
    | |- context [getTerrainCost "land"] =>
        rewrite (proj1 (proj2 (proj2 getTerrainCost_table)))
    | |- context [getTerrainCost "hills"] =>
        rewrite (proj1 (proj2 (proj2 (proj2 getTerrainCost_table))))
    | |- context [getTerrainCost "mountain"] =>
        rewrite (proj1 (proj2 (proj2 (proj2 (proj2 getTerrainCost_table)))))
    | |- context [getTerrainCost "snow"] =>
        rewrite (proj2 (proj2 (proj2 (proj2 (proj2 getTerrainCost_table)))))
    end.

(** C6, as stated, fails in both arithmetics: along the elevation order the
    cost drops from sand (3) to land (1). *)
Lemma cost_table_not_monotone :
  ~ @cost_table_as_documented binary64 /\ ~ @cost_table_as_documented exact.
Proof.
  split.
  - intros (_ & _ & H). vm_compute in H. discriminate.
  - intros (_ & _ & H). revert H.
    unfold getTerrainOrder, tail, nondecreasing_costs. table_costs.
    exact_arith. real_cases; discriminate.
Qed.

(** C6, amended.  In the shipped table, under IEEE binary64 and under exact
    arithmetic alike: water costs [Infinity]; sand, land, hills, mountain
    and snow each cost a finite number that is at least 1; land (1) is the
    cheapest and snow (5) the most expensive of them; the cost does not
    decrease along land, hills, mountain, snow; and sand (3) costs more than
    land (1) and than hills (2). *)
Theorem cost_table_shipped :
  @cost_table_as_shipped binary64 /\ @cost_table_as_shipped exact.
Proof.
  split.
  - repeat split; vm_compute; reflexivity.
  - unfold cost_table_as_shipped, getTerrainOrder, tail, nondecreasing_costs,
      forallb, finite_ge_1.
    table_costs. exact_arith. real_cases; repeat split; reflexivity.
Qed.

(** ** C2: the fast-fail rules of [findPath] *)

Lemma out_of_bounds_spec (x y width height : Z) :
  out_of_bounds x y width height = false <-> 0 <= x < width /\ 0 <= y < height.
Proof. unfold out_of_bounds. rewrite !orb_false_iff. lia. Qed.

Lemma at_index_in_range {A : Type} (l : list A) (i : Z) :
  0 <= i < Z.of_nat (length l) -> exists a, at_index l i = Some a.
Proof.
  intros Hi. unfold at_index.
  destruct (i <? 0) eqn:E; [lia|].
  apply lookup_lt_is_Some_2. lia.
Qed.

Lemma at_index_of_nat {A : Type} (l : list A) (i : nat) :
  at_index l (Z.of_nat i) = l !! i.
Proof.
  unfold at_index. destruct (Z.of_nat i <? 0) eqn:E; [apply Z.ltb_lt in E; lia|].
  by rewrite Nat2Z.id.
Qed.

Lemma at_index2_in_range {A : Type} (a : list (list A)) (i j : Z) :
  0 <= i < Z.of_nat (length a) ->
  at_index2 a i j = Normal (row ← at_index a i; at_index row j).
Proof.
  intros Hi. unfold at_index2.
  destruct (at_index_in_range a i Hi) as [row ->]. reflexivity.
Qed.

(** C2, as stated, fails on the grid with no rows: [terrainMap[0].length]
    throws before any rule is checked. *)
Lemma findPath_throws_on_empty_grid :
  (forall (N : Number) (now : nat -> num) (startX startY endX endY : Z),
     findPath now startX startY endX endY [] = Throw TypeError)
  /\ ~ @fast_fail_rules binary64 [].
Proof.
  split; [reflexivity|].
  intros H.
  destruct (H (fun _ => 0%float) 0 0 0 0) as [Hout _].
  destruct Hout as (r & Hr & _); [|discriminate].
  left. unfold in_bounds, grid_width. lia.
Qed.

(** C2, amended.  For every number arithmetic and every terrain grid with
    at least one row, [findPath] returns its result as data: a failed
    result (empty path, distance 0, [success = false]) when an endpoint is
    outside the grid or when the cost of the cell of an endpoint is
    [Infinity]; and, when start and goal are the same in-bounds passable
    cell, the result with that single node, distance 0 and
    [success = true], whatever else the grid holds. *)
Theorem findPath_fast_fail {N : Number} (terrainMap : list (list string)) :
  terrainMap <> [] -> fast_fail_rules terrainMap.
Proof.
  intros Hne now startX startY endX endY.
  destruct terrainMap as [|row0 rest]; [done|].
  unfold findPath. cbn [lookup list_lookup mbind completion_bind].
  set (width := Z.of_nat (length row0)).
  set (height := Z.of_nat (length (row0 :: rest))).
  assert (Hb : forall x y, out_of_bounds x y width height = false
                           <-> in_bounds (row0 :: rest) x y).
  { intros x y. rewrite out_of_bounds_spec. reflexivity. }
  split; [|split].
  - intros Hout.
    assert (out_of_bounds startX startY width height
            || out_of_bounds endX endY width height = true) as ->.
    { apply not_false_iff_true. rewrite orb_false_iff, !Hb. tauto. }
    eexists; repeat split.
  - intros Hs He Himp.
    apply Hb in Hs as Hs', He as He'. rewrite Hs', He'. cbn [orb].
    rewrite !at_index2_in_range by apply Hs || apply He.
    cbn [mbind completion_bind].
    fold (cell_at (row0 :: rest) startX startY).
    fold (cell_at (row0 :: rest) endX endY).
    fold (terrainCostAt (row0 :: rest) startX startY).
    fold (terrainCostAt (row0 :: rest) endX endY).
    unfold impassable in Himp.
    destruct (eqb (terrainCostAt (row0 :: rest) startX startY) Infinity) eqn:E1.
    + eexists; repeat split.
    + destruct Himp as [Himp|Himp]; [congruence|].
      cbn [mbind completion_bind]. rewrite Himp. eexists; repeat split.
  - intros Hs Hpass.
    apply Hb in Hs as Hs'. rewrite Hs'. cbn [orb].
    rewrite !at_index2_in_range by apply Hs.
    cbn [mbind completion_bind].
    fold (cell_at (row0 :: rest) startX startY).
    fold (terrainCostAt (row0 :: rest) startX startY).
    unfold impassable in Hpass. apply not_true_is_false in Hpass.
    rewrite Hpass. cbn [mbind completion_bind]. rewrite !Z.eqb_refl.
    cbn [andb]. do 2 eexists; repeat split.
Qed.

Lemma findPath_fast_fail_witness :
  @fast_fail_rules binary64 [["land"; "water"]; ["sand"; "hills"]].
Proof. apply (@findPath_fast_fail binary64). discriminate. Defined.

(** ** The shape of a generated field *)

Section GenerateMapShape.
Context {N : Number}.
Variable noise2D : num -> num -> num.

Lemma first_pass_cell_foldl (y : Z) (xs : list Z) (row : list num) (mm : num * num) :
  foldl (first_pass_cell noise2D y) (row, mm) xs
  = (row ++ ((fun x => raw_value noise2D x y) <$> xs),
     foldl min_max_step mm ((fun x => raw_value noise2D x y) <$> xs)).
Proof.
  revert row mm. induction xs as [|x xs IH]; intros row mm.
  - cbn. by rewrite app_nil_r.
  - destruct mm as [mn mx]. cbn [foldl first_pass_cell fmap list_fmap].
    rewrite IH. by rewrite <- app_assoc.
Qed.

Lemma first_pass_row_foldl (width : Z) (ys : list Z) (map : list (list num))
    (mm : num * num) :
  let rows := (fun y => (fun x => raw_value noise2D x y) <$> seqZ 0 width) <$> ys in
  foldl (first_pass_row noise2D width) (map, mm) ys
  = (map ++ rows, foldl min_max_step mm (concat rows)).
Proof.
  revert map mm. induction ys as [|y ys IH]; intros map mm.
  - cbn. by rewrite app_nil_r.
  - cbn [foldl first_pass_row fmap list_fmap concat].
    rewrite first_pass_cell_foldl. cbn [app]. rewrite IH.
    by rewrite foldl_app, <- app_assoc.
Qed.

(** [generateMap] returns the raw field, every cell rescaled by the
    minimum and maximum of the first pass. *)
Lemma generateMap_eq (width height : Z) :
  generateMap noise2D width height
  = let mm := raw_min_max noise2D width height in
    (fun row : list num => (fun v => div (sub v mm.1) (sub mm.2 mm.1)) <$> row)
      <$> raw_field noise2D width height.
Proof.
  unfold generateMap. rewrite first_pass_row_foldl. cbn [app].
  fold (raw_field noise2D width height).
  fold (raw_min_max noise2D width height).
  by destruct (raw_min_max noise2D width height).
Qed.

Lemma raw_field_dimensions (width height : Z) :
  has_dimensions width height (raw_field noise2D width height).
Proof.
  split.
  - unfold raw_field. by rewrite length_fmap, length_seqZ.
  - unfold raw_field. apply Forall_fmap, Forall_forall. intros y _. cbn.
    by rewrite length_fmap, length_seqZ.
Qed.

Lemma generateMap_dimensions (width height : Z) :
  has_dimensions width height (generateMap noise2D width height).
Proof.
  rewrite generateMap_eq. cbn zeta.
  destruct (raw_field_dimensions width height) as [Hh Hw].
  split.
  - by rewrite length_fmap.
  - apply Forall_fmap. eapply Forall_impl; [exact Hw|].
    intros row Hrow. cbn. by rewrite length_fmap.
Qed.
End GenerateMapShape.

(** ** Loops that may throw *)

Lemma anyM_existsb {A : Type} (body : A -> completion bool) (p : A -> bool) (l : list A) :
  (forall a, a ∈ l -> body a = Normal (p a)) ->
  anyM body l = Normal (existsb p l).
Proof.
  induction l as [|a l IH]; intros Hbody; [reflexivity|].
  cbn [anyM existsb]. rewrite Hbody by left. cbn [mbind completion_bind].
  destruct (p a); [reflexivity|].
  apply IH. intros a' Ha'. apply Hbody. by right.
Qed.

Lemma mapM_index_total {A B : Type} (f : A -> nat -> completion B) (l : list A) (i : nat) :
  (forall k a, l !! k = Some a -> exists b, f a (i + k)%nat = Normal b) ->
  exists bs, mapM_index f i l = Normal bs.
Proof.
  revert i. induction l as [|a l IH]; intros i Hf; [by eexists|].
  cbn [mapM_index].
  destruct (Hf 0%nat a eq_refl) as [b Hb]. rewrite Nat.add_0_r in Hb. rewrite Hb.
  destruct (IH (S i)) as [bs Hbs].
  { intros k a' Hk. destruct (Hf (S k) a' Hk) as [b' Hb'].
    exists b'. by rewrite Nat.add_succ_comm. }
  cbn [mbind completion_bind]. rewrite Hbs. by eexists.
Qed.

Lemma mapM_index_inv {A B : Type} (f : A -> nat -> completion B) (l : list A) (i : nat)
    (bs : list B) :
  mapM_index f i l = Normal bs ->
  length bs = length l
  /\ forall k b, bs !! k = Some b ->
       exists a, l !! k = Some a /\ f a (i + k)%nat = Normal b.
Proof.
  revert i bs. induction l as [|a l IH]; intros i bs.
  - cbn. intros [= <-]. split; [done|]. intros k b Hk. done.
  - cbn [mapM_index].
    destruct (f a i) as [b0| |] eqn:Hb0; cbn [mbind completion_bind]; try done.
    destruct (mapM_index f (S i) l) as [bs'| |] eqn:Hbs'; cbn [mbind completion_bind];
      try done.
    intros [= <-]. destruct (IH _ _ Hbs') as [Hlen Hcells].
    split; [cbn; by rewrite Hlen|].
    intros [|k] b Hk.
    + injection Hk as <-. exists a. by rewrite Nat.add_0_r.
    + destruct (Hcells k b Hk) as (a' & Ha' & Hfa').
      exists a'. split; [done|]. by rewrite <- Nat.add_succ_comm.
Qed.

Section ClassifierRuns.
Context {N : Number}.

(** On a field with at least one row, [checkNearWater] does not throw: the
    rows it reads lie inside the field. *)
Lemma checkNearWater_eq (row0 : list num) (rest : list (list num)) (row col radius : Z) :
  let noiseMap := row0 :: rest in
  let height := Z.of_nat (length noiseMap) in
  let width := Z.of_nat (length row0) in
  let r0 := Z.max 0 (row - radius) in
  let r1 := Z.min (height - 1) (row + radius) in
  let c0 := Z.max 0 (col - radius) in
  let c1 := Z.min (width - 1) (col + radius) in
  checkNearWater noiseMap row col radius
  = Normal (existsb (fun r =>
              existsb (fun c => water_within noiseMap row col radius r c)
                      (seqZ c0 (c1 - c0 + 1)))
              (seqZ r0 (r1 - r0 + 1))).
Proof.
  intros noiseMap height width r0 r1 c0 c1.
  unfold checkNearWater. cbn [lookup list_lookup mbind completion_bind].
  apply anyM_existsb. intros r Hr.
  apply anyM_existsb. intros c Hc.
  unfold water_within.
  destruct ((r =? row) && (c =? col)); [reflexivity|].
  destruct (leb _ _); [|reflexivity].
  rewrite at_index2_in_range; [reflexivity|].
  apply elem_of_seqZ in Hr. fold noiseMap. fold height. lia.
Qed.

Lemma classifyCell_total (noiseMap : list (list num))
    (terrainVisibility : list (string * bool)) (availableTerrains : list string)
    (first : string) (rowIndex : nat) (noiseValue : num) (colIndex : nat) :
  noiseMap <> [] ->
  exists terrain,
    classifyCell noiseMap terrainVisibility availableTerrains first
                 rowIndex noiseValue colIndex = Normal terrain.
Proof.
  intros Hne. destruct noiseMap as [|row0 rest]; [done|].
  unfold classifyCell.
  destruct (visible terrainVisibility (getTerrainType noiseValue)); [by eexists|].
  destruct (visible terrainVisibility "sand" && negb false);
    [destruct (bool_decide (getTerrainType noiseValue = "land"))|];
    try rewrite checkNearWater_eq; cbn [mbind completion_bind];
    try match goal with |- context [if ?b then _ else _] => destruct b end;
    by eexists.
Qed.

(** The filtered classifier returns a terrain map of the shape of its noise
    map; it does not throw. *)
Lemma filteredTerrainMap_total (noiseMap : list (list num))
    (terrainVisibility : list (string * bool)) :
  exists terrainMap,
    filteredTerrainMap noiseMap terrainVisibility = Normal terrainMap
    /\ length terrainMap = length noiseMap
    /\ forall k trow, terrainMap !! k = Some trow ->
         exists nrow, noiseMap !! k = Some nrow /\ length trow = length nrow.
Proof.
  unfold filteredTerrainMap.
  destruct (List.filter _ _) as [|first [|second others]].
  - eexists; split; [reflexivity|]. split; [by rewrite length_fmap|].
    intros k trow. rewrite list_lookup_fmap.
    destruct (noiseMap !! k) as [nrow|]; [|done].
    intros [= <-]. exists nrow. by rewrite length_fmap.
  - eexists; split; [reflexivity|]. split; [by rewrite length_fmap|].
    intros k trow. rewrite list_lookup_fmap.
    destruct (noiseMap !! k) as [nrow|]; [|done].
    intros [= <-]. exists nrow. by rewrite length_fmap.
  - match goal with |- context [mapM_index ?f 0%nat noiseMap] =>
      destruct (mapM_index_total f noiseMap 0) as [terrainMap Hmap]
    end.
    { intros k nrow Hk. apply mapM_index_total. intros j v _.
      apply classifyCell_total. intros ->. done. }
    exists terrainMap. split; [exact Hmap|].
    apply mapM_index_inv in Hmap as [Hlen Hrows]. split; [exact Hlen|].
    intros k trow Hk. destruct (Hrows k trow Hk) as (nrow & Hn & Hrow).
    exists nrow. split; [done|]. by apply mapM_index_inv in Hrow as [? _].
Qed.
End ClassifierRuns.

(** ** C8: generation and its dimensions *)

(** C8, as stated, fails: with width 0 and height 0 the call returns the
    empty field and the empty terrain map; nothing is thrown or signalled. *)
Lemma generateTerrainData_accepts_zero_dimensions :
  @generateTerrainData binary64 (fun _ _ => 0%float)
     (@MapConfig.Build_t binary64 0 0 3%float) None
  = Normal (@TerrainData.Build_t binary64 [] [])
  /\ ~ @generation_fails_on_bad_dimensions binary64.
Proof.
  split; [reflexivity|].
  intros H.
  destruct (H (fun _ _ => 0%float) (@MapConfig.Build_t binary64 0 0 3%float) None)
    as [[Hfail _] _].
  destruct Hfail as [msg Hmsg]; [cbn; lia|]. discriminate.
Qed.

(** C8, amended.  For every number arithmetic, noise function,
    configuration and visibility setting, [generateTerrainData] returns
    normally; the noise map and the terrain map it returns have [height]
    rows of [width] cells, a non-positive dimension counting as 0.  No
    dimension makes the call fail, and none is reported as an error. *)
Theorem generateTerrainData_total {N : Number} (noise2D : num -> num -> num)
    (config : MapConfig.t) (terrainVisibility : option (list (string * bool))) :
  exists data,
    generateTerrainData noise2D config terrainVisibility = Normal data
    /\ has_dimensions (MapConfig.width config) (MapConfig.height config)
         (TerrainData.noiseMap data)
    /\ has_dimensions (MapConfig.width config) (MapConfig.height config)
         (TerrainData.terrainMap data).
Proof.
  unfold generateTerrainData.
  pose proof (generateMap_dimensions noise2D (MapConfig.width config)
                (MapConfig.height config)) as [Hh Hw].
  set (noiseMap := generateMap noise2D _ _) in *.
  destruct terrainVisibility as [terrainVisibility|].
  - destruct (filteredTerrainMap_total noiseMap terrainVisibility)
      as (terrainMap & -> & Hlen & Hrows).
    cbn [mbind completion_bind]. eexists; split; [reflexivity|]. cbn.
    split; [by split|]. split; [congruence|].
    apply Forall_lookup. intros k trow Hk.
    destruct (Hrows k trow Hk) as (nrow & Hn & ->).
    by eapply (proj1 (Forall_lookup _ _) Hw).
  - eexists; split; [reflexivity|]. cbn. split; [by split|].
    split; [by rewrite length_fmap|].
    apply Forall_fmap. eapply Forall_impl; [exact Hw|].
    intros row Hrow. cbn. by rewrite length_fmap.
Qed.

(** ** C4: classification under a visibility filter *)

Lemma visible_enabled (terrainVisibility : list (string * bool)) (terrain : string) :
  visible terrainVisibility terrain = true ->
  terrain ∈ enabled_terrains terrainVisibility.
Proof.
  intros Hvis. unfold enabled_terrains. apply list_elem_of_In, filter_In.
  split; [|exact Hvis]. apply list_elem_of_In.
  unfold visible in Hvis. unfold Object_keys.
  induction terrainVisibility as [|[k v] o IH]; [done|].
  cbn in *. destruct (decide (k = terrain)) as [->|Hne]; [left|right; auto].
Qed.

Lemma closest_step_foldl {N : Number} (noiseValue : num) (available : list string)
    (st : string * num) :
  (foldl (closest_step noiseValue) st available).1 = st.1
  \/ (foldl (closest_step noiseValue) st available).1 ∈ available.
Proof.
  revert st. induction available as [|terrain available IH]; intros st; [by left|].
  cbn [foldl].
  destruct (IH (closest_step noiseValue st terrain)) as [Heq|Hin].
  - rewrite Heq. unfold closest_step. destruct st as [closest minDistance].
    destruct (List.find _ _); [|by left].
    destruct (ltb _ _); [right; left|by left].
  - right. by right.
Qed.

Lemma classifyCell_enabled {N : Number} (noiseMap : list (list num))
    (terrainVisibility : list (string * bool)) (first : string)
    (rowIndex : nat) (noiseValue : num) (colIndex : nat) (terrain : string) :
  first ∈ enabled_terrains terrainVisibility ->
  classifyCell noiseMap terrainVisibility (enabled_terrains terrainVisibility) first
               rowIndex noiseValue colIndex = Normal terrain ->
  terrain ∈ enabled_terrains terrainVisibility.
Proof.
  intros Hfirst. unfold classifyCell.
  destruct (visible terrainVisibility (getTerrainType noiseValue)) eqn:Hnat.
  { intros [= <-]. by apply visible_enabled. }
  destruct (visible terrainVisibility "sand") eqn:Hsand; cbn [andb negb].
  - destruct (match bool_decide (getTerrainType noiseValue = "land") with
              | true => _ | false => _ end) as [[|]| |];
      cbn [mbind completion_bind]; try done.
    + intros [= <-]. by apply visible_enabled.
    + intros [= <-].
      destruct (closest_step_foldl noiseValue (enabled_terrains terrainVisibility)
                  (first, Infinity)) as [-> | H]; done.
  - cbn [mbind completion_bind]. intros [= <-].
    destruct (closest_step_foldl noiseValue (enabled_terrains terrainVisibility)
                (first, Infinity)) as [-> | H]; done.
Qed.

Lemma mapM_index_Forall2 {A B : Type} (f : A -> nat -> completion B) (R : A -> B -> Prop)
    (l : list A) (i : nat) (bs : list B) :
  (forall a k b, a ∈ l -> f a k = Normal b -> R a b) ->
  mapM_index f i l = Normal bs -> Forall2 R l bs.
Proof.
  revert i bs. induction l as [|a l IH]; intros i bs HR.
  - cbn. intros [= <-]. constructor.
  - cbn [mapM_index].
    destruct (f a i) as [b0| |] eqn:Hb0; cbn [mbind completion_bind]; try done.
    destruct (mapM_index f (S i) l) as [bs'| |] eqn:Hbs'; cbn [mbind completion_bind];
      try done.
    intros [= <-]. constructor.
    + eapply HR; [left|exact Hb0].
    + eapply IH; [|exact Hbs']. intros a' k b Ha'. apply HR. by right.
Qed.

Lemma Forall2_fmap_intro {A B : Type} (R : A -> B -> Prop) (g : A -> B) (l : list A) :
  (forall a, a ∈ l -> R a (g a)) -> Forall2 R l (g <$> l).
Proof.
  induction l as [|a l IH]; intros HR; cbn; constructor.
  - apply HR. left.
  - apply IH. intros a' Ha'. apply HR. by right.
Qed.

Lemma Forall2_row_lengths {A B : Type} (R : A -> B -> Prop) (n : nat)
    (rows : list (list A)) (rows' : list (list B)) :
  Forall2 (Forall2 R) rows rows' ->
  Forall (fun row => length row = n) rows -> Forall (fun row => length row = n) rows'.
Proof.
  induction 1 as [|row row' rows rows' Hrow _ IH]; intros Hlen; [constructor|].
  apply Forall_cons in Hlen as [Hn Hlen]. constructor; [|by apply IH].
  by rewrite <- (Forall2_length _ _ _ Hrow).
Qed.

Lemma classifyCell_natural {N : Number} (noiseMap : list (list num))
    (terrainVisibility : list (string * bool)) (availableTerrains : list string)
    (first : string) (rowIndex : nat) (noiseValue : num) (colIndex : nat)
    (terrain : string) :
  visible terrainVisibility (getTerrainType noiseValue) = true ->
  classifyCell noiseMap terrainVisibility availableTerrains first
               rowIndex noiseValue colIndex = Normal terrain ->
  terrain = getTerrainType noiseValue.
Proof. unfold classifyCell. intros ->. by intros [= <-]. Qed.

(** C4.  For every number arithmetic, every noise map (with values inside
    or outside [0,1]) and every visibility mapping, the filtered classifier
    returns a terrain map that classifies the noise map: it has as many rows
    as the noise map and as many cells in each row, and the cell at the
    place of every noise value is ["land"] when no category is enabled, is
    the enabled category when exactly one is, and otherwise is a member of
    the enabled categories, the natural category of the value when that one
    is enabled.  [generateTerrainData] returns the generated noise map with
    such a terrain map, of the dimensions of the configuration, for every
    noise function and configuration. *)
Theorem classifier_respects_visibility {N : Number}
    (terrainVisibility : list (string * bool)) :
  (forall noiseMap : list (list num),
     exists terrainMap,
       filteredTerrainMap noiseMap terrainVisibility = Normal terrainMap
       /\ classified_field terrainVisibility noiseMap terrainMap
       /\ Forall (Forall (respects_visibility terrainVisibility)) terrainMap)
  /\ (forall (noise2D : num -> num -> num) (config : MapConfig.t),
        exists data,
          generateTerrainData noise2D config (Some terrainVisibility) = Normal data
          /\ TerrainData.noiseMap data
             = generateMap noise2D (MapConfig.width config) (MapConfig.height config)
          /\ has_dimensions (MapConfig.width config) (MapConfig.height config)
               (TerrainData.terrainMap data)
          /\ classified_field terrainVisibility
               (TerrainData.noiseMap data) (TerrainData.terrainMap data)
          /\ Forall (Forall (respects_visibility terrainVisibility))
               (TerrainData.terrainMap data)).
Proof.
  assert (Hmap : forall noiseMap : list (list num),
     exists terrainMap,
       filteredTerrainMap noiseMap terrainVisibility = Normal terrainMap
       /\ classified_field terrainVisibility noiseMap terrainMap).
  { intros noiseMap.
    destruct (filteredTerrainMap_total noiseMap terrainVisibility)
      as (terrainMap & Hrun & _).
    exists terrainMap. split; [exact Hrun|].
    revert Hrun. unfold filteredTerrainMap, classified_field, classifies, respects_visibility.
    fold (enabled_terrains terrainVisibility).
    destruct (enabled_terrains terrainVisibility) as [|first [|second others]] eqn:Hen.
    - intros [= <-]. apply Forall2_fmap_intro. intros row _.
      apply Forall2_fmap_intro. intros v _. split; [done|]. cbn. lia.
    - intros [= <-]. apply Forall2_fmap_intro. intros row _.
      apply Forall2_fmap_intro. intros v _. split; [done|]. cbn. lia.
    - apply mapM_index_Forall2. intros row rowIndex trow _.
      apply mapM_index_Forall2. intros v colIndex terrain _ Hcell.
      rewrite <- Hen in Hcell |- *. split.
      + eapply classifyCell_enabled; [|exact Hcell]. rewrite Hen. left.
      + intros _ Hnatural. by eapply classifyCell_natural. }
  assert (Hrespects : forall (noiseMap : list (list num)) terrainMap,
     classified_field terrainVisibility noiseMap terrainMap ->
     Forall (Forall (respects_visibility terrainVisibility)) terrainMap).
  { intros noiseMap terrainMap Hfield. eapply Forall2_Forall_r; [exact Hfield|].
    apply Forall_forall. intros nrow _ trow Hrow.
    eapply Forall2_Forall_r; [exact Hrow|].
    apply Forall_forall. by intros v _ terrain [Hok _]. }
  split.
  - intros noiseMap. destruct (Hmap noiseMap) as (terrainMap & Hrun & Hfield).
    exists terrainMap. split; [exact Hrun|]. split; [exact Hfield|].
    by eapply Hrespects.
  - intros noise2D config. unfold generateTerrainData.
    set (noiseMap := generateMap noise2D (MapConfig.width config) (MapConfig.height config)).
    destruct (Hmap noiseMap) as (terrainMap & Hrun & Hfield).
    rewrite Hrun. cbn [mbind completion_bind].
    eexists. split; [reflexivity|]. cbn [TerrainData.noiseMap TerrainData.terrainMap].
    split; [reflexivity|]. split; [|split; [exact Hfield|by eapply Hrespects]].
    destruct (generateMap_dimensions noise2D (MapConfig.width config)
                (MapConfig.height config)) as [Hrows Hcols].
    fold noiseMap in Hrows, Hcols. unfold classified_field in Hfield. split.
    + by rewrite <- (Forall2_length _ _ _ Hfield).
    + by eapply Forall2_row_lengths.
Qed.

(** ** C5: the beach exception *)

(** C5, as stated, fails.  On the 7 by 7 field with elevation 0.2 at (5,5)
    and 0.6 elsewhere, classified with water disabled and sand and land
    enabled, the four cells next to (5,5) are ["land"], not ["sand"]: a cell
    whose natural category is enabled keeps it. *)
Lemma beach_exception_not_applied_when_land_enabled :
  exists terrainMap,
    @filteredTerrainMap binary64
       (@field_with_pond binary64 (@ofQ binary64 0.2) (@ofQ binary64 0.6))
       (visibility_of false true true true true true) = Normal terrainMap
    /\ cell terrainMap 5 5 = Some "sand"
    /\ cell terrainMap 5 6 = Some "land" /\ cell terrainMap 5 4 = Some "land"
    /\ cell terrainMap 6 5 = Some "land" /\ cell terrainMap 4 5 = Some "land".
Proof. eexists. split; [vm_compute; reflexivity|]. repeat split. Qed.

Lemma exact_unit_distance (r c r' c' : nat) :
  orthogonal_neighbours r c r' c' ->
  @leb exact
    (Math_sqrt (add (pow2 (sub (ofZ (Z.of_nat r)) (ofZ (Z.of_nat r'))))
                    (pow2 (sub (ofZ (Z.of_nat c)) (ofZ (Z.of_nat c'))))))
    (ofZ 1) = true.
Proof.
  intros Hadj. unfold pow2. exact_arith.
  assert (Hone : ((IZR (Z.of_nat r) + - IZR (Z.of_nat r'))
                  * (IZR (Z.of_nat r) + - IZR (Z.of_nat r'))
                  + (IZR (Z.of_nat c) + - IZR (Z.of_nat c'))
                    * (IZR (Z.of_nat c) + - IZR (Z.of_nat c')) = 1)%R).
  { destruct Hadj as [[-> [-> | ->]] | [-> [-> | ->]]];
      rewrite ?Nat2Z.inj_succ, ?succ_IZR; ring. }
  rewrite Hone.
  replace (Exact.Rltb 1 0) with false by (symmetry; apply Rltb_false; lra).
  rewrite sqrt_1. exact_arith.
  replace (Exact.Reqb 1 1) with true by (symmetry; by apply Reqb_true).
  apply orb_true_r.
Qed.

(** C5, amended.  In exact arithmetic, for every noise map and every
    visibility mapping with at least two enabled categories in which sand
    is enabled and land is not: a cell whose natural category is land and
    which has, next to it in its row or column and within the width of the
    first row, a cell whose elevation is below the water boundary 0.40, is
    classified as ["sand"]. *)
Theorem beach_exception (noiseMap : list (list (@num exact)))
    (terrainVisibility : list (string * bool))
    (r c r' c' : nat) (v w : @num exact) :
  (2 <= length (enabled_terrains terrainVisibility))%nat ->
  visible terrainVisibility "sand" = true ->
  visible terrainVisibility "land" = false ->
  cell noiseMap r c = Some v ->
  @getTerrainType exact v = "land" ->
  orthogonal_neighbours r' c' r c ->
  cell noiseMap r' c' = Some w ->
  (c' < length (default [] (noiseMap !! 0%nat)))%nat ->
  @ltb exact w (ofQ 0.40) = true ->
  exists terrainMap,
    @filteredTerrainMap exact noiseMap terrainVisibility = Normal terrainMap
    /\ cell terrainMap r c = Some "sand".
Proof.
  intros Hen Hsand Hland Hv Hnat Hadj Hw Hwidth Hwater.
  destruct (filteredTerrainMap_total noiseMap terrainVisibility)
    as (terrainMap & Hrun & Hlen & _).
  exists terrainMap. split; [exact Hrun|].
  unfold cell in Hv, Hw.
  destruct (noiseMap !! r) as [nrow|] eqn:Hr; [cbn in Hv|done].
  destruct (noiseMap !! r') as [nrow'|] eqn:Hr'; [cbn in Hw|done].
  revert Hrun. unfold filteredTerrainMap. fold (enabled_terrains terrainVisibility).
  destruct (enabled_terrains terrainVisibility) as [|first [|second others]] eqn:Henabled;
    [cbn in Hen; lia|cbn in Hen; lia|].
  intros Hrun. apply mapM_index_inv in Hrun as [_ Hrows].
  assert (is_Some (terrainMap !! r)) as [trow Htrow].
  { apply lookup_lt_is_Some. rewrite Hlen. by eapply lookup_lt_Some. }
  destruct (Hrows r trow Htrow) as (nrow0 & Hn0 & Hrow).
  pose proof (eq_trans (eq_sym Hn0) Hr) as [= ->].
  pose proof Hrow as Hrow'. apply mapM_index_inv in Hrow' as [Hlen' Hcells].
  assert (is_Some (trow !! c)) as [terrain Hterrain].
  { apply lookup_lt_is_Some. rewrite Hlen'. by eapply lookup_lt_Some. }
  destruct (Hcells c terrain Hterrain) as (v0 & Hv0 & Hcell).
  pose proof (eq_trans (eq_sym Hv0) Hv) as [= ->].
  unfold cell. rewrite Htrow. cbn. rewrite Hterrain. f_equal.
  revert Hcell. cbn [Nat.add]. unfold classifyCell.
  rewrite Hnat, Hland, Hsand. cbn [andb negb bool_decide].
  rewrite bool_decide_eq_true_2 by reflexivity.
  destruct noiseMap as [|row0 rest] eqn:Hmap; [done|].
  rewrite checkNearWater_eq. rewrite <- Hmap in *.
  match goal with |- context [existsb ?p ?l] =>
    assert (Hnear : existsb p l = true)
  end.
  { apply existsb_exists. exists (Z.of_nat r'). split.
    - apply list_elem_of_In, elem_of_seqZ.
      pose proof (lookup_lt_Some _ _ _ Hr') as Hlt.
      destruct Hadj as [[-> _] | [_ [-> | ->]]]; lia.
    - apply existsb_exists. exists (Z.of_nat c'). split.
      + apply list_elem_of_In, elem_of_seqZ.
        rewrite Hmap in Hwidth. cbn in Hwidth. cbn [num exact] in *.
        destruct Hadj as [[_ [-> | ->]] | [-> _]]; lia.
      + unfold water_within.
        assert ((Z.of_nat r' =? Z.of_nat r) && (Z.of_nat c' =? Z.of_nat c) = false) as ->.
        { apply andb_false_iff. rewrite !Z.eqb_neq.
          destruct Hadj as [[_ [-> | ->]] | [_ [-> | ->]]]; lia. }
        rewrite (exact_unit_distance r' c' r c Hadj). cbn [andb].
        rewrite at_index_of_nat, Hr'. cbn [mbind option_bind].
        rewrite at_index_of_nat. cbn [num exact] in *. rewrite Hw. exact Hwater. }
  rewrite Hnear. cbn [mbind completion_bind]. by intros [= <-].
Qed.

Lemma beach_exception_witness :
  exists terrainMap,
    @filteredTerrainMap exact
       (@field_with_pond exact (@ofQ exact 0.2) (@ofQ exact 0.6))
       (visibility_of false true false true true true) = Normal terrainMap
    /\ cell terrainMap 5 6 = Some "sand".
Proof.
  apply (beach_exception _ _ 5 6 5 5 (@ofQ exact 0.6) (@ofQ exact 0.2)).
  - vm_compute. lia.
  - reflexivity.
  - reflexivity.
  - reflexivity.
  - unfold getTerrainType. unfold_boundaries. rewrite !exact_ofQ. exact_arith.
    real_cases. reflexivity.
  - left. split; [reflexivity|]. right. reflexivity.
  - reflexivity.
  - change (5 < 7)%nat. lia.
  - rewrite !exact_ofQ. exact_arith. apply Rltb_true. lra.
Defined.

(** The same field under IEEE binary64, with sand enabled and land
    disabled: the four cells next to (5,5) are ["sand"]; the cells further
    away, of the same elevation, are ["hills"], the enabled category whose
    range midpoint is nearest to 0.6. *)
Lemma beach_exception_binary64 :
  exists terrainMap,
    @filteredTerrainMap binary64
       (@field_with_pond binary64 (@ofQ binary64 0.2) (@ofQ binary64 0.6))
       (visibility_of false true false true true true) = Normal terrainMap
    /\ cell terrainMap 5 6 = Some "sand" /\ cell terrainMap 5 4 = Some "sand"
    /\ cell terrainMap 6 5 = Some "sand" /\ cell terrainMap 4 5 = Some "sand"
    /\ cell terrainMap 4 4 = Some "hills" /\ cell terrainMap 6 6 = Some "hills"
    /\ cell terrainMap 5 3 = Some "hills".
Proof. eexists. split; [vm_compute; reflexivity|]. repeat split. Qed.

(** ** C3: the range of a generated field *)

(** *** Exact arithmetic on a generated field *)

Ltac reqb_nonzero :=
  repeat match goal with
    | |- context [Exact.Reqb ?a 0] =>
        replace (Exact.Reqb a 0) with false by (symmetry; apply Reqb_false; lra)
    end.

Section ExactField.
Variable noise2D : @num exact -> @num exact -> @num exact.
Hypothesis noise_finite : forall a b, exists r, noise2D a b = Exact.Fin r.



End ExactField.








(** *** Rounding to 53 bits, on integers

    The second pass in binary64 is followed through the specification of
    the primitive floats ([SpecFloat], which [FloatAxioms] relates to the
    primitive operations).  The values of finite numbers are integers in
    units of [2 ^ -1074]; [RN] is rounding to nearest, ties to even, on
    these integers. *)








(** *** The shifts of [SpecFloat] *)







(** *** Rounding in binary64 *)



















(** *** Quotients in binary64 *)







(** *** The second pass in binary64 *)


























(** ** Keys of coordinates *)

Lemma pretty_N_char_comma_free (d : N) : Ascii.eqb (pretty_N_char d) ","%char = false.
Proof. unfold pretty_N_char. by repeat case_match. Qed.

Lemma pretty_N_go_comma_free (n : N) (s : string) :
  comma_free s = true -> comma_free (pretty_N_go n s) = true.
Proof.
  revert s. induction (N.lt_wf_0 n) as [n _ IH]. intros s Hs.
  destruct (decide (n = 0%N)) as [->|Hpos]; [by rewrite pretty_N_go_0|].
  rewrite pretty_N_go_step by lia. apply IH.
  - apply N.div_lt; lia.
  - cbn [comma_free]. by rewrite pretty_N_char_comma_free, Hs.
Qed.

Lemma pretty_Z_comma_free (z : Z) : comma_free (pretty z) = true.
Proof.
  assert (Hpos : forall p : positive, comma_free (pretty p) = true).
  { intros p. unfold pretty, pretty_positive, pretty, pretty_N.
    destruct (decide _); [done|]. by apply pretty_N_go_comma_free. }
  destruct z as [|p|p]; [done|apply Hpos|].
  unfold pretty, pretty_Z. cbn [comma_free String.append]. apply Hpos.
Qed.

Lemma comma_split (a1 a2 b1 b2 : string) :
  comma_free a1 = true -> comma_free a2 = true ->
  a1 +:+ "," +:+ b1 = a2 +:+ "," +:+ b2 -> a1 = a2 /\ b1 = b2.
Proof.
  revert a2. induction a1 as [|c1 a1 IH]; intros [|c2 a2] H1 H2 Heq;
    cbn [String.append comma_free] in *.
  - injection Heq as Hb. by split.
  - injection Heq as Hc _. subst c2. by rewrite Ascii.eqb_refl in H2.
  - injection Heq as Hc _. subst c1. by rewrite Ascii.eqb_refl in H1.
  - injection Heq as -> Heq.
    apply andb_true_iff in H1 as [_ H1], H2 as [_ H2].
    by destruct (IH a2 H1 H2 Heq) as [-> ->].
Qed.

(** The key identifies the coordinate. *)
Lemma coordKey_inj (x1 y1 x2 y2 : Z) :
  coordKey x1 y1 = coordKey x2 y2 -> x1 = x2 /\ y1 = y2.
Proof.
  unfold coordKey. intros Heq.
  apply comma_split in Heq as [Hx Hy]; [|apply pretty_Z_comma_free..].
  split; by apply (inj pretty).
Qed.

(** ** The indexed binary heap *)

Section HeapInvariant.
Context {N : Number}.
Implicit Types (this : BinaryHeap.t) (node : Node.t).

Lemma heap_inv_empty : heap_inv BinaryHeap.empty.
Proof.
  intros key i. cbn. rewrite lookup_empty. split; [done|].
  intros (node & Hnode & _). done.
Qed.

Lemma heap_inv_unique this (i j : nat) (a b : Node.t) :
  heap_inv this ->
  BinaryHeap.heap this !! i = Some a -> BinaryHeap.heap this !! j = Some b ->
  BinaryHeap.getKey a = BinaryHeap.getKey b -> i = j.
Proof.
  intros Hinv Ha Hb Hkey.
  assert (BinaryHeap.nodeMap this !! BinaryHeap.getKey a = Some i) as Hi.
  { apply Hinv. by exists a. }
  assert (BinaryHeap.nodeMap this !! BinaryHeap.getKey a = Some j) as Hj.
  { apply Hinv. by exists b. }
  congruence.
Qed.

Lemma same_nodes_refl this : same_nodes this this.
Proof. by split. Qed.

Lemma same_nodes_trans this1 this2 this3 :
  same_nodes this1 this2 -> same_nodes this2 this3 -> same_nodes this1 this3.
Proof.
  intros [Hl1 He1] [Hl2 He2]. split; [congruence|].
  intros node. by rewrite He2, He1.
Qed.

Lemma elem_Normal this (i : nat) node :
  BinaryHeap.heap this !! i = Some node -> BinaryHeap.elem this i = Normal node.
Proof. unfold BinaryHeap.elem. by intros ->. Qed.

Lemma swap_ok this (i j : nat) :
  heap_inv this ->
  (i < length (BinaryHeap.heap this))%nat -> (j < length (BinaryHeap.heap this))%nat ->
  exists this', BinaryHeap.swap i j this = Normal this'
                /\ heap_inv this' /\ same_nodes this this'.
Proof.
  intros Hinv Hi Hj.
  destruct (lookup_lt_is_Some_2 _ _ Hi) as [a Ha].
  destruct (lookup_lt_is_Some_2 _ _ Hj) as [b Hb].
  unfold BinaryHeap.swap, BinaryHeap.elem. rewrite Ha, Hb.
  cbn [mbind completion_bind BinaryHeap.heap BinaryHeap.nodeMap].
  destruct (decide (i = j)) as [<-|Hne].
  - assert (a = b) as <- by congruence.
    assert (Hheap : <[i:=a]> (<[i:=a]> (BinaryHeap.heap this)) = BinaryHeap.heap this).
    { rewrite (list_insert_id (BinaryHeap.heap this) i a Ha).
      exact (list_insert_id _ i a Ha). }
    rewrite Hheap, Ha. cbn [mbind completion_bind].
    assert (Hmap : BinaryHeap.nodeMap this !! BinaryHeap.getKey a = Some i).
    { apply Hinv. by exists a. }
    rewrite !(insert_id _ _ _ Hmap).
    exists this. destruct this; cbn. split; [done|]. split; [done|apply same_nodes_refl].
  - set (heap' := <[j:=a]> (<[i:=b]> (BinaryHeap.heap this))).
    assert (Hi' : heap' !! i = Some b).
    { unfold heap'. rewrite list_lookup_insert_ne by done.
      by rewrite list_lookup_insert_eq. }
    assert (Hj' : heap' !! j = Some a).
    { unfold heap'. rewrite list_lookup_insert_eq; [done|].
      by rewrite length_insert. }
    assert (Hk' : forall k, k <> i -> k <> j -> heap' !! k = BinaryHeap.heap this !! k).
    { intros k Hki Hkj. unfold heap'. by rewrite !list_lookup_insert_ne. }
    rewrite Hi'. cbn [mbind completion_bind]. rewrite Hj'.
    cbn [mbind completion_bind].
    eexists. split; [reflexivity|].
    assert (Hkeys : BinaryHeap.getKey a <> BinaryHeap.getKey b).
    { intros Hkey. apply Hne.
      exact (heap_inv_unique this i j a b Hinv Ha Hb Hkey). }
    split.
    + intros key k. cbn [BinaryHeap.heap BinaryHeap.nodeMap]. split.
      * intros Hk.
        destruct (decide (key = BinaryHeap.getKey a)) as [->|Hka].
        { rewrite lookup_insert_eq in Hk. injection Hk as <-. by exists a. }
        rewrite lookup_insert_ne in Hk by done.
        destruct (decide (key = BinaryHeap.getKey b)) as [->|Hkb].
        { rewrite lookup_insert_eq in Hk. injection Hk as <-. by exists b. }
        rewrite lookup_insert_ne in Hk by done.
        apply Hinv in Hk as (node & Hnode & Hkey). exists node. split; [|done].
        rewrite Hk'; [done| |]; intros ->; congruence.
      * intros (node & Hnode & <-).
        destruct (decide (k = j)) as [->|Hkj].
        { assert (node = a) as -> by congruence. by rewrite lookup_insert_eq. }
        destruct (decide (k = i)) as [->|Hki].
        { assert (node = b) as -> by congruence.
          rewrite lookup_insert_ne by done. by rewrite lookup_insert_eq. }
        rewrite Hk' in Hnode by done.
        rewrite !lookup_insert_ne.
        -- apply Hinv. by exists node.
        -- intros Hkey. apply Hkj. symmetry.
           exact (heap_inv_unique this j k b node Hinv Hb Hnode Hkey).
        -- intros Hkey. apply Hki. symmetry.
           exact (heap_inv_unique this i k a node Hinv Ha Hnode Hkey).
    + split; cbn [BinaryHeap.heap]; [unfold heap'; by rewrite !length_insert|].
      intros node. rewrite !list_elem_of_lookup. split.
      * intros [k Hk].
        destruct (decide (k = j)) as [->|Hkj]; [exists i; congruence|].
        destruct (decide (k = i)) as [->|Hki]; [exists j; congruence|].
        exists k. by rewrite <- Hk'.
      * intros [k Hk].
        destruct (decide (k = j)) as [->|Hkj]; [exists i; congruence|].
        destruct (decide (k = i)) as [->|Hki]; [exists j; congruence|].
        exists k. by rewrite Hk'.
Qed.

Lemma heapifyUp_ok (fuel index : nat) this :
  (index <= fuel)%nat -> (index < length (BinaryHeap.heap this))%nat ->
  heap_inv this ->
  exists this', BinaryHeap.heapifyUp fuel index this = Normal this'
                /\ heap_inv this' /\ same_nodes this this'.
Proof.
  revert index this. induction fuel as [|fuel IH]; intros index this Hfuel Hindex Hinv.
  - assert (index = 0%nat) as -> by lia. cbn.
    exists this. split; [done|]. split; [done|apply same_nodes_refl].
  - cbn [BinaryHeap.heapifyUp].
    destruct (index =? 0)%nat eqn:Hzero.
    { exists this. split; [done|]. split; [done|apply same_nodes_refl]. }
    apply Nat.eqb_neq in Hzero.
    assert (Hup : ((index - 1) / 2 < index)%nat).
    { assert ((index - 1) / 2 <= index - 1)%nat
        by (apply Nat.Div0.div_le_upper_bound; lia). lia. }
    destruct (lookup_lt_is_Some_2 (BinaryHeap.heap this) index) as [child Hchild];
      [done|].
    destruct (lookup_lt_is_Some_2 (BinaryHeap.heap this) ((index - 1) / 2)) as [up Hu];
      [lia|].
    rewrite (elem_Normal _ _ _ Hchild), (elem_Normal _ _ _ Hu).
    cbn [mbind completion_bind].
    destruct (geb (Node.f child) (Node.f up)).
    { exists this. split; [done|]. split; [done|apply same_nodes_refl]. }
    destruct (swap_ok this index ((index - 1) / 2) Hinv) as (this1 & -> & Hinv1 & Hsame1);
      [done|lia|].
    cbn [mbind completion_bind].
    destruct (IH ((index - 1) / 2)%nat this1) as (this2 & Hrun & Hinv2 & Hsame2);
      [lia|destruct Hsame1 as [-> _]; lia|done|].
    exists this2. split; [done|]. split; [done|].
    by eapply same_nodes_trans.
Qed.

Lemma pick_smaller_ok this (candidate current : nat) :
  (current < length (BinaryHeap.heap this))%nat ->
  exists smallest,
    (if (candidate <? length (BinaryHeap.heap this))%nat then
       l ← BinaryHeap.elem this candidate;
       s ← BinaryHeap.elem this current;
       Normal (if ltb (Node.f l) (Node.f s) then candidate else current)
     else Normal current) = Normal smallest
    /\ (smallest = current
        \/ (smallest = candidate /\ (candidate < length (BinaryHeap.heap this))%nat)).
Proof.
  intros Hcur.
  destruct (candidate <? length (BinaryHeap.heap this))%nat eqn:Hlt.
  - apply Nat.ltb_lt in Hlt.
    destruct (lookup_lt_is_Some_2 (BinaryHeap.heap this) candidate) as [l Hl]; [done|].
    destruct (lookup_lt_is_Some_2 (BinaryHeap.heap this) current) as [s Hs]; [done|].
    rewrite (elem_Normal _ _ _ Hl), (elem_Normal _ _ _ Hs).
    cbn [mbind completion_bind].
    destruct (ltb (Node.f l) (Node.f s)); eexists; (split; [reflexivity|]); auto.
  - eexists. split; [reflexivity|]. by left.
Qed.

Lemma heapifyDown_ok (fuel index : nat) this :
  (length (BinaryHeap.heap this) - index <= fuel)%nat ->
  (index < length (BinaryHeap.heap this))%nat ->
  heap_inv this ->
  exists this', BinaryHeap.heapifyDown fuel index this = Normal this'
                /\ heap_inv this' /\ same_nodes this this'.
Proof.
  revert index this. induction fuel as [|fuel IH]; intros index this Hfuel Hindex Hinv;
    [lia|].
  cbn [BinaryHeap.heapifyDown].
  destruct (pick_smaller_ok this (2 * index + 1) index Hindex) as (s1 & -> & Hs1).
  cbn [mbind completion_bind].
  assert (Hs1' : (s1 < length (BinaryHeap.heap this))%nat /\ (index <= s1)%nat).
  { destruct Hs1 as [-> | [-> ?]]; lia. }
  destruct (pick_smaller_ok this (2 * index + 2) s1 (proj1 Hs1')) as (s2 & -> & Hs2).
  cbn [mbind completion_bind].
  assert (Hs2' : (s2 < length (BinaryHeap.heap this))%nat /\ (index <= s2)%nat).
  { destruct Hs2 as [-> | [-> ?]]; lia. }
  destruct (s2 =? index)%nat eqn:Hsame.
  { exists this. split; [done|]. split; [done|apply same_nodes_refl]. }
  apply Nat.eqb_neq in Hsame.
  destruct (swap_ok this index s2 Hinv) as (this1 & -> & Hinv1 & Hsame1); [done|lia|].
  cbn [mbind completion_bind].
  destruct (IH s2 this1) as (this2 & Hrun & Hinv2 & Hsame2);
    [destruct Hsame1 as [-> _]; lia|destruct Hsame1 as [-> _]; lia|done|].
  exists this2. split; [done|]. split; [done|].
  by eapply same_nodes_trans.
Qed.

Lemma heap_inv_replace this (index : nat) (old node : Node.t) :
  heap_inv this ->
  BinaryHeap.heap this !! index = Some old ->
  BinaryHeap.getKey old = BinaryHeap.getKey node ->
  heap_inv {| BinaryHeap.heap := <[index:=node]> (BinaryHeap.heap this);
              BinaryHeap.nodeMap := BinaryHeap.nodeMap this |}.
Proof.
  intros Hinv Hold Hkey key i. cbn [BinaryHeap.heap BinaryHeap.nodeMap].
  pose proof (lookup_lt_Some _ _ _ Hold) as Hlt.
  destruct (decide (i = index)) as [->|Hne].
  - rewrite list_lookup_insert_eq by done. rewrite (Hinv key index). split.
    + intros (n & Hn & <-). exists node. split; [done|]. congruence.
    + intros (n & [= <-] & <-). exists old. split; [done|]. congruence.
  - rewrite list_lookup_insert_ne by done. apply Hinv.
Qed.

Lemma heap_inv_append this (node : Node.t) :
  heap_inv this ->
  BinaryHeap.nodeMap this !! BinaryHeap.getKey node = None ->
  heap_inv {| BinaryHeap.heap := BinaryHeap.heap this ++ [node];
              BinaryHeap.nodeMap :=
                <[BinaryHeap.getKey node := length (BinaryHeap.heap this)]>
                  (BinaryHeap.nodeMap this) |}.
Proof.
  intros Hinv Hnone key i. cbn [BinaryHeap.heap BinaryHeap.nodeMap]. split.
  - intros Hk. destruct (decide (key = BinaryHeap.getKey node)) as [->|Hne].
    + rewrite lookup_insert_eq in Hk. injection Hk as <-.
      exists node. split; [|done]. by apply list_lookup_middle.
    + rewrite lookup_insert_ne in Hk by done.
      apply Hinv in Hk as (n & Hn & Hkey). exists n. split; [|done].
      by apply lookup_app_l_Some.
  - intros (n & Hn & <-).
    apply lookup_app_Some in Hn as [Hn | [Hlen Hn]].
    + assert (Hmap : BinaryHeap.nodeMap this !! BinaryHeap.getKey n = Some i).
      { apply Hinv. by exists n. }
      rewrite lookup_insert_ne; [done|]. intros Heq. congruence.
    + apply list_lookup_singleton_Some in Hn as [Hi <-].
      assert (i = length (BinaryHeap.heap this)) as -> by lia.
      by rewrite lookup_insert_eq.
Qed.

Lemma push_ok (node : Node.t) this :
  heap_inv this ->
  exists this',
    BinaryHeap.push node this = Normal this'
    /\ heap_inv this'
    /\ node ∈ BinaryHeap.heap this'
    /\ (forall n, n ∈ BinaryHeap.heap this' -> n = node \/ n ∈ BinaryHeap.heap this)
    /\ length (BinaryHeap.heap this')
       = match BinaryHeap.nodeMap this !! BinaryHeap.getKey node with
         | Some _ => length (BinaryHeap.heap this)
         | None => S (length (BinaryHeap.heap this))
         end.
Proof.
  intros Hinv. unfold BinaryHeap.push.
  destruct (BinaryHeap.nodeMap this !! BinaryHeap.getKey node) as [index|] eqn:Hmap.
  - apply Hinv in Hmap as (old & Hold & Hkey).
    pose proof (lookup_lt_Some _ _ _ Hold) as Hlt.
    rewrite (elem_Normal _ _ _ Hold). cbn [mbind completion_bind].
    set (this0 := {| BinaryHeap.heap := <[index:=node]> (BinaryHeap.heap this);
                     BinaryHeap.nodeMap := BinaryHeap.nodeMap this |}).
    assert (Hinv0 : heap_inv this0) by by eapply heap_inv_replace.
    assert (Hlen0 : length (BinaryHeap.heap this0) = length (BinaryHeap.heap this))
      by apply length_insert.
    assert (Hin0 : node ∈ BinaryHeap.heap this0).
    { apply list_elem_of_lookup. exists index. cbn.
      by rewrite list_lookup_insert_eq. }
    assert (Hsub0 : forall n, n ∈ BinaryHeap.heap this0 ->
                              n = node \/ n ∈ BinaryHeap.heap this).
    { intros n [i Hi]%list_elem_of_lookup. cbn in Hi.
      destruct (decide (i = index)) as [->|Hne].
      - rewrite list_lookup_insert_eq in Hi by done. left. congruence.
      - rewrite list_lookup_insert_ne in Hi by done. right.
        apply list_elem_of_lookup. by exists i. }
    assert (Hdone : forall this',
      heap_inv this' -> same_nodes this0 this' ->
      heap_inv this' /\ node ∈ BinaryHeap.heap this'
      /\ (forall n, n ∈ BinaryHeap.heap this' -> n = node \/ n ∈ BinaryHeap.heap this)
      /\ length (BinaryHeap.heap this') = length (BinaryHeap.heap this)).
    { intros this' Hinv' [Hlen' Hsame']. split; [done|]. split; [by apply Hsame'|].
      split; [|congruence]. intros n Hn. apply Hsub0. by apply Hsame'. }
    destruct (ltb (Node.f node) (Node.f old)).
    { destruct (heapifyUp_ok index index this0) as (this' & -> & Hinv' & Hsame');
        [lia|lia|done|]. exists this'. split; [done|]. by apply Hdone. }
    destruct (gtb (Node.f node) (Node.f old)).
    { destruct (heapifyDown_ok (length (BinaryHeap.heap this0)) index this0)
        as (this' & -> & Hinv' & Hsame'); [lia|lia|done|].
      exists this'. split; [done|]. by apply Hdone. }
    exists this0. split; [done|]. apply Hdone; [done|apply same_nodes_refl].
  - rewrite length_app. cbn [length].
    replace (length (BinaryHeap.heap this) + 1 - 1)%nat
      with (length (BinaryHeap.heap this)) by lia.
    set (this0 := {| BinaryHeap.heap := BinaryHeap.heap this ++ [node];
                     BinaryHeap.nodeMap := _ |}).
    assert (Hinv0 : heap_inv this0) by by apply heap_inv_append.
    destruct (heapifyUp_ok (length (BinaryHeap.heap this))
                (length (BinaryHeap.heap this)) this0)
      as (this' & -> & Hinv' & [Hlen' Hsame']); [lia| |done|].
    { cbn. rewrite length_app. cbn. lia. }
    exists this'. split; [done|]. split; [done|]. split; [|split].
    + apply Hsame'. cbn. apply elem_of_app. right. left.
    + intros n Hn. apply Hsame' in Hn. cbn in Hn.
      apply elem_of_app in Hn as [Hn | Hn]; [by right|left].
      by apply list_elem_of_singleton in Hn.
    + rewrite Hlen'. cbn. rewrite length_app. cbn. lia.
Qed.

(** The heap after the root has been replaced by the last node. *)
Lemma heap_inv_move_last this (root moved : Node.t) (mid : list Node.t) :
  heap_inv this ->
  BinaryHeap.heap this = root :: mid ++ [moved] ->
  heap_inv {| BinaryHeap.heap := moved :: mid;
              BinaryHeap.nodeMap :=
                <[BinaryHeap.getKey moved := 0%nat]>
                  (delete (BinaryHeap.getKey root) (BinaryHeap.nodeMap this)) |}.
Proof.
  intros Hinv Hheap.
  assert (Hroot : BinaryHeap.heap this !! 0%nat = Some root) by by rewrite Hheap.
  assert (Hmoved : BinaryHeap.heap this !! S (length mid) = Some moved).
  { rewrite Hheap. cbn. by apply list_lookup_middle. }
  assert (Hmid : forall i n, mid !! i = Some n -> BinaryHeap.heap this !! S i = Some n).
  { intros i n Hn. rewrite Hheap. cbn. by apply lookup_app_l_Some. }
  assert (Hkeys : BinaryHeap.getKey moved <> BinaryHeap.getKey root).
  { intros Hkey.
    pose proof (heap_inv_unique this _ _ _ _ Hinv Hmoved Hroot Hkey). done. }
  intros key i. cbn [BinaryHeap.heap BinaryHeap.nodeMap]. split.
  - intros Hk. destruct (decide (key = BinaryHeap.getKey moved)) as [->|Hne].
    { rewrite lookup_insert_eq in Hk. injection Hk as <-. by exists moved. }
    rewrite lookup_insert_ne in Hk by done.
    apply lookup_delete_Some in Hk as [Hnr Hk].
    apply Hinv in Hk as (n & Hn & Hkey).
    destruct i as [|i].
    { exfalso. apply Hnr. congruence. }
    exists n. split; [|done]. cbn.
    rewrite Hheap in Hn. cbn in Hn.
    apply lookup_app_Some in Hn as [Hn | [Hlen Hn]]; [done|].
    apply list_lookup_singleton_Some in Hn as [Hi <-]. done.
  - intros (n & Hn & <-). destruct i as [|i].
    { cbn in Hn. injection Hn as <-. by rewrite lookup_insert_eq. }
    cbn in Hn. pose proof (Hmid i n Hn) as Hn'.
    rewrite lookup_insert_ne.
    + apply lookup_delete_Some. split.
      * intros Hkey.
        pose proof (heap_inv_unique this _ _ _ _ Hinv Hroot Hn' Hkey). done.
      * apply Hinv. by exists n.
    + intros Hkey.
      pose proof (heap_inv_unique this _ _ _ _ Hinv Hmoved Hn' Hkey) as Heq.
      apply lookup_lt_Some in Hn. lia.
Qed.

Lemma pop_ok this :
  heap_inv this ->
  exists top this',
    BinaryHeap.pop this = Normal (top, this')
    /\ heap_inv this'
    /\ top = BinaryHeap.heap this !! 0%nat
    /\ length (BinaryHeap.heap this') = (length (BinaryHeap.heap this) - 1)%nat
    /\ (forall n, n ∈ BinaryHeap.heap this' -> n ∈ BinaryHeap.heap this).
Proof.
  intros Hinv. unfold BinaryHeap.pop.
  destruct (BinaryHeap.heap this) as [|root rest] eqn:Hheap.
  - exists None, this. rewrite Hheap. split; [done|]. split; [done|].
    split; [done|]. split; [done|]. by intros n Hn.
  - destruct rest as [|second rest].
    + exists (Some root), BinaryHeap.empty. split; [done|].
      split; [apply heap_inv_empty|]. split; [done|]. split; [done|].
      intros n Hn. by apply elem_of_nil in Hn.
    + destruct (exists_last (l := second :: rest)) as (mid & moved & Hrest); [done|].
      rewrite Hrest in *. rewrite last_last, removelast_last.
      set (this0 := {| BinaryHeap.heap := moved :: mid; BinaryHeap.nodeMap := _ |}).
      assert (Hinv0 : heap_inv this0) by by eapply heap_inv_move_last.
      destruct (heapifyDown_ok (length (moved :: mid)) 0 this0)
        as (this' & -> & Hinv' & [Hlen' Hsame']); [cbn; lia|cbn; lia|done|].
      cbn [mbind completion_bind].
      exists (Some root), this'. split; [done|]. split; [done|]. split; [done|].
      split.
      * rewrite Hlen'. cbn. rewrite length_app. cbn. lia.
      * intros n Hn. apply Hsame' in Hn. cbn in Hn.
        apply elem_of_cons in Hn as [-> | Hn].
        -- right. apply elem_of_app. right. left.
        -- right. apply elem_of_app. by left.
Qed.

(** Every heap that [push] and [pop] make of the empty heap satisfies the
    invariant. *)
Lemma heap_reachable_inv this : heap_reachable this -> heap_inv this.
Proof.
  induction 1 as [|node this this' _ IH Hpush|top this this' _ IH Hpop].
  - apply heap_inv_empty.
  - destruct (push_ok node this IH) as (this1 & Hrun & Hinv1 & _).
    rewrite Hrun in Hpush. by injection Hpush as <-.
  - destruct (pop_ok this IH) as (top1 & this1 & Hrun & Hinv1 & _).
    rewrite Hrun in Hpop. by injection Hpop as <- <-.
Qed.

Lemma getKey_coordinates (a b : Node.t) :
  Node.x a = Node.x b -> Node.y a = Node.y b ->
  BinaryHeap.getKey a = BinaryHeap.getKey b.
Proof. unfold BinaryHeap.getKey. by intros -> ->. Qed.

Lemma heap_inv_one_entry this : heap_inv this -> one_entry_per_coordinate this.
Proof.
  intros Hinv i j a b Ha Hb Hx Hy.
  eapply heap_inv_unique; [done..|]. by apply getKey_coordinates.
Qed.
End HeapInvariant.

(** ** The order of numbers *)

Lemma SFcompare_key (x y : spec_float) :
  x <> S754_nan -> y <> S754_nan ->
  SFcompare x y = Some (key_compare (float_key x) (float_key y)).
Proof.
  intros Hx Hy.
  destruct x as [sx|sx| |sx mx ex], y as [sy|sy| |sy my ey]; try done;
    try (by destruct sx, sy).
  destruct sx, sy; try done. unfold key_compare. cbn [SFcompare float_key fst snd].
  rewrite Z.compare_opp, (Z.compare_antisym ex ey).
  change (Z.neg mx ?= Z.neg my) with (CompOpp (mx ?= my)%positive).
  change (Pos.compare_cont Eq mx my) with (mx ?= my)%positive.
  by destruct (ex ?= ey).
Qed.

Lemma key_compare_Lt (k1 k2 : Z * Z * Z) :
  key_compare k1 k2 = Lt
  <-> k1.1.1 < k2.1.1
      \/ (k1.1.1 = k2.1.1 /\ (k1.1.2 < k2.1.2 \/ (k1.1.2 = k2.1.2 /\ k1.2 < k2.2))).
Proof.
  unfold key_compare.
  destruct (Z.compare_spec k1.1.1 k2.1.1), (Z.compare_spec k1.1.2 k2.1.2),
           (Z.compare_spec k1.2 k2.2); split; (done || lia).
Qed.

Lemma key_compare_Gt (k1 k2 : Z * Z * Z) :
  key_compare k1 k2 = Gt
  <-> k2.1.1 < k1.1.1
      \/ (k1.1.1 = k2.1.1 /\ (k2.1.2 < k1.1.2 \/ (k1.1.2 = k2.1.2 /\ k2.2 < k1.2))).
Proof.
  unfold key_compare.
  destruct (Z.compare_spec k1.1.1 k2.1.1), (Z.compare_spec k1.1.2 k2.1.2),
           (Z.compare_spec k1.2 k2.2); split; (done || lia).
Qed.

Lemma binary64_not_NaN (a : float) : @not_NaN binary64 a -> Prim2SF a <> S754_nan.
Proof.
  unfold not_NaN, isNaN. cbn [eqb binary64]. rewrite FloatAxioms.eqb_spec. intros Hnan Heq.
  rewrite Heq in Hnan. done.
Qed.

Lemma binary64_ltb (a b : float) :
  @not_NaN binary64 a -> @not_NaN binary64 b ->
  PrimFloat.ltb a b = true
  <-> key_compare (float_key (Prim2SF a)) (float_key (Prim2SF b)) = Lt.
Proof.
  intros Ha%binary64_not_NaN Hb%binary64_not_NaN.
  rewrite FloatAxioms.ltb_spec. unfold SFltb. rewrite SFcompare_key by done.
  by destruct (key_compare _ _).
Qed.

Lemma binary64_leb (a b : float) :
  @not_NaN binary64 a -> @not_NaN binary64 b ->
  PrimFloat.leb a b = true
  <-> key_compare (float_key (Prim2SF a)) (float_key (Prim2SF b)) <> Gt.
Proof.
  intros Ha%binary64_not_NaN Hb%binary64_not_NaN.
  rewrite FloatAxioms.leb_spec. unfold SFleb. rewrite SFcompare_key by done.
  by destruct (key_compare _ _).
Qed.

(** The numbers of IEEE binary64 other than [NaN] are ordered. *)
Lemma binary64_ordered : @ordered_numbers binary64 not_NaN.
Proof.
  split.
  - intros a b Ha Hb. unfold geb. cbn [leb ltb binary64].
    apply eq_true_iff_eq. rewrite negb_true_iff, <- not_true_iff_false.
    rewrite binary64_leb, binary64_ltb by done.
    rewrite key_compare_Gt, key_compare_Lt. lia.
  - intros a b Ha Hb. cbn [leb ltb binary64].
    rewrite binary64_leb, binary64_ltb by done.
    rewrite key_compare_Gt, key_compare_Lt. lia.
  - intros a Ha. cbn [ltb binary64]. apply not_true_iff_false.
    rewrite binary64_ltb by done. rewrite key_compare_Lt. lia.
  - intros a b c Ha Hb Hc. cbn [leb binary64].
    rewrite !binary64_leb by done. rewrite !key_compare_Gt. lia.
Qed.

(** The numbers of exact arithmetic other than [NaN] are ordered. *)
Lemma exact_ordered : @ordered_numbers exact not_NaN.
Proof.
  split.
  - intros [a| | |] [b| | |] Ha Hb; try done. unfold geb. exact_arith.
    real_cases; reflexivity.
  - intros [a| | |] [b| | |] Ha Hb; try done. exact_arith. by intros ->.
  - intros [a| | |] Ha; try done. exact_arith. apply Rltb_false. lra.
  - intros [a| | |] [b| | |] [c| | |] Ha Hb Hc; try done. exact_arith.
    intros [H1%Rltb_true | H1%Reqb_true]%orb_true_iff
           [H2%Rltb_true | H2%Reqb_true]%orb_true_iff; apply orb_true_iff;
      first [left; apply Rltb_true; lra | right; apply Reqb_true; lra].
Qed.

(** ** The order of the heap *)

Lemma parent_child (index : nat) :
  (0 < index)%nat -> child_of index ((index - 1) / 2).
Proof.
  intros Hpos. unfold child_of.
  pose proof (Nat.div_mod_eq (index - 1) 2) as Hdiv.
  pose proof (Nat.mod_upper_bound (index - 1) 2 ltac:(lia)) as Hmod.
  lia.
Qed.

Section HeapOrder.
Context {N : Number}.
Variable ordered : num -> Prop.
Hypothesis laws : ordered_numbers ordered.
Implicit Types (this : BinaryHeap.t) (node : Node.t) (heap : list Node.t).

Let valued (node : Node.t) : Prop := ordered (Node.f node).

Lemma node_le_refl node : valued node -> node_le node node.
Proof using laws.
  intros Hv. unfold node_le.
  pose proof (order_total ordered laws _ _ Hv Hv) as Htotal.
  rewrite (order_irrefl ordered laws _ Hv) in Htotal. exact Htotal.
Qed.

Lemma node_le_trans a b c :
  valued a -> valued b -> valued c -> node_le a b -> node_le b c -> node_le a c.
Proof using laws. unfold node_le. by apply (order_trans ordered laws). Qed.

Lemma node_lt_le a b :
  valued a -> valued b -> ltb (Node.f a) (Node.f b) = true -> node_le a b.
Proof using laws. unfold node_le. by apply (order_lt_le ordered laws). Qed.

Lemma node_not_lt a b :
  valued a -> valued b -> ltb (Node.f a) (Node.f b) = false -> node_le b a.
Proof using laws.
  intros Ha Hb Hlt. unfold node_le.
  pose proof (order_total ordered laws _ _ Ha Hb) as Htotal.
  rewrite Hlt in Htotal. exact Htotal.
Qed.

Lemma node_not_ge a b :
  valued a -> valued b -> geb (Node.f a) (Node.f b) = false -> node_le a b.
Proof using laws.
  intros Ha Hb Hge. apply node_lt_le; [done..|].
  pose proof (order_total ordered laws _ _ Ha Hb) as Htotal.
  rewrite Hge in Htotal. by destruct (ltb _ _).
Qed.

(** what [swap] leaves in the slots *)
Lemma swap_heap this this' (i j : nat) :
  BinaryHeap.swap i j this = Normal this' ->
  exists a b,
    BinaryHeap.heap this !! i = Some a /\ BinaryHeap.heap this !! j = Some b
    /\ BinaryHeap.heap this' = <[j := a]> (<[i := b]> (BinaryHeap.heap this)).
Proof.
  unfold BinaryHeap.swap, BinaryHeap.elem.
  destruct (BinaryHeap.heap this !! i) as [a|] eqn:Ha; [|done].
  destruct (BinaryHeap.heap this !! j) as [b|] eqn:Hb; [|done].
  cbn [mbind completion_bind BinaryHeap.heap BinaryHeap.nodeMap].
  destruct (<[j:=a]> (<[i:=b]> (BinaryHeap.heap this)) !! i) as [ni|]; [|done].
  cbn [mbind completion_bind BinaryHeap.heap].
  destruct (<[j:=a]> (<[i:=b]> (BinaryHeap.heap this)) !! j) as [nj|]; [|done].
  cbn [mbind completion_bind]. intros [= <-]. by exists a, b.
Qed.

Lemma swapped_lookup heap (i j k : nat) (a b : Node.t) :
  heap !! i = Some a -> heap !! j = Some b -> i <> j ->
  <[j := a]> (<[i := b]> heap) !! k
  = if decide (k = j) then Some a else if decide (k = i) then Some b else heap !! k.
Proof.
  intros Ha Hb Hne.
  pose proof (lookup_lt_Some _ _ _ Ha). pose proof (lookup_lt_Some _ _ _ Hb).
  destruct (decide (k = j)) as [->|Hkj].
  - rewrite list_lookup_insert_eq; [done|]. by rewrite length_insert.
  - rewrite list_lookup_insert_ne by done.
    destruct (decide (k = i)) as [->|Hki].
    + by rewrite list_lookup_insert_eq.
    + by rewrite list_lookup_insert_ne.
Qed.

Lemma swapped_valued heap (i j : nat) (a b : Node.t) :
  heap !! i = Some a -> heap !! j = Some b ->
  Forall valued heap -> Forall valued (<[j := a]> (<[i := b]> heap)).
Proof.
  intros Ha Hb Hall.
  pose proof (proj1 (Forall_lookup _ _) Hall) as Hl.
  apply Forall_insert; [apply Forall_insert; [done|]|]; eauto.
Qed.

Lemma heapifyUp_ordered (fuel index : nat) this this' :
  BinaryHeap.heapifyUp fuel index this = Normal this' ->
  Forall valued (BinaryHeap.heap this) -> up_ready index (BinaryHeap.heap this) ->
  heap_ordered this' /\ Forall valued (BinaryHeap.heap this').
Proof using laws.
  revert index this. induction fuel as [|fuel IH]; intros index this Hrun Hall [Hord Hgrand].
  - cbn in Hrun. destruct (index =? 0)%nat eqn:Hzero; [|done].
    apply Nat.eqb_eq in Hzero. subst index. injection Hrun as <-. split; [|done].
    intros p c a b Hchild _ Ha Hb. eapply Hord; [exact Hchild| |done..].
    unfold child_of in Hchild. lia.
  - cbn [BinaryHeap.heapifyUp] in Hrun.
    destruct (index =? 0)%nat eqn:Hzero.
    { apply Nat.eqb_eq in Hzero. subst index. injection Hrun as <-. split; [|done].
      intros p c a b Hchild _ Ha Hb. eapply Hord; [exact Hchild| |done..].
      unfold child_of in Hchild. lia. }
    apply Nat.eqb_neq in Hzero.
    pose proof (parent_child index ltac:(lia)) as Hparent.
    set (up := ((index - 1) / 2)%nat) in *.
    unfold BinaryHeap.elem in Hrun.
    destruct (BinaryHeap.heap this !! index) as [child|] eqn:Hchild; [|done].
    destruct (BinaryHeap.heap this !! up) as [above|] eqn:Habove; [|done].
    cbn [mbind completion_bind] in Hrun.
    pose proof (proj1 (Forall_lookup _ _) Hall) as Hvalued.
    assert (Hvc : valued child) by eauto. assert (Hva : valued above) by eauto.
    destruct (geb (Node.f child) (Node.f above)) eqn:Hge.
    { injection Hrun as <-. split; [|done].
      intros p c a b Hc _ Ha Hb.
      destruct (decide (c = index)) as [->|Hne]; [|by eapply Hord].
      assert (p = up) as -> by (unfold child_of in *; lia).
      assert (a = above) as -> by congruence. assert (b = child) as -> by congruence.
      exact Hge. }
    assert (Hless : node_le child above) by by apply node_not_ge.
    destruct (BinaryHeap.swap index up this) as [this1| |] eqn:Hswap; [|done..].
    cbn [mbind completion_bind] in Hrun.
    apply swap_heap in Hswap as (a0 & b0 & Ha0 & Hb0 & Hheap1).
    assert (a0 = child) as -> by congruence. assert (b0 = above) as -> by congruence.
    assert (Hne : index <> up) by (unfold child_of in *; lia).
    pose proof (fun k => swapped_lookup (BinaryHeap.heap this) index up k child above
                          Hchild Habove Hne) as Hlook.
    eapply IH; [exact Hrun| |].
    { rewrite Hheap1. by apply swapped_valued. }
    rewrite Hheap1. split.
    + intros q c x y Hc Hcne. rewrite !Hlook. intros Hx Hy.
      destruct (decide (c = up)) as [|_]; [done|].
      destruct (decide (c = index)) as [->|Hci].
      * assert (q = up) as -> by (unfold child_of in *; lia).
        rewrite decide_True in Hx by done. congruence.
      * destruct (decide (q = up)) as [->|Hqu].
        -- injection Hx as <-.
           assert (node_le above y) by by eapply (Hord up c).
           eapply node_le_trans; [| | |exact Hless|done]; eauto.
        -- destruct (decide (q = index)) as [->|Hqi].
           ++ injection Hx as <-. by eapply (Hgrand up c).
           ++ by eapply (Hord q c).
    + intros pp c x y Hpp Hc. rewrite !Hlook. intros Hx Hy.
      assert (pp <> up /\ pp <> index /\ c <> up) as (Hn1 & Hn2 & Hn3)
        by (unfold child_of in *; lia).
      rewrite decide_False in Hx by done. rewrite decide_False in Hx by done.
      rewrite decide_False in Hy by done.
      assert (node_le x above) by by eapply (Hord pp up).
      destruct (decide (c = index)) as [->|Hci]; [congruence|].
      assert (node_le above y) by by eapply (Hord up c).
      eapply node_le_trans; [| | |done|done]; eauto.
Qed.

(** what the choice between a slot and a candidate child says *)
Lemma pick_smaller_spec this (candidate current smallest : nat) :
  (if (candidate <? length (BinaryHeap.heap this))%nat then
     l ← BinaryHeap.elem this candidate;
     s ← BinaryHeap.elem this current;
     Normal (if ltb (Node.f l) (Node.f s) then candidate else current)
   else Normal current) = Normal smallest ->
  (smallest = current
   /\ forall l s, BinaryHeap.heap this !! candidate = Some l ->
                  BinaryHeap.heap this !! current = Some s ->
                  ltb (Node.f l) (Node.f s) = false)
  \/ (smallest = candidate
      /\ exists l s, BinaryHeap.heap this !! candidate = Some l
                     /\ BinaryHeap.heap this !! current = Some s
                     /\ ltb (Node.f l) (Node.f s) = true).
Proof.
  destruct (candidate <? length (BinaryHeap.heap this))%nat eqn:Hin.
  - unfold BinaryHeap.elem.
    destruct (BinaryHeap.heap this !! candidate) as [l|]; [|done].
    destruct (BinaryHeap.heap this !! current) as [s|]; [|done].
    cbn [mbind completion_bind].
    destruct (ltb (Node.f l) (Node.f s)) eqn:Hlt; intros [= <-].
    + right. split; [done|]. by exists l, s.
    + left. split; [done|]. intros l' s' [= <-] [= <-]. exact Hlt.
  - intros [= <-]. left. split; [done|]. intros l s Hl.
    apply Nat.ltb_ge in Hin. apply lookup_lt_Some in Hl. lia.
Qed.

Lemma heapifyDown_ordered (fuel index : nat) this this' :
  BinaryHeap.heapifyDown fuel index this = Normal this' ->
  Forall valued (BinaryHeap.heap this) -> down_ready index (BinaryHeap.heap this) ->
  heap_ordered this' /\ Forall valued (BinaryHeap.heap this').
Proof using laws.
  revert index this. induction fuel as [|fuel IH]; intros index this Hrun Hall [Hord Hgrand];
    [done|].
  cbn [BinaryHeap.heapifyDown] in Hrun.
  pose proof (proj1 (Forall_lookup _ _) Hall) as Hvalued.
  match type of Hrun with (?pick ≫= _) = _ =>
    destruct pick as [s1| |] eqn:Hpick1; [|done..] end.
  cbn [mbind completion_bind] in Hrun.
  match type of Hrun with (?pick ≫= _) = _ =>
    destruct pick as [s2| |] eqn:Hpick2; [|done..] end.
  cbn [mbind completion_bind] in Hrun.
  apply pick_smaller_spec in Hpick1, Hpick2.
  (* the slot chosen, and what it holds *)
  assert (Hchoice :
    (s2 = index
     /\ forall c cur y, child_of c index -> BinaryHeap.heap this !! index = Some cur ->
                        BinaryHeap.heap this !! c = Some y -> node_le cur y)
    \/ (child_of s2 index
        /\ exists m cur, BinaryHeap.heap this !! s2 = Some m
                         /\ BinaryHeap.heap this !! index = Some cur
                         /\ node_le m cur
                         /\ forall c y, child_of c index ->
                                        BinaryHeap.heap this !! c = Some y -> node_le m y)).
  { destruct Hpick1 as [[-> Hleft] | [-> (l & cur & Hl & Hcur & Hlt1)]].
    - destruct Hpick2 as [[-> Hright] | [-> (r & cur & Hr & Hcur & Hlt2)]].
      + left. split; [done|]. intros c cur y [-> | ->] Hcur Hy;
          apply node_not_lt; eauto.
      + right. split; [by right|]. exists r, cur. split; [done|]. split; [done|].
        assert (Hrc : node_le r cur) by (apply node_lt_le; eauto).
        split; [done|]. intros c y [-> | ->] Hy.
        * assert (node_le cur y) by (apply node_not_lt; eauto).
          eapply node_le_trans; [| | |exact Hrc|done]; eauto.
        * assert (y = r) as -> by congruence. apply node_le_refl; eauto.
    - assert (Hlc : node_le l cur) by (apply node_lt_le; eauto).
      destruct Hpick2 as [[-> Hright] | [-> (r & l' & Hr & Hl' & Hlt2)]].
      + right. split; [by left|]. exists l, cur. split; [done|]. split; [done|].
        split; [done|]. intros c y [-> | ->] Hy.
        * assert (y = l) as -> by congruence. apply node_le_refl; eauto.
        * apply node_not_lt; eauto.
      + assert (l' = l) as -> by congruence.
        assert (Hrl : node_le r l) by (apply node_lt_le; eauto).
        right. split; [by right|]. exists r, cur. split; [done|]. split; [done|].
        split; [eapply node_le_trans; [| | |exact Hrl|exact Hlc]; eauto|].
        intros c y [-> | ->] Hy.
        * by assert (y = l) as -> by congruence.
        * assert (y = r) as -> by congruence. apply node_le_refl; eauto. }
  clear Hpick1 Hpick2.
  destruct Hchoice as [[-> Hmin] | (Hs2 & m & cur & Hm & Hcur & Hmc & Hmin)].
  - rewrite Nat.eqb_refl in Hrun. injection Hrun as <-. split; [|done].
    intros p c a b Hc _ Ha Hb.
    destruct (decide (p = index)) as [->|Hne]; [by eapply Hmin|by eapply Hord].
  - assert (Hne : index <> s2) by (unfold child_of in Hs2; lia).
    rewrite (proj2 (Nat.eqb_neq s2 index)) in Hrun by done.
    destruct (BinaryHeap.swap index s2 this) as [this1| |] eqn:Hswap; [|done..].
    cbn [mbind completion_bind] in Hrun.
    apply swap_heap in Hswap as (a0 & b0 & Ha0 & Hb0 & Hheap1).
    assert (a0 = cur) as -> by congruence. assert (b0 = m) as -> by congruence.
    pose proof (fun k => swapped_lookup (BinaryHeap.heap this) index s2 k cur m
                          Hcur Hm Hne) as Hlook.
    eapply IH; [exact Hrun| |].
    { rewrite Hheap1. by apply swapped_valued. }
    rewrite Hheap1. split.
    + intros q c x y Hc Hqne. rewrite !Hlook. intros Hx Hy.
      rewrite decide_False in Hx by done.
      destruct (decide (c = s2)) as [->|Hcs].
      * assert (q = index) as -> by (unfold child_of in *; lia).
        rewrite decide_True in Hx by done. congruence.
      * destruct (decide (c = index)) as [->|Hci].
        -- injection Hy as <-.
           assert (q <> index) by (unfold child_of in *; lia).
           rewrite decide_False in Hx by done. by eapply (Hgrand q s2).
        -- destruct (decide (q = index)) as [->|Hqi].
           ++ injection Hx as <-. by eapply Hmin.
           ++ by eapply (Hord q c).
    + intros pp c x y Hpp Hc. rewrite !Hlook. intros Hx Hy.
      assert (pp = index) as -> by (unfold child_of in *; lia).
      assert (c <> s2 /\ c <> index) as [Hn1 Hn2] by (unfold child_of in *; lia).
      rewrite decide_False in Hx by done. rewrite decide_True in Hx by done.
      rewrite decide_False in Hy by done. rewrite decide_False in Hy by done.
      injection Hx as <-. by eapply (Hord s2 c).
Qed.

Lemma replaced_lookup heap (index k : nat) (old node : Node.t) :
  heap !! index = Some old ->
  <[index := node]> heap !! k = if decide (k = index) then Some node else heap !! k.
Proof.
  intros Hold%lookup_lt_Some. destruct (decide (k = index)) as [->|Hne].
  - by rewrite list_lookup_insert_eq.
  - by rewrite list_lookup_insert_ne.
Qed.

(** [push] keeps the order: it moves the node up when its [f] went down,
    and down when its [f] went up. *)
Lemma push_ordered node this this' :
  heap_inv this -> heap_ordered this -> heap_values ordered this -> valued node ->
  BinaryHeap.push node this = Normal this' ->
  heap_ordered this' /\ heap_values ordered this'.
Proof using laws.
  intros Hinv Hord Hall Hnode. unfold BinaryHeap.push.
  change (Forall valued (BinaryHeap.heap this)) in Hall.
  change (heap_values ordered this') with (Forall valued (BinaryHeap.heap this')).
  pose proof (proj1 (Forall_lookup _ _) Hall) as Hvalued.
  destruct (BinaryHeap.nodeMap this !! BinaryHeap.getKey node) as [index|] eqn:Hmap.
  - apply Hinv in Hmap as (old & Hold & _).
    rewrite (elem_Normal _ _ _ Hold). cbn [mbind completion_bind].
    assert (Hvo : valued old) by exact (Hvalued _ _ Hold).
    pose proof (fun k => replaced_lookup (BinaryHeap.heap this) index k old node Hold)
      as Hlook.
    assert (Hall0 : Forall valued (<[index:=node]> (BinaryHeap.heap this)))
      by by apply Forall_insert.
    assert (Hgrand : node_le old node \/ node_le node old ->
                     grandparent_ordered index (<[index:=node]> (BinaryHeap.heap this))).
    { intros _ pp c x y Hpp Hc. rewrite !Hlook. intros Hx Hy.
      assert (pp <> index /\ c <> index) as [Hn1 Hn2] by (unfold child_of in *; lia).
      rewrite decide_False in Hx by done. rewrite decide_False in Hy by done.
      assert (node_le x old) by by eapply (Hord pp index).
      assert (node_le old y) by by eapply (Hord index c).
      eapply node_le_trans; [| | |done|done]; eauto. }
    assert (Hbelow : node_le node old ->
                     ordered_where (fun _ c => c <> index)
                       (<[index:=node]> (BinaryHeap.heap this))).
    { intros Hle q c x y Hc Hne. rewrite !Hlook. intros Hx Hy.
      rewrite decide_False in Hy by done.
      destruct (decide (q = index)) as [->|Hqi]; [|by eapply (Hord q c)].
      injection Hx as <-.
      assert (node_le old y) by by eapply (Hord index c).
      eapply node_le_trans; [| | |exact Hle|done]; eauto. }
    assert (Habove : node_le old node ->
                     ordered_where (fun p _ => p <> index)
                       (<[index:=node]> (BinaryHeap.heap this))).
    { intros Hle q c x y Hc Hne. rewrite !Hlook. intros Hx Hy.
      rewrite decide_False in Hx by done.
      destruct (decide (c = index)) as [->|Hci]; [|by eapply (Hord q c)].
      injection Hy as <-.
      assert (node_le x old) by by eapply (Hord q index).
      eapply node_le_trans; [| | |done|exact Hle]; eauto. }
    destruct (ltb (Node.f node) (Node.f old)) eqn:Hlt.
    { assert (Hle : node_le node old) by by apply node_lt_le.
      intros Hrun. eapply heapifyUp_ordered in Hrun; [done|done|].
      split; [by apply Hbelow|apply Hgrand; by right]. }
    unfold gtb. destruct (ltb (Node.f old) (Node.f node)) eqn:Hgt.
    { assert (Hle : node_le old node) by by apply node_lt_le.
      intros Hrun. eapply heapifyDown_ordered in Hrun; [done|done|].
      split; [by apply Habove|apply Hgrand; by left]. }
    intros [= <-]. split; [|done].
    assert (Hle1 : node_le old node) by by apply node_not_lt.
    assert (Hle2 : node_le node old) by by apply node_not_lt.
    intros q c x y Hc _. cbn [BinaryHeap.heap].
    destruct (decide (c = index)) as [->|Hci].
    + eapply Habove; [done|exact Hc|]. unfold child_of in Hc. lia.
    + by eapply Hbelow.
  - intros Hrun. eapply heapifyUp_ordered in Hrun; [done| |].
    { cbn [BinaryHeap.heap]. apply Forall_app. split; [done|]. by constructor. }
    cbn [BinaryHeap.heap]. rewrite length_app. cbn [length].
    replace (length (BinaryHeap.heap this) + 1 - 1)%nat
      with (length (BinaryHeap.heap this)) by lia.
    split.
    + intros q c x y Hc Hne Hx Hy.
      assert (c < length (BinaryHeap.heap this))%nat.
      { apply lookup_lt_Some in Hy. rewrite length_app in Hy. cbn in Hy. lia. }
      rewrite lookup_app_l in Hx, Hy by (unfold child_of in Hc; lia).
      by eapply (Hord q c).
    + intros pp c x y Hpp Hc Hx Hy.
      apply lookup_lt_Some in Hy. rewrite length_app in Hy. cbn in Hy.
      unfold child_of in Hc. lia.
Qed.

(** In an ordered heap no node is below the root. *)
Lemma root_least heap (root : Node.t) :
  ordered_where (fun _ _ => True) heap -> Forall valued heap ->
  heap !! 0%nat = Some root ->
  forall (i : nat) node, heap !! i = Some node -> node_le root node.
Proof using laws.
  intros Hord Hall Hroot i.
  pose proof (proj1 (Forall_lookup _ _) Hall) as Hvalued.
  induction i as [i IH] using lt_wf_ind. intros node Hnode.
  destruct (decide (i = 0%nat)) as [->|Hpos].
  { assert (node = root) as -> by congruence. apply node_le_refl. eauto. }
  pose proof (parent_child i ltac:(lia)) as Hparent.
  set (up := ((i - 1) / 2)%nat) in *.
  assert (Hlt : (up < i)%nat) by (unfold child_of in Hparent; lia).
  destruct (lookup_lt_is_Some_2 heap up) as [above Habove].
  { apply lookup_lt_Some in Hnode. lia. }
  assert (node_le root above) by by eapply IH.
  assert (node_le above node) by by eapply (Hord up i).
  eapply node_le_trans; [| | |done|done]; eauto.
Qed.

(** [pop] takes out a node that no node of the heap is below, and keeps the
    order. *)
Lemma pop_ordered this this' (top : option Node.t) :
  heap_ordered this -> heap_values ordered this ->
  BinaryHeap.pop this = Normal (top, this') ->
  heap_ordered this' /\ heap_values ordered this'
  /\ forall least node, top = Some least -> node ∈ BinaryHeap.heap this ->
                        node_le least node.
Proof using laws.
  intros Hord Hall. unfold BinaryHeap.pop.
  change (Forall valued (BinaryHeap.heap this)) in Hall.
  change (heap_values ordered this') with (Forall valued (BinaryHeap.heap this')).
  assert (Hleast : forall root, BinaryHeap.heap this !! 0%nat = Some root ->
            forall node, node ∈ BinaryHeap.heap this -> node_le root node).
  { intros root Hroot node [i Hi]%list_elem_of_lookup. by eapply root_least. }
  unfold heap_ordered in *.
  destruct (BinaryHeap.heap this) as [|root rest] eqn:Hheap.
  - intros [= <- <-]. rewrite Hheap. split; [done|]. split; [done|]. by intros.
  - destruct rest as [|second rest].
    + intros [= <- <-]. cbn [BinaryHeap.heap]. split; [by intros p c a b _ _ Ha|].
      split; [constructor|]. intros least node [= <-]. by apply Hleast.
    + destruct (exists_last (l := second :: rest)) as (mid & moved & Hrest); [done|].
      rewrite Hrest in *. rewrite last_last, removelast_last.
      match goal with |- (?run ≫= _) = _ -> _ =>
        destruct run as [this1| |] eqn:Hrun; [|done..] end.
      cbn [mbind completion_bind]. intros [= <- <-].
      apply Forall_cons in Hall as [Hvr Hall].
      apply Forall_app in Hall as [Hvmid Hvmoved].
      apply Forall_cons in Hvmoved as [Hvm _].
      eapply heapifyDown_ordered in Hrun.
      * destruct Hrun as [Hord1 Hall1]. split; [done|]. split; [done|].
        intros least node [= <-]. by apply Hleast.
      * cbn [BinaryHeap.heap]. by constructor.
      * cbn [BinaryHeap.heap]. split.
        -- intros q c x y Hc Hne Hx Hy.
           assert (Hq : (root :: mid ++ [moved]) !! q = Some x).
           { destruct q as [|q]; [done|]. cbn in Hx |- *. by apply lookup_app_l_Some. }
           assert (Hcy : (root :: mid ++ [moved]) !! c = Some y).
           { destruct c as [|c]; [unfold child_of in Hc; lia|].
             cbn in Hy |- *. by apply lookup_app_l_Some. }
           by eapply (Hord q c).
        -- intros pp c x y Hpp. unfold child_of in Hpp. lia.
Qed.
End HeapOrder.

Section HeapEntries.
Context {N : Number}.
Implicit Types (this : BinaryHeap.t) (node : Node.t).

(** [swap] exchanges the nodes of the two slots. *)
Lemma swap_exchanges this this' (i j : nat) :
  BinaryHeap.swap i j this = Normal this' ->
  forall k, BinaryHeap.heap this' !! k
            = BinaryHeap.heap this !! (if decide (k = i) then j
                                       else if decide (k = j) then i else k).
Proof.
  intros (a & b & Ha & Hb & ->)%swap_heap k.
  destruct (decide (i = j)) as [<-|Hne].
  - assert (a = b) as <- by congruence.
    rewrite (list_insert_id (BinaryHeap.heap this) i a Ha).
    rewrite (list_insert_id (BinaryHeap.heap this) i a Ha).
    by destruct (decide (k = i)) as [->|].
  - rewrite (swapped_lookup _ i j k a b Ha Hb Hne).
    repeat destruct (decide _); subst; congruence.
Qed.

(** The entries after a [push]: the node, and the entries of the other
    coordinates. *)
Lemma push_entries node this this' :
  heap_inv this -> BinaryHeap.push node this = Normal this' ->
  forall n, n ∈ BinaryHeap.heap this'
            <-> n = node
                \/ (n ∈ BinaryHeap.heap this
                    /\ BinaryHeap.getKey n <> BinaryHeap.getKey node).
Proof.
  intros Hinv. unfold BinaryHeap.push.
  destruct (BinaryHeap.nodeMap this !! BinaryHeap.getKey node) as [index|] eqn:Hmap.
  - apply Hinv in Hmap as (old & Hold & Hkey).
    pose proof (lookup_lt_Some _ _ _ Hold) as Hlt.
    rewrite (elem_Normal _ _ _ Hold). cbn [mbind completion_bind].
    set (this0 := {| BinaryHeap.heap := <[index:=node]> (BinaryHeap.heap this);
                     BinaryHeap.nodeMap := BinaryHeap.nodeMap this |}).
    assert (Hinv0 : heap_inv this0) by by eapply heap_inv_replace.
    assert (Hentries0 : forall n, n ∈ BinaryHeap.heap this0
              <-> n = node \/ (n ∈ BinaryHeap.heap this
                               /\ BinaryHeap.getKey n <> BinaryHeap.getKey node)).
    { intros n. cbn [BinaryHeap.heap this0]. rewrite !list_elem_of_lookup. split.
      - intros [k Hk]. destruct (decide (k = index)) as [->|Hne].
        + rewrite list_lookup_insert_eq in Hk by done. left. congruence.
        + rewrite list_lookup_insert_ne in Hk by done. right.
          split; [by exists k|]. intros Hsame. apply Hne.
          eapply (heap_inv_unique this k index n old); [done..|congruence].
      - intros [-> | [[k Hk] Hother]].
        + exists index. by rewrite list_lookup_insert_eq.
        + exists k. rewrite list_lookup_insert_ne; [done|].
          intros <-. apply Hother. congruence. }
    assert (Hdone : forall this1, same_nodes this0 this1 ->
              forall n, n ∈ BinaryHeap.heap this1
                <-> n = node \/ (n ∈ BinaryHeap.heap this
                                 /\ BinaryHeap.getKey n <> BinaryHeap.getKey node)).
    { intros this1 [_ Hsame] n. by rewrite Hsame. }
    destruct (ltb (Node.f node) (Node.f old)).
    { destruct (heapifyUp_ok index index this0) as (this1 & -> & _ & Hsame);
        [lia|cbn; by rewrite length_insert|done|].
      intros [= <-]. by apply Hdone. }
    destruct (gtb (Node.f node) (Node.f old)).
    { destruct (heapifyDown_ok (length (BinaryHeap.heap this0)) index this0)
        as (this1 & -> & _ & Hsame); [lia|cbn; by rewrite length_insert|done|].
      intros [= <-]. by apply Hdone. }
    intros [= <-]. exact Hentries0.
  - rewrite length_app. cbn [length].
    replace (length (BinaryHeap.heap this) + 1 - 1)%nat
      with (length (BinaryHeap.heap this)) by lia.
    set (this0 := {| BinaryHeap.heap := BinaryHeap.heap this ++ [node];
                     BinaryHeap.nodeMap := _ |}).
    assert (Hinv0 : heap_inv this0) by by apply heap_inv_append.
    destruct (heapifyUp_ok (length (BinaryHeap.heap this))
                (length (BinaryHeap.heap this)) this0)
      as (this1 & -> & _ & [_ Hsame]); [lia| |done|].
    { cbn. rewrite length_app. cbn. lia. }
    intros [= <-] n. rewrite Hsame. cbn [BinaryHeap.heap this0].
    rewrite elem_of_app, list_elem_of_singleton. split.
    + intros [Hn | ->]; [|by left]. right. split; [done|].
      intros Hsame'. apply list_elem_of_lookup in Hn as [k Hk].
      assert (BinaryHeap.nodeMap this !! BinaryHeap.getKey node = Some k)
        by (apply Hinv; by exists n).
      congruence.
    + intros [-> | [Hn _]]; [by right|by left].
Qed.

(** The entries after a [pop]: those of the heap but the root. *)
Lemma pop_entries this this' (top : option Node.t) :
  heap_inv this -> BinaryHeap.pop this = Normal (top, this') ->
  forall n, n ∈ BinaryHeap.heap this' <-> n ∈ BinaryHeap.heap this /\ Some n <> top.
Proof.
  intros Hinv. unfold BinaryHeap.pop.
  destruct (BinaryHeap.heap this) as [|root rest] eqn:Hheap.
  - intros [= <- <-] n. rewrite Hheap. split; [by intros ?%elem_of_nil|by intros [?%elem_of_nil _]].
  - destruct rest as [|second rest].
    + intros [= <- <-] n. cbn [BinaryHeap.heap]. split; [by intros ?%elem_of_nil|].
      intros [->%list_elem_of_singleton Hne]. done.
    + destruct (exists_last (l := second :: rest)) as (mid & moved & Hrest); [done|].
      rewrite Hrest in *. rewrite last_last, removelast_last.
      set (this0 := {| BinaryHeap.heap := moved :: mid; BinaryHeap.nodeMap := _ |}).
      assert (Hinv0 : heap_inv this0) by by eapply heap_inv_move_last.
      destruct (heapifyDown_ok (length (moved :: mid)) 0 this0)
        as (this1 & -> & _ & [_ Hsame]); [cbn; lia|cbn; lia|done|].
      cbn [mbind completion_bind]. intros [= <- <-] n.
      rewrite Hsame. cbn [BinaryHeap.heap this0].
      assert (Hroot : forall k, (root :: mid ++ [moved]) !! S k <> Some root).
      { intros k Hk.
        assert (S k = 0)%nat; [|done].
        eapply (heap_inv_unique this (S k) 0 root root Hinv); by rewrite ?Hheap. }
      rewrite !elem_of_cons, elem_of_app, list_elem_of_singleton. split.
      * intros Hn. split; [tauto|]. intros [= ->].
        destruct Hn as [-> | [k Hk]%list_elem_of_lookup].
        -- apply (Hroot (length mid)). cbn. by apply list_lookup_middle.
        -- apply (Hroot k). cbn. by apply lookup_app_l_Some.
      * intros [[-> | [Hn | ->]] Hne]; [done|by right|by left].
Qed.
End HeapEntries.



(** ** The search loop *)

Lemma size_list_to_set_le (l : list string) :
  (size (list_to_set l : gset string) <= length l)%nat.
Proof.
  induction l as [|k l IH]; cbn [list_to_set length].
  - by rewrite size_empty.
  - rewrite size_union_alt, size_singleton.
    assert (size (list_to_set l ∖ {[k]} : gset string) <= size (list_to_set l : gset string))%nat
      by (apply subseteq_size; set_solver).
    lia.
Qed.

Lemma size_close (width height : Z) (key : string) (closed : gset string) :
  key ∈ grid_keys width height -> key ∉ closed ->
  (S (size (grid_keys width height ∖ ({[key]} ∪ closed)))
   <= size (grid_keys width height ∖ closed))%nat.
Proof.
  intros Hin Hnot. apply (subset_size (C := gset string)).
  split; [set_solver|]. intros Hsub.
  assert (key ∈ grid_keys width height ∖ ({[key]} ∪ closed)) as Hk
    by (apply Hsub; set_solver).
  set_solver.
Qed.

Section SearchRuns.
Context {N : Number}.
Variables (terrainMap : list (list string)) (width height : Z).
Hypothesis height_rows : height = Z.of_nat (length terrainMap).

Lemma at_index2_node (x y : Z) :
  0 <= y < height ->
  exists terrain, at_index2 terrainMap y x = Normal terrain.
Proof using height_rows.
  intros Hy. rewrite at_index2_in_range by lia. by eexists.
Qed.

Lemma getNeighbors_from_ok (directions : list (Z * Z)) (node : Node.t)
    (neighbors : list Node.t) :
  (forall n, n ∈ neighbors -> node_in_bounds width height n) ->
  exists all,
    getNeighbors_from directions node terrainMap width height neighbors = Normal all
    /\ (length all <= length neighbors + length directions)%nat
    /\ forall n, n ∈ all -> node_in_bounds width height n.
Proof using height_rows.
  revert neighbors. induction directions as [|[dx dy] directions IH];
    intros neighbors Hin.
  - exists neighbors. cbn. split; [done|]. split; [lia|done].
  - cbn [getNeighbors_from length].
    destruct (out_of_bounds _ _ width height) eqn:Hout.
    { destruct (IH neighbors Hin) as (all & -> & Hlen & Hall).
      exists all. split; [done|]. split; [lia|done]. }
    apply out_of_bounds_spec in Hout.
    destruct (at_index2_node (Node.x node + dx) (Node.y node + dy)) as [terrain ->];
      [lia|].
    cbn [mbind completion_bind].
    destruct (eqb _ Infinity).
    { destruct (IH neighbors Hin) as (all & -> & Hlen & Hall).
      exists all. split; [done|]. split; [lia|done]. }
    match goal with |- context [neighbors ++ [?n]] =>
      destruct (IH (neighbors ++ [n])) as (all & -> & Hlen & Hall)
    end.
    { intros n [Hn | Hn%list_elem_of_singleton]%elem_of_app; [by apply Hin|].
      subst n. exact Hout. }
    exists all. split; [done|]. split; [|done].
    rewrite length_app in Hlen. cbn in Hlen. lia.
Qed.

Lemma getNeighbors_ok (node : Node.t) :
  exists neighbors,
    getNeighbors node terrainMap width height = Normal neighbors
    /\ (length neighbors <= 8)%nat
    /\ forall n, n ∈ neighbors -> node_in_bounds width height n.
Proof using height_rows.
  destruct (getNeighbors_from_ok DIRECTIONS node []) as (all & Hrun & Hlen & Hall).
  { intros n Hn. by apply elem_of_nil in Hn. }
  exists all. split; [done|]. split; [exact Hlen|done].
Qed.

Lemma coordKey_in_grid (x y : Z) :
  0 <= x < width -> 0 <= y < height -> coordKey x y ∈ grid_keys width height.
Proof.
  intros Hx Hy. unfold grid_keys. apply elem_of_list_to_set.
  apply list_elem_of_bind. exists y. split; [|apply elem_of_seqZ; lia].
  apply list_elem_of_fmap. exists x. split; [done|]. apply elem_of_seqZ. lia.
Qed.

Lemma size_grid_keys :
  (size (grid_keys width height) <= Z.to_nat width * Z.to_nat height)%nat.
Proof.
  unfold grid_keys. etrans; [apply size_list_to_set_le|].
  assert (Hlen : forall ys : list Z,
    length (y ← ys; (fun x => coordKey x y) <$> seqZ 0 width)
    = (Z.to_nat width * length ys)%nat).
  { induction ys as [|y ys IH]; [cbn; lia|].
    cbn [mbind list_bind]. rewrite length_app, length_fmap, length_seqZ.
    cbn [mbind] in IH. rewrite IH. cbn [length]. lia. }
  rewrite Hlen, length_seqZ. done.
Qed.

Variables (endX endY : Z).

Lemma relax_ok (current : Node.t) (currentKey : string) (st : SearchState.t)
    (neighbor : Node.t) :
  search_inv width height st -> node_in_bounds width height neighbor ->
  exists st',
    relax endX endY terrainMap current currentKey st neighbor = Normal st'
    /\ search_inv width height st'
    /\ SearchState.closedSet st' = SearchState.closedSet st
    /\ (length (BinaryHeap.heap (SearchState.openSet st'))
        <= S (length (BinaryHeap.heap (SearchState.openSet st))))%nat.
Proof using height_rows.
  intros [Hreach Hnodes] Hneighbor. unfold relax.
  destruct (bool_decide _).
  { exists st. split; [done|]. split; [by split|]. split; [done|lia]. }
  destruct (at_index2_node (Node.x neighbor) (Node.y neighbor)) as [terrain ->];
    [apply Hneighbor|].
  cbn [mbind completion_bind].
  destruct (ltb _ _).
  - match goal with |- context [BinaryHeap.push ?n ?h] =>
      destruct (push_ok n h) as (open' & Hpush & Hinv' & Hin' & Hsub' & Hlen')
    end.
    { by apply heap_reachable_inv. }
    rewrite Hpush. cbn [mbind completion_bind].
    eexists. split; [reflexivity|]. cbn [SearchState.openSet SearchState.closedSet].
    split; [split|split; [done|]].
    + by eapply reachable_push.
    + intros n Hn. destruct (Hsub' n Hn) as [-> | Hold]; [exact Hneighbor|].
      by apply Hnodes.
    + rewrite Hlen'. destruct (BinaryHeap.nodeMap _ !! _); lia.
  - exists st. split; [done|]. split; [by split|]. split; [done|lia].
Qed.

Lemma relax_all_ok (current : Node.t) (currentKey : string) (neighbors : list Node.t)
    (st : SearchState.t) :
  search_inv width height st ->
  (forall n, n ∈ neighbors -> node_in_bounds width height n) ->
  exists st',
    relax_all endX endY terrainMap current currentKey st neighbors = Normal st'
    /\ search_inv width height st'
    /\ SearchState.closedSet st' = SearchState.closedSet st
    /\ (length (BinaryHeap.heap (SearchState.openSet st'))
        <= length (BinaryHeap.heap (SearchState.openSet st)) + length neighbors)%nat.
Proof using height_rows.
  revert st. induction neighbors as [|neighbor neighbors IH]; intros st Hinv Hall.
  - exists st. cbn. split; [done|]. split; [done|]. split; [done|lia].
  - cbn [relax_all].
    destruct (relax_ok current currentKey st neighbor) as (st1 & -> & Hinv1 & Hc1 & Hl1);
      [done|apply Hall; left|].
    cbn [mbind completion_bind].
    destruct (IH st1) as (st2 & -> & Hinv2 & Hc2 & Hl2);
      [done|intros n Hn; apply Hall; by right|].
    exists st2. split; [done|]. split; [done|]. split; [congruence|].
    cbn [length]. lia.
Qed.

Variable now : nat -> num.

(** A round of the main loop on a state that satisfies the invariant ends
    the search or leaves a state that satisfies the invariant, with a
    smaller measure; it does not throw. *)
Lemma search_step_ok (st : SearchState.t) :
  search_inv width height st ->
  (exists result,
     search_step now endX endY terrainMap width height st = Normal (inl result))
  \/ (exists st',
        search_step now endX endY terrainMap width height st = Normal (inr st')
        /\ search_inv width height st'
        /\ (potential width height st' < potential width height st)%nat).
Proof using height_rows.
  intros [Hreach Hnodes]. unfold search_step, BinaryHeap.isEmpty.
  destruct (length _ =? 0)%nat eqn:Hempty; [left; by eexists|].
  apply Nat.eqb_neq in Hempty.
  destruct (pop_ok (SearchState.openSet st))
    as (top & open' & Hpop & Hinv' & Htop & Hlen' & Hsub');
    [by apply heap_reachable_inv|].
  rewrite Hpop. cbn [mbind completion_bind].
  assert (Hreach' : heap_reachable open') by by eapply reachable_pop.
  destruct (BinaryHeap.heap (SearchState.openSet st)) as [|current rest] eqn:Hheap;
    [done|].
  cbn in Htop. subst top.
  assert (Hcurrent : node_in_bounds width height current) by (apply Hnodes; left).
  assert (Hnodes' : forall n, n ∈ BinaryHeap.heap open' -> node_in_bounds width height n).
  { intros n Hn. by apply Hnodes, Hsub'. }
  set (currentKey := coordKey (Node.x current) (Node.y current)).
  destruct (bool_decide (currentKey ∈ SearchState.closedSet st)) eqn:Hclosed.
  { right. eexists. split; [reflexivity|]. split; [by split|].
    unfold potential. cbn [SearchState.openSet SearchState.closedSet].
    rewrite Hlen', Hheap. cbn [length]. lia. }
  apply bool_decide_eq_false in Hclosed.
  destruct ((Node.x current =? endX) && (Node.y current =? endY));
    [left; by eexists|].
  destruct (getNeighbors_ok current) as (neighbors & -> & Hcount & Hall).
  cbn [mbind completion_bind].
  match goal with |- context [relax_all _ _ _ _ _ ?s _] =>
    destruct (relax_all_ok current currentKey neighbors s)
      as (st2 & -> & Hinv2 & Hclosed2 & Hlen2)
  end; [by split|done|].
  cbn [mbind completion_bind].
  right. exists st2. split; [done|]. split; [done|].
  unfold potential. rewrite Hclosed2.
  cbn [SearchState.openSet SearchState.closedSet] in *.
  pose proof (size_close width height currentKey (SearchState.closedSet st)) as Hsize.
  rewrite Hheap. cbn [length] in *. rewrite Hlen' in Hlen2.
  assert (currentKey ∈ grid_keys width height)
    by (apply coordKey_in_grid; apply Hcurrent).
  specialize (Hsize ltac:(done) Hclosed). lia.
Qed.

(** With a budget above the measure of its state, the main loop returns a
    result. *)
Lemma search_total (fuel : nat) (st : SearchState.t) :
  search_inv width height st ->
  (potential width height st < fuel)%nat ->
  exists result, search now endX endY terrainMap width height fuel st = Normal result.
Proof using height_rows.
  revert st. induction fuel as [|fuel IH]; intros st Hinv Hfuel; [lia|].
  cbn [search].
  destruct (search_step_ok st Hinv) as [[result ->] | (st' & -> & Hinv' & Hless)];
    cbn [mbind completion_bind]; [by eexists|].
  apply IH; [done|lia].
Qed.

(** The states at the head of the rounds of a search keep the invariant. *)
Lemma search_reaches_inv (init st : SearchState.t) :
  search_inv width height init ->
  search_reaches (search_step now endX endY terrainMap width height) init st ->
  search_inv width height st.
Proof using height_rows.
  intros Hinit. induction 1 as [|st st' _ IH Hstep]; [done|].
  destruct (search_step_ok st IH) as [[result Hrun] | (st2 & Hrun & Hinv2 & _)];
    rewrite Hrun in Hstep; [done|]. by injection Hstep as <-.
Qed.

Lemma initial_state_ok (startX startY : Z) :
  0 <= startX < width -> 0 <= startY < height ->
  exists st,
    initial_state startX startY endX endY = Normal st
    /\ search_inv width height st
    /\ (potential width height st < search_budget width height)%nat.
Proof using height_rows.
  intros Hx Hy. unfold initial_state.
  match goal with |- context [BinaryHeap.push ?n BinaryHeap.empty] =>
    destruct (push_ok n BinaryHeap.empty heap_inv_empty)
      as (open & Hpush & Hinv & Hin & Hsub & Hlen)
  end.
  rewrite Hpush. cbn [mbind completion_bind].
  eexists. split; [reflexivity|]. split; [split|].
  - cbn. eapply reachable_push; [apply reachable_empty|exact Hpush].
  - cbn. intros n Hn. destruct (Hsub n Hn) as [-> | Hn']; [by split|].
    by apply elem_of_nil in Hn'.
  - unfold potential, search_budget. cbn [SearchState.openSet SearchState.closedSet].
    rewrite Hlen. cbn [BinaryHeap.nodeMap BinaryHeap.heap BinaryHeap.empty].
    rewrite lookup_empty. cbn [length].
    pose proof size_grid_keys.
    assert (size (grid_keys width height ∖ ∅) <= size (grid_keys width height))%nat
      by (apply subseteq_size; set_solver).
    lia.
Qed.
End SearchRuns.

(** *** Totality of [findPath] *)

(** On a grid with at least one row [findPath] returns a result: it does
    not throw, and the budget of the main loop is never used up. *)
Lemma findPath_total {N : Number} (now : nat -> num) (startX startY endX endY : Z)
    (terrainMap : list (list string)) :
  terrainMap <> [] ->
  exists result, findPath now startX startY endX endY terrainMap = Normal result.
Proof.
  intros Hne. destruct terrainMap as [|row0 rest]; [done|].
  unfold findPath. cbn [lookup list_lookup mbind completion_bind].
  set (width := Z.of_nat (length row0)).
  set (height := Z.of_nat (length (row0 :: rest))).
  destruct (out_of_bounds startX startY width height) eqn:Hs; [by eexists|].
  destruct (out_of_bounds endX endY width height) eqn:He; [by eexists|].
  cbn [orb]. apply out_of_bounds_spec in Hs, He.
  rewrite !at_index2_in_range by (fold height; lia).
  cbn [mbind completion_bind].
  destruct (eqb _ Infinity); cbn [mbind completion_bind]; [by eexists|].
  destruct (eqb _ Infinity); [by eexists|].
  destruct ((startX =? endX) && (startY =? endY)); [by eexists|].
  destruct (initial_state_ok (row0 :: rest) width height eq_refl endX endY startX startY)
    as (st & -> & Hinv & Hfuel); [lia..|].
  cbn [mbind completion_bind].
  by apply search_total.
Qed.

(** *** The clock *)

Section Clock.
Context {N : Number}.
Variables (now1 now2 : nat -> num) (endX endY : Z).
Variables (terrainMap : list (list string)) (width height : Z).

(** Two rounds on the same state, under two clocks, end alike: with results
    of the same contract, or with the same next state. *)
Lemma search_step_clock (st : SearchState.t) :
  match search_step now1 endX endY terrainMap width height st,
        search_step now2 endX endY terrainMap width height st with
  | Normal (inl r1), Normal (inl r2) => contract r1 = contract r2
  | Normal (inr st1), Normal (inr st2) => st1 = st2
  | Throw msg1, Throw msg2 => msg1 = msg2
  | OutOfFuel, OutOfFuel => True
  | _, _ => False
  end.
Proof.
  unfold search_step.
  destruct (BinaryHeap.isEmpty _); [reflexivity|].
  destruct (BinaryHeap.pop _) as [[[current|] open']| |];
    cbn [mbind completion_bind]; try done.
  destruct (bool_decide _); [reflexivity|].
  destruct (_ && _); [reflexivity|].
  destruct (getNeighbors _ _ _ _) as [neighbors| |]; cbn [mbind completion_bind];
    try done.
  destruct (relax_all _ _ _ _ _ _ _) as [st'| |]; cbn [mbind completion_bind]; done.
Qed.

Lemma search_clock (fuel : nat) (st : SearchState.t) :
  contract_of (search now1 endX endY terrainMap width height fuel st)
  = contract_of (search now2 endX endY terrainMap width height fuel st).
Proof.
  revert st. induction fuel as [|fuel IH]; intros st; [reflexivity|].
  cbn [search]. pose proof (search_step_clock st) as Hstep.
  destruct (search_step now1 _ _ _ _ _ st) as [[r1|st1]| |],
           (search_step now2 _ _ _ _ _ st) as [[r2|st2]| |];
    cbn [mbind completion_bind]; try done.
  - unfold contract_of. cbn [mbind completion_bind]. by rewrite Hstep.
  - subst st2. apply IH.
  - by subst.
Qed.
End Clock.

Lemma findPath_clock {N : Number} (now1 now2 : nat -> num)
    (startX startY endX endY : Z) (terrainMap : list (list string)) :
  contract_of (findPath now1 startX startY endX endY terrainMap)
  = contract_of (findPath now2 startX startY endX endY terrainMap).
Proof.
  unfold findPath.
  destruct (terrainMap !! 0%nat) as [row0|]; cbn [mbind completion_bind]; [|done].
  destruct (_ || _); [reflexivity|].
  destruct (at_index2 terrainMap startY startX) as [startTerrain| |];
    cbn [mbind completion_bind]; try done.
  destruct (eqb _ Infinity); cbn [mbind completion_bind]; [reflexivity|].
  destruct (at_index2 terrainMap endY endX) as [endTerrain| |];
    cbn [mbind completion_bind]; try done.
  destruct (eqb _ Infinity); [reflexivity|].
  destruct (_ && _); [reflexivity|].
  destruct (initial_state _ _ _ _) as [st| |]; cbn [mbind completion_bind]; try done.
  apply search_clock.
Qed.

(** *** The open set during a search *)

Section OpenSetDuringSearch.
Context {N : Number}.
Variables (now : nat -> num) (endX endY : Z).
Variables (terrainMap : list (list string)) (width height : Z).

Lemma relax_reachable (current : Node.t) (currentKey : string)
    (st st' : SearchState.t) (neighbor : Node.t) :
  heap_reachable (SearchState.openSet st) ->
  relax endX endY terrainMap current currentKey st neighbor = Normal st' ->
  heap_reachable (SearchState.openSet st').
Proof.
  intros Hreach. unfold relax.
  destruct (bool_decide _); [by intros [= <-]|].
  destruct (at_index2 _ _ _) as [terrain| |]; cbn [mbind completion_bind]; try done.
  destruct (ltb _ _); [|by intros [= <-]].
  destruct (BinaryHeap.push _ _) as [open'| |] eqn:Hpush; cbn [mbind completion_bind];
    try done.
  intros [= <-]. cbn. by eapply reachable_push.
Qed.

Lemma relax_all_reachable (current : Node.t) (currentKey : string)
    (neighbors : list Node.t) (st st' : SearchState.t) :
  heap_reachable (SearchState.openSet st) ->
  relax_all endX endY terrainMap current currentKey st neighbors = Normal st' ->
  heap_reachable (SearchState.openSet st').
Proof.
  revert st. induction neighbors as [|neighbor neighbors IH]; intros st Hreach.
  - by intros [= <-].
  - cbn [relax_all].
    destruct (relax _ _ _ _ _ _ _) as [st1| |] eqn:Hrelax; cbn [mbind completion_bind];
      try done.
    apply IH. by eapply relax_reachable.
Qed.

Lemma search_step_reachable (st st' : SearchState.t) :
  heap_reachable (SearchState.openSet st) ->
  search_step now endX endY terrainMap width height st = Normal (inr st') ->
  heap_reachable (SearchState.openSet st').
Proof.
  intros Hreach. unfold search_step.
  destruct (BinaryHeap.isEmpty _); [done|].
  destruct (BinaryHeap.pop _) as [[top open']| |] eqn:Hpop; cbn [mbind completion_bind];
    try done.
  assert (Hreach' : heap_reachable open') by by eapply reachable_pop.
  destruct top as [current|]; [|done].
  destruct (bool_decide _); [by intros [= <-]|].
  destruct (_ && _); [done|].
  destruct (getNeighbors _ _ _ _) as [neighbors| |]; cbn [mbind completion_bind];
    try done.
  destruct (relax_all _ _ _ _ _ _ _) as [st2| |] eqn:Hrelax; cbn [mbind completion_bind];
    try done.
  intros [= <-]. eapply relax_all_reachable; [|exact Hrelax]. exact Hreach'.
Qed.

Lemma search_reaches_reachable (startX startY : Z) (init st : SearchState.t) :
  initial_state startX startY endX endY = Normal init ->
  search_reaches (search_step now endX endY terrainMap width height) init st ->
  heap_reachable (SearchState.openSet st).
Proof.
  intros Hinit. induction 1 as [|st st' _ IH Hstep].
  - revert Hinit. unfold initial_state.
    destruct (BinaryHeap.push _ _) as [open| |] eqn:Hpush; cbn [mbind completion_bind];
      try done.
    intros [= <-]. cbn. eapply reachable_push; [apply reachable_empty|exact Hpush].
  - by eapply search_step_reachable.
Qed.
End OpenSetDuringSearch.

(** ** C10: the open set holds one entry per coordinate *)

(** C10.  For every number arithmetic:
    - two nodes have the same key exactly when they have the same
      coordinate;
    - every heap that a sequence of [push] and [pop] makes of the empty heap
      satisfies the invariant: the map binds exactly the keys of the nodes
      in the heap, each to the slot holding the node, and no two slots hold
      nodes of the same coordinate;
    - on a heap that satisfies the invariant, [swap] of two slots returns
      normally the heap with the nodes of the two slots exchanged, and it
      satisfies the invariant;
    - on a heap that satisfies the invariant, [push] returns normally a heap
      that satisfies it and whose entries are the pushed node and the
      entries of the other coordinates: a coordinate already present keeps
      one entry, the pushed node, and the number of entries does not
      change; a new coordinate adds one entry.  When the heap is in min-heap
      order on [f], over numbers that are ordered, the heap after [push] is
      in min-heap order again: the node went up when its [f] went down, and
      down when its [f] went up;
    - on a heap that satisfies the invariant, [pop] returns the node of slot
      0 and a heap that satisfies the invariant, whose entries are those of
      the heap but that node; on a heap in min-heap order no entry is below
      the node returned, and the heap stays in min-heap order;
    - the open set at the head of every round of the main loop of a search
      satisfies the invariant;
    - the numbers of IEEE binary64 other than [NaN] are ordered, and so are
      those of exact arithmetic. *)
Theorem open_set_invariant {N : Number} :
  (forall a b : Node.t,
     BinaryHeap.getKey a = BinaryHeap.getKey b
     <-> Node.x a = Node.x b /\ Node.y a = Node.y b)
  /\ (forall this, heap_reachable this -> heap_inv this /\ one_entry_per_coordinate this)
  /\ (forall this (i j : nat),
        heap_inv this ->
        (i < length (BinaryHeap.heap this))%nat ->
        (j < length (BinaryHeap.heap this))%nat ->
        exists this',
          BinaryHeap.swap i j this = Normal this' /\ heap_inv this'
          /\ forall k, BinaryHeap.heap this' !! k
                       = BinaryHeap.heap this !! (if decide (k = i) then j
                                                  else if decide (k = j) then i else k))
  /\ (forall this (node : Node.t),
        heap_inv this ->
        exists this',
          BinaryHeap.push node this = Normal this'
          /\ heap_inv this' /\ one_entry_per_coordinate this'
          /\ node ∈ BinaryHeap.heap this'
          /\ (forall n, n ∈ BinaryHeap.heap this'
                        <-> n = node
                            \/ (n ∈ BinaryHeap.heap this
                                /\ BinaryHeap.getKey n <> BinaryHeap.getKey node))
          /\ length (BinaryHeap.heap this')
             = (if BinaryHeap.has node this
                then length (BinaryHeap.heap this)
                else S (length (BinaryHeap.heap this)))
          /\ (forall ordered : num -> Prop,
                ordered_numbers ordered ->
                heap_ordered this -> heap_values ordered this ->
                ordered (Node.f node) ->
                heap_ordered this' /\ heap_values ordered this'))
  /\ (forall this,
        heap_inv this ->
        exists top this',
          BinaryHeap.pop this = Normal (top, this')
          /\ heap_inv this' /\ top = BinaryHeap.heap this !! 0%nat
          /\ length (BinaryHeap.heap this') = (length (BinaryHeap.heap this) - 1)%nat
          /\ (forall n, n ∈ BinaryHeap.heap this'
                        <-> n ∈ BinaryHeap.heap this /\ Some n <> top)
          /\ (forall ordered : num -> Prop,
                ordered_numbers ordered ->
                heap_ordered this -> heap_values ordered this ->
                heap_ordered this' /\ heap_values ordered this'
                /\ forall least node, top = Some least ->
                                      node ∈ BinaryHeap.heap this ->
                                      node_le least node))
  /\ (forall (now : nat -> num) (startX startY endX endY : Z)
             (terrainMap : list (list string)) (width height : Z)
             (init st : SearchState.t),
        initial_state startX startY endX endY = Normal init ->
        search_reaches (search_step now endX endY terrainMap width height) init st ->
        heap_inv (SearchState.openSet st)
        /\ one_entry_per_coordinate (SearchState.openSet st))
  /\ @ordered_numbers binary64 not_NaN
  /\ @ordered_numbers exact not_NaN.
Proof.
  split; [|split; [|split; [|split; [|split; [|split; [|split]]]]]].
  - intros a b. split; [apply coordKey_inj|].
    intros [Hx Hy]. by apply getKey_coordinates.
  - intros this Hreach. pose proof (heap_reachable_inv this Hreach) as Hinv.
    split; [done|by apply heap_inv_one_entry].
  - intros this i j Hinv Hi Hj.
    destruct (swap_ok this i j Hinv Hi Hj) as (this' & Hrun & Hinv' & _).
    exists this'. split; [done|]. split; [done|]. by apply swap_exchanges.
  - intros this node Hinv.
    destruct (push_ok node this Hinv) as (this' & Hrun & Hinv' & Hin & _ & Hlen).
    exists this'. split; [done|]. split; [done|].
    split; [by apply heap_inv_one_entry|]. split; [done|].
    split; [by apply push_entries|]. split.
    + rewrite Hlen. unfold BinaryHeap.has.
      destruct (BinaryHeap.nodeMap this !! BinaryHeap.getKey node) eqn:Hmap.
      * by rewrite bool_decide_eq_true_2.
      * rewrite bool_decide_eq_false_2; [done|]. by intros [? ?].
    + intros ordered Hlaws Hord Hvalues Hnode.
      exact (push_ordered ordered Hlaws node this this' Hinv Hord Hvalues Hnode Hrun).
  - intros this Hinv.
    destruct (pop_ok this Hinv) as (top & this' & Hrun & Hinv' & Htop & Hlen & _).
    exists top, this'. split; [done|]. split; [done|]. split; [done|].
    split; [done|]. split; [by apply pop_entries|].
    intros ordered Hlaws Hord Hvalues.
    exact (pop_ordered ordered Hlaws this this' top Hord Hvalues Hrun).
  - intros now startX startY endX endY terrainMap width height init st Hinit Hreach.
    pose proof (search_reaches_reachable now endX endY terrainMap width height
                  startX startY init st Hinit Hreach) as Hheap.
    apply heap_reachable_inv in Hheap. split; [done|by apply heap_inv_one_entry].
  - exact binary64_ordered.
  - exact exact_ordered.
Qed.

(** An open set in IEEE binary64: the cells (0,0), (1,0) and (2,0) are
    pushed with the costs 5, 3 and 4; then (0,0), which is present, is pushed
    again with the cost 1, which replaces its entry and moves it to the
    root; then [pop] returns it. *)
Lemma open_set_invariant_witness :
  exists h1 h2 h3 h4 h5 : @BinaryHeap.t binary64,
    BinaryHeap.push (example_node 0 5) BinaryHeap.empty = Normal h1
    /\ BinaryHeap.push (example_node 1 3) h1 = Normal h2
    /\ BinaryHeap.push (example_node 2 4) h2 = Normal h3
    /\ length (BinaryHeap.heap h3) = 3%nat
    /\ BinaryHeap.has (example_node 0 1) h3 = true
    /\ BinaryHeap.push (example_node 0 1) h3 = Normal h4
    /\ length (BinaryHeap.heap h4) = 3%nat
    /\ (example_node 0 5 ∉ BinaryHeap.heap h4)
    /\ heap_inv h4 /\ heap_ordered h4
    /\ BinaryHeap.pop h4 = Normal (Some (example_node 0 1), h5)
    /\ length (BinaryHeap.heap h5) = 2%nat
    /\ heap_inv h5 /\ heap_ordered h5.
Proof.
  destruct (@open_set_invariant binary64)
    as (Hkeys & _ & _ & Hpush & Hpop & _ & Hlaws & _).
  assert (Hhas : forall (this : @BinaryHeap.t binary64) node,
            heap_inv this ->
            BinaryHeap.has node this = true
            <-> exists n, n ∈ BinaryHeap.heap this
                          /\ BinaryHeap.getKey n = BinaryHeap.getKey node).
  { intros this node Hinv. unfold BinaryHeap.has. rewrite bool_decide_eq_true. split.
    - intros [i (n & Hn & Hkey)%Hinv]. exists n. split; [|done].
      apply list_elem_of_lookup. by exists i.
    - intros (n & [i Hi]%list_elem_of_lookup & Hkey). exists i. apply Hinv. by exists n. }
  assert (Hother : forall x1 f1 x2 f2, x1 <> x2 ->
            BinaryHeap.getKey (example_node x1 f1) <> BinaryHeap.getKey (example_node x2 f2)).
  { intros x1 f1 x2 f2 Hne [Hx _]%Hkeys. done. }
  assert (Hvalue : forall x f, @isNaN binary64 (ofZ f) = false ->
            @not_NaN binary64 (Node.f (example_node x f))) by by intros.
  assert (Hbelow : forall x1 x2 f1 f2,
            @leb binary64 (ofZ f1) (ofZ f2) = false ->
            ~ node_le (example_node x1 f1) (example_node x2 f2)).
  { intros x1 x2 f1 f2 Hleb. unfold node_le. cbn [Node.f example_node]. by rewrite Hleb. }
  (* the first push *)
  destruct (Hpush BinaryHeap.empty (example_node 0 5) heap_inv_empty)
    as (h1 & Hrun1 & Hinv1 & _ & _ & Hent1 & Hlen1 & Hord1).
  destruct (Hord1 not_NaN Hlaws) as [Ho1 Hv1];
    [by intros p c a b _ _ Ha|constructor|by apply Hvalue|].
  (* the second push *)
  destruct (Hpush h1 (example_node 1 3) Hinv1)
    as (h2 & Hrun2 & Hinv2 & _ & _ & Hent2 & Hlen2 & Hord2).
  destruct (Hord2 not_NaN Hlaws Ho1 Hv1) as [Ho2 Hv2]; [by apply Hvalue|].
  (* the third push *)
  destruct (Hpush h2 (example_node 2 4) Hinv2)
    as (h3 & Hrun3 & Hinv3 & _ & _ & Hent3 & Hlen3 & Hord3).
  destruct (Hord3 not_NaN Hlaws Ho2 Hv2) as [Ho3 Hv3]; [by apply Hvalue|].
  (* the entries so far *)
  assert (Hin1 : forall n, n ∈ BinaryHeap.heap h1 <-> n = example_node 0 5).
  { intros n. rewrite Hent1. cbn [BinaryHeap.heap BinaryHeap.empty]. split; [|by left].
    intros [-> | [Hn%elem_of_nil _]]; done. }
  assert (Hin2 : forall n, n ∈ BinaryHeap.heap h2
                           <-> n = example_node 1 3 \/ n = example_node 0 5).
  { intros n. rewrite Hent2, Hin1. split; [tauto|].
    intros [-> | ->]; [by left|right]. split; [done|]. by apply Hother. }
  assert (Hin3 : forall n, n ∈ BinaryHeap.heap h3
                           <-> n = example_node 2 4 \/ n = example_node 1 3
                               \/ n = example_node 0 5).
  { intros n. rewrite Hent3, Hin2. split; [tauto|].
    intros [-> | [-> | ->]]; [by left|right..]; (split; [tauto|]); by apply Hother. }
  assert (Hno1 : BinaryHeap.has (example_node 0 5) BinaryHeap.empty = false) by done.
  assert (Hno2 : BinaryHeap.has (example_node 1 3) h1 = false).
  { apply not_true_iff_false. rewrite Hhas by done.
    intros (n & ->%Hin1 & Hkey). by eapply Hother. }
  assert (Hno3 : BinaryHeap.has (example_node 2 4) h2 = false).
  { apply not_true_iff_false. rewrite Hhas by done.
    intros (n & [-> | ->]%Hin2 & Hkey); by eapply Hother. }
  assert (Hyes4 : BinaryHeap.has (example_node 0 1) h3 = true).
  { apply Hhas; [done|]. exists (example_node 0 5). split; [|done].
    apply Hin3. by right; right. }
  rewrite Hno1 in Hlen1. rewrite Hno2, Hlen1 in Hlen2. rewrite Hno3, Hlen2 in Hlen3.
  (* the push of a coordinate that is present *)
  destruct (Hpush h3 (example_node 0 1) Hinv3)
    as (h4 & Hrun4 & Hinv4 & _ & _ & Hent4 & Hlen4 & Hord4).
  destruct (Hord4 not_NaN Hlaws Ho3 Hv3) as [Ho4 Hv4]; [by apply Hvalue|].
  rewrite Hyes4, Hlen3 in Hlen4.
  assert (Hin4 : forall n, n ∈ BinaryHeap.heap h4
                           <-> n = example_node 0 1 \/ n = example_node 2 4
                               \/ n = example_node 1 3).
  { intros n. rewrite Hent4, Hin3. split.
    - intros [-> | [[-> | [-> | ->]] Hkey]]; tauto.
    - intros [-> | [-> | ->]]; [by left|right..]; (split; [tauto|]); by apply Hother. }
  (* the pop *)
  destruct (Hpop h4 Hinv4) as (top & h5 & Hrun5 & Hinv5 & Htop & Hlen5 & _ & Hord5).
  destruct (Hord5 not_NaN Hlaws Ho4 Hv4) as (Ho5 & _ & Hleast).
  destruct (lookup_lt_is_Some_2 (BinaryHeap.heap h4) 0) as [least Hroot]; [lia|].
  rewrite Hroot in Htop. subst top.
  assert (Hleast' : node_le least (example_node 0 1)).
  { apply Hleast; [done|]. apply Hin4. by left. }
  assert (least = example_node 0 1) as ->.
  { apply list_elem_of_lookup_2, Hin4 in Hroot as [-> | [-> | ->]]; [done|exfalso..];
      revert Hleast'; by apply Hbelow. }
  exists h1, h2, h3, h4, h5.
  split; [exact Hrun1|]. split; [exact Hrun2|]. split; [exact Hrun3|].
  split; [exact Hlen3|]. split; [exact Hyes4|]. split; [exact Hrun4|].
  split; [exact Hlen4|]. split.
  { by intros [Heq | [Heq | Heq]]%Hin4. }
  split; [exact Hinv4|]. split; [exact Ho4|]. split; [exact Hrun5|].
  split; [rewrite Hlen5, Hlen4; reflexivity|]. by split.
Defined.

(** ** C9: [findPath] is deterministic *)

(** C9.  For every number arithmetic, every grid and every pair of
    endpoints, two calls of [findPath] that differ in nothing but the
    readings of the clock end alike: on a grid with no rows both throw the
    same exception; on every other grid both return a result, and the two
    results have the same path, the same distance and the same success
    flag.  Only the elapsed time depends on the clock. *)
Theorem findPath_deterministic {N : Number} (now1 now2 : nat -> num)
    (startX startY endX endY : Z) (terrainMap : list (list string)) :
  contract_of (findPath now1 startX startY endX endY terrainMap)
  = contract_of (findPath now2 startX startY endX endY terrainMap)
  /\ ((terrainMap = []
       /\ findPath now1 startX startY endX endY terrainMap = Throw TypeError
       /\ findPath now2 startX startY endX endY terrainMap = Throw TypeError)
      \/ exists r1 r2,
           findPath now1 startX startY endX endY terrainMap = Normal r1
           /\ findPath now2 startX startY endX endY terrainMap = Normal r2
           /\ PathResult.path r1 = PathResult.path r2
           /\ PathResult.distance r1 = PathResult.distance r2
           /\ PathResult.success r1 = PathResult.success r2).
Proof.
  pose proof (findPath_clock now1 now2 startX startY endX endY terrainMap) as Hclock.
  split; [exact Hclock|].
  destruct terrainMap as [|row0 rest]; [left; by repeat split|right].
  destruct (findPath_total now1 startX startY endX endY (row0 :: rest)) as [r1 Hr1];
    [done|].
  destruct (findPath_total now2 startX startY endX endY (row0 :: rest)) as [r2 Hr2];
    [done|].
  exists r1, r2. rewrite Hr1, Hr2 in Hclock |- *.
  unfold contract_of, contract in Hclock. cbn in Hclock.
  injection Hclock as Hpath Hdistance Hsuccess. by repeat split.
Qed.

(** ** C1: the heuristic and the cost of a diagonal move *)

Lemma exact_getHeuristic (a b : @Node.t exact) :
  @getHeuristic exact a b
  = Exact.Fin (R_sqrt.sqrt ((IZR (Node.x a) - IZR (Node.x b)) ^ 2
                            + (IZR (Node.y a) - IZR (Node.y b)) ^ 2)).
Proof.
  unfold getHeuristic. exact_arith.
  set (dx := (IZR (Node.x a) + - IZR (Node.x b))%R).
  set (dy := (IZR (Node.y a) + - IZR (Node.y b))%R).
  assert (Hsq : (Rabs dx * Rabs dx + Rabs dy * Rabs dy
                 = (IZR (Node.x a) - IZR (Node.x b)) ^ 2
                   + (IZR (Node.y a) - IZR (Node.y b)) ^ 2)%R).
  { rewrite <- !Rabs_mult, !Rabs_right by nra. unfold dx, dy. ring. }
  rewrite Hsq.
  replace (Exact.Rltb _ 0) with false; [reflexivity|].
  symmetry. apply Rltb_false. nra.
Qed.

Lemma sqrt2_above_literal : (1.414 < R_sqrt.sqrt 2)%R.
Proof.
  pose proof (sqrt_sqrt 2) as Hsq. pose proof (sqrt_pos 2) as Hpos.
  destruct (Rlt_dec 1.414 (R_sqrt.sqrt 2)) as [|Hn]; [done|]. nra.
Qed.

(** *** What the heuristic bounds, for a diagonal multiplier [m] *)


(** In exact arithmetic the cost of a terrain is infinite, or finite and
    at least 1. *)
Lemma exact_cost_cases (terrain : string) :
  @getTerrainCost exact terrain = Exact.PInf
  \/ exists c, @getTerrainCost exact terrain = Exact.Fin c /\ (1 <= c)%R.
Proof.
  unfold getTerrainCost, TERRAIN_DEFINITIONS. cbn [prop].
  repeat (destruct (decide _);
          [cbn [TerrainDefinition.cost]; first [by left | right; eexists; split;
             [reflexivity|cbn; lra]]|]).
  right. eexists. split; [reflexivity|cbn; lra].
Qed.

Lemma move_cases (from to : Z * Z) :
  is_move from to ->
  exists dx dy : Z,
    to = (from.1 + dx, from.2 + dy)
    /\ ((Z.abs dx = 1 /\ Z.abs dy = 1)
        \/ (Z.abs dx = 1 /\ dy = 0) \/ (dx = 0 /\ Z.abs dy = 1)).
Proof.
  unfold is_move, DIRECTIONS. destruct from as [fx fy], to as [tx ty]. cbn [fst snd].
  intros Hin. exists (tx - fx), (ty - fy). split; [f_equal; lia|].
  apply list_elem_of_In in Hin. cbn in Hin.
  repeat (destruct Hin as [Hin | Hin]; [injection Hin as <- <-; cbn; lia|]). done.
Qed.

Section Admissibility.
Variable m : R.
Hypothesis m_positive : (0 < m)%R.

Let k : R := Rmin 1 (m / R_sqrt.sqrt 2).

Lemma scale_bounds : (0 < k <= 1)%R /\ (k * R_sqrt.sqrt 2 <= m)%R.
Proof using m_positive.
  pose proof (sqrt_lt_R0 2 ltac:(lra)) as Hs.
  assert (0 < m / R_sqrt.sqrt 2)%R by (apply Rdiv_lt_0_compat; lra).
  unfold k, Rmin. destruct (Rle_dec 1 (m / R_sqrt.sqrt 2)) as [Hle | Hgt].
  - split; [lra|].
    apply (Rmult_le_compat_r (R_sqrt.sqrt 2)) in Hle; [|lra].
    unfold Rdiv in Hle. rewrite Rmult_assoc, Rinv_l in Hle by lra. lra.
  - split; [lra|]. unfold Rdiv. rewrite Rmult_assoc, Rinv_l by lra. lra.
Qed.

(** A move costs at least [k] times its length. *)
Lemma move_cost_bound (terrainMap : list (list string)) (from to : Z * Z) :
  is_move from to -> ~ @impassable exact terrainMap to.1 to.2 ->
  exists s,
    @movementCost_with exact (Exact.Fin m) (terrainCostAt terrainMap to.1 to.2)
       (node_at from) (node_at to) = Exact.Fin s
    /\ (k * dist_euc (IZR from.1) (IZR from.2) (IZR to.1) (IZR to.2) <= s)%R.
Proof using m_positive.
  intros Hmove Hpass.
  destruct scale_bounds as [[Hk0 Hk1] Hkm].
  destruct (move_cases from to Hmove) as (dx & dy & -> & Hd).
  unfold impassable in Hpass. unfold movementCost_with, terrainCostAt in *.
  cbn [fst snd node_at Node.x Node.y] in *.
  destruct (exact_cost_cases (prop_key (cell_at terrainMap (from.1 + dx) (from.2 + dy))))
    as [Hinf | (c & Hc & Hc1)].
  { exfalso. apply Hpass. by rewrite Hinf. }
  rewrite Hc.
  replace (from.1 + dx - from.1) with dx by lia.
  replace (from.2 + dy - from.2) with dy by lia.
  unfold dist_euc. rewrite !plus_IZR.
  assert (Hsq : forall a d : R, (Rsqr (a - (a + d)) = d * d)%R)
    by (intros; unfold Rsqr; ring).
  rewrite !Hsq.
  assert (Habs : forall d : Z, Z.abs d = 1 -> (IZR d * IZR d = 1)%R).
  { intros d Hd1. rewrite <- mult_IZR. replace (d * d) with 1 by lia. done. }
  destruct Hd as [[Hx Hy] | [[Hx ->] | [-> Hy]]].
  - rewrite Hx, Hy. cbn [Z.eqb Pos.eqb andb]. exact_arith.
    eexists. split; [reflexivity|].
    rewrite !Habs by done. replace (1 + 1)%R with 2%R by ring. nra.
  - rewrite Hx. cbn [Z.abs Z.eqb Pos.eqb andb].
    eexists. split; [reflexivity|].
    rewrite (Habs dx) by done. replace (1 + 0 * 0)%R with 1%R by ring.
    rewrite sqrt_1. nra.
  - cbn [Z.abs Z.eqb andb]. eexists. split; [reflexivity|].
    rewrite (Habs dy) by done. replace (0 * 0 + 1)%R with 1%R by ring.
    rewrite sqrt_1. nra.
Qed.

(** The cost of a path is at least [k] times the distance it covers. *)
Lemma path_cost_bound (terrainMap : list (list string)) (steps : list (Z * Z))
    (from goal : Z * Z) (g : R) :
  @is_path exact terrainMap from steps goal ->
  exists c,
    @path_cost_from_with exact (Exact.Fin m) terrainMap (Exact.Fin g) from steps
    = Exact.Fin c
    /\ (g + k * dist_euc (IZR from.1) (IZR from.2) (IZR goal.1) (IZR goal.2) <= c)%R.
Proof using m_positive.
  destruct scale_bounds as [[Hk0 Hk1] Hkm].
  revert from g. induction steps as [|to rest IH]; intros from g Hpath.
  - cbn in Hpath. subst goal. exists g. split; [reflexivity|].
    unfold dist_euc. rewrite !Rminus_diag, Rsqr_0, Rplus_0_r, sqrt_0. lra.
  - cbn [is_path] in Hpath. destruct Hpath as (Hmove & _ & Hpass & Hrest).
    cbn [path_cost_from_with].
    destruct (move_cost_bound terrainMap from to Hmove Hpass) as (s & -> & Hs).
    exact_arith.
    destruct (IH to (g + s)%R Hrest) as (c & Hc & Hbound).
    exists c. split; [exact Hc|].
    pose proof (triangle (IZR from.1) (IZR from.2) (IZR goal.1) (IZR goal.2)
                  (IZR to.1) (IZR to.2)) as Htri.
    nra.
Qed.
End Admissibility.

(** With a diagonal multiplier of at least the square root of 2, the
    heuristic is admissible in exact arithmetic: it never exceeds the cost
    of a path to the goal. *)
Lemma heuristic_admissible_from_sqrt2 (m : R) (terrainMap : list (list string))
    (from goal : Z * Z) (steps : list (Z * Z)) :
  (R_sqrt.sqrt 2 <= m)%R ->
  @is_path exact terrainMap from steps goal ->
  @leb exact (getHeuristic (node_at from) (node_at goal))
    (@path_cost_from_with exact (Exact.Fin m) terrainMap (ofZ 0) from steps) = true.
Proof.
  intros Hm Hpath.
  pose proof (sqrt_lt_R0 2 ltac:(lra)) as Hs.
  destruct (path_cost_bound m ltac:(lra) terrainMap steps from goal 0 Hpath)
    as (c & Hc & Hbound).
  cbn [ofZ exact]. rewrite Hc, exact_getHeuristic.
  assert (Hk : Rmin 1 (m / R_sqrt.sqrt 2) = 1%R).
  { apply Rmin_left. apply (Rmult_le_reg_r (R_sqrt.sqrt 2)); [done|].
    unfold Rdiv. rewrite Rmult_assoc, Rinv_l by lra. lra. }
  rewrite Hk in Hbound. unfold dist_euc in Hbound.
  cbn [node_at Node.x Node.y].
  replace ((IZR from.1 - IZR goal.1) ^ 2 + (IZR from.2 - IZR goal.2) ^ 2)%R
    with (Rsqr (IZR from.1 - IZR goal.1) + Rsqr (IZR from.2 - IZR goal.2))%R
    by (unfold Rsqr; ring).
  exact_arith. apply orb_true_iff.
  destruct (Rlt_dec (R_sqrt.sqrt (Rsqr (IZR from.1 - IZR goal.1)
                                  + Rsqr (IZR from.2 - IZR goal.2))) c) as [Hlt | Hnlt].
  - left. by apply Rltb_true.
  - right. apply Reqb_true. lra.
Qed.

(** C1 at its failing input.  On the 2 by 2 grid of land, the move from
    (0,0) to (1,1) is a path of cost 1 * 1.414, and the heuristic of (0,0)
    for the goal (1,1) is the square root of 2, which is greater, under IEEE
    binary64 and under exact arithmetic; [findPath] returns that path with
    the distance 1.414.  So the heuristic is not admissible on this grid. *)
Theorem heuristic_exceeds_diagonal_cost :
  (exists r,
     @findPath binary64 (fun _ => 0%float) 0 0 1 1 land2 = Normal r
     /\ PathResult.success r = true
     /\ PathResult.distance r = @path_cost binary64 land2 (0, 0) [(1, 1)]
     /\ @ltb binary64 (PathResult.distance r)
          (@getHeuristic binary64 (node_at (0, 0)) (node_at (1, 1))) = true)
  /\ @is_path binary64 land2 (0, 0) [(1, 1)] (1, 1)
  /\ @ltb exact (@path_cost exact land2 (0, 0) [(1, 1)])
       (@getHeuristic exact (node_at (0, 0)) (node_at (1, 1))) = true
  /\ ~ @admissible_on binary64 land2
  /\ ~ @admissible_on exact land2.
Proof.
  assert (Hpath : forall N : Number,
            (@eqb N (ofZ 1) Infinity = false) ->
            @is_path N land2 (0, 0) [(1, 1)] (1, 1)).
  { intros N Hfin. cbn. split; [|split; [|split]].
    - unfold is_move. apply list_elem_of_In. cbn. tauto.
    - unfold in_bounds, grid_width, grid_height, land2. cbn. lia.
    - unfold impassable. change (eqb (ofZ 1) Infinity <> true). by rewrite Hfin.
    - reflexivity. }
  assert (Hexact : @ltb exact (@path_cost exact land2 (0, 0) [(1, 1)])
                     (@getHeuristic exact (node_at (0, 0)) (node_at (1, 1))) = true).
  { rewrite exact_getHeuristic.
    unfold path_cost, path_cost_from, movementCost, terrainCostAt. cbn -[ofQ].
    rewrite exact_ofQ. exact_arith. apply Rltb_true.
    replace (R_sqrt.sqrt _) with (R_sqrt.sqrt 2) by (f_equal; ring).
    pose proof sqrt2_above_literal. lra. }
  split; [|split; [|split; [|split]]].
  - assert (Hrun : match @findPath binary64 (fun _ => 0%float) 0 0 1 1 land2 with
                   | Normal r =>
                       Some (PathResult.success r, PathResult.distance r,
                             @ltb binary64 (PathResult.distance r)
                               (@getHeuristic binary64 (node_at (0, 0)) (node_at (1, 1))))
                   | _ => None
                   end = Some (true, @path_cost binary64 land2 (0, 0) [(1, 1)], true))
      by (vm_compute; reflexivity).
    destruct (@findPath binary64 (fun _ => 0%float) 0 0 1 1 land2) as [r| |];
      [|discriminate..].
    injection Hrun as Hsuccess Hdistance Hless.
    exists r. by repeat split.
  - apply Hpath. reflexivity.
  - exact Hexact.
  - intros Hadm.
    specialize (Hadm (0, 0) (1, 1) [(1, 1)]).
    assert (@leb binary64 (getHeuristic (node_at (0, 0)) (node_at (1, 1)))
              (path_cost land2 (0, 0) [(1, 1)]) = false) as Hfalse
      by (vm_compute; reflexivity).
    rewrite Hadm in Hfalse; [done| | |].
    + unfold in_bounds, grid_width, grid_height, land2. cbn. lia.
    + unfold impassable. vm_compute. discriminate.
    + apply Hpath. reflexivity.
  - intros Hadm.
    specialize (Hadm (0, 0) (1, 1) [(1, 1)]).
    assert (Hfin : @eqb exact (ofZ 1) Infinity = false) by reflexivity.
    assert (exists c, @path_cost exact land2 (0, 0) [(1, 1)] = Exact.Fin c)
      as [c Hcost].
    { eexists. unfold path_cost, path_cost_from, movementCost, terrainCostAt.
      cbn -[ofQ]. rewrite exact_ofQ. reflexivity. }
    revert Hexact. rewrite exact_getHeuristic in Hadm |- *. rewrite Hcost in Hadm |- *.
    intros Hlt. apply Rltb_true in Hlt.
    assert (Hle : @leb exact (Exact.Fin (R_sqrt.sqrt ((IZR (Node.x (@node_at exact (0, 0)))
                     - IZR (Node.x (@node_at exact (1, 1)))) ^ 2
                    + (IZR (Node.y (@node_at exact (0, 0)))
                       - IZR (Node.y (@node_at exact (1, 1)))) ^ 2)))
                    (Exact.Fin c) = true).
    { apply Hadm.
      - unfold in_bounds, grid_width, grid_height, land2. cbn. lia.
      - unfold impassable. change (@eqb exact (ofZ 1) Infinity <> true). by rewrite Hfin.
      - exact (Hpath exact Hfin). }
    revert Hle. exact_arith. intros [Hle | Hle]%orb_true_iff.
    + apply Rltb_true in Hle. lra.
    + apply Reqb_true in Hle. lra.
Qed.

(** * Further properties of the code *)

(** ** The neighbours of a node *)

Lemma at_index2_cell {A : Type} (a : list (list A)) (i j : Z) (v : option A) :
  at_index2 a i j = Normal v -> v = (row ← at_index a i; at_index row j).
Proof.
  unfold at_index2. destruct (at_index a i) as [row|]; [|done].
  by intros [= <-].
Qed.

Lemma elem_of_List_filter {A : Type} (f : A -> bool) (l : list A) (x : A) :
  x ∈ List.filter f l <-> x ∈ l /\ f x = true.
Proof. by rewrite !list_elem_of_In, filter_In. Qed.

Section Neighbours.
Context {N : Number}.
Variables (terrainMap : list (list string)) (width height : Z).

(** The loop of [getNeighbors] is a filter: when it returns, it has added
    the nodes of the offsets that pass the test, in order. *)
Lemma getNeighbors_from_filter (directions : list (Z * Z)) (node : Node.t)
    (neighbors all : list Node.t) :
  getNeighbors_from directions node terrainMap width height neighbors = Normal all ->
  all = neighbors
        ++ (neighbour_node node
              <$> List.filter (open_cell terrainMap width height node) directions).
Proof.
  revert neighbors. induction directions as [|[dx dy] directions IH];
    intros neighbors Hrun.
  - cbn in Hrun. injection Hrun as <-. cbn. by rewrite app_nil_r.
  - cbn [getNeighbors_from] in Hrun. cbn [List.filter].
    unfold open_cell at 1. cbn [fst snd].
    destruct (out_of_bounds _ _ width height) eqn:Hout; cbn [negb andb].
    { by apply IH. }
    destruct (at_index2 terrainMap _ _) as [terrain| |] eqn:Hcell; [|done..].
    apply at_index2_cell in Hcell. subst terrain.
    cbn [mbind completion_bind] in Hrun. unfold terrainCostAt, cell_at.
    destruct (eqb _ Infinity); cbn [negb].
    { by apply IH. }
    apply IH in Hrun. rewrite Hrun, <- app_assoc. reflexivity.
Qed.
End Neighbours.

Lemma open_cell_spec {N : Number} (terrainMap : list (list string)) (node : Node.t)
    (d : Z * Z) :
  open_cell terrainMap (grid_width terrainMap) (grid_height terrainMap) node d = true
  <-> in_bounds terrainMap (Node.x node + d.1) (Node.y node + d.2)
      /\ ~ impassable terrainMap (Node.x node + d.1) (Node.y node + d.2).
Proof.
  unfold open_cell, in_bounds, impassable.
  rewrite andb_true_iff, !negb_true_iff, out_of_bounds_spec, not_true_iff_false.
  done.
Qed.

Lemma getNeighbors_moves {N : Number} (node : Node.t) (terrainMap : list (list string))
    (neighbors : list Node.t) :
  getNeighbors node terrainMap (grid_width terrainMap) (grid_height terrainMap)
  = Normal neighbors ->
  forall n, n ∈ neighbors ->
    is_move (coords node) (coords n)
    /\ in_bounds terrainMap (Node.x n) (Node.y n)
    /\ ~ impassable terrainMap (Node.x n) (Node.y n).
Proof.
  intros Hrun%getNeighbors_from_filter n Hn. cbn [app] in Hrun. subst neighbors.
  apply list_elem_of_fmap in Hn as (d & -> & [Hd Hopen]%elem_of_List_filter).
  apply open_cell_spec in Hopen. split; [|exact Hopen].
  unfold is_move, coords, neighbour_node. cbn [fst snd Node.x Node.y].
  replace (Node.x node + d.1 - Node.x node, Node.y node + d.2 - Node.y node)
    with d by (destruct d; cbn; f_equal; lia).
  exact Hd.
Qed.

(** X1.  Called with the dimensions of the grid, as [findPath] calls it,
    [getNeighbors] returns normally, and returns at most 8 nodes: one for
    each offset of [DIRECTIONS], in that order, whose cell is on the grid and
    passable.  So a coordinate is that of a returned node exactly when it is
    one move away from the node, on the grid and passable; and every returned
    node has the node as its parent and 0 for [g], [h] and [f]. *)
Theorem getNeighbors_open_cells {N : Number} (node : Node.t)
    (terrainMap : list (list string)) :
  exists neighbors,
    getNeighbors node terrainMap (grid_width terrainMap) (grid_height terrainMap)
    = Normal neighbors
    /\ neighbors
       = neighbour_node node
           <$> List.filter (open_cell terrainMap (grid_width terrainMap)
                              (grid_height terrainMap) node) DIRECTIONS
    /\ (length neighbors <= 8)%nat
    /\ (forall to : Z * Z,
          (exists n, n ∈ neighbors /\ coords n = to)
          <-> is_move (coords node) to /\ in_bounds terrainMap to.1 to.2
              /\ ~ impassable terrainMap to.1 to.2)
    /\ (forall n, n ∈ neighbors ->
          Node.parent n = Some node
          /\ Node.g n = ofZ 0 /\ Node.h n = ofZ 0 /\ Node.f n = ofZ 0).
Proof.
  destruct (getNeighbors_ok terrainMap (grid_width terrainMap) (grid_height terrainMap)
              eq_refl node) as (neighbors & Hrun & Hcount & _).
  exists neighbors. split; [exact Hrun|]. pose proof Hrun as Hrun'.
  apply getNeighbors_from_filter in Hrun. cbn [app] in Hrun.
  split; [exact Hrun|]. split; [exact Hcount|]. split.
  - intros [tx ty]. split.
    + intros (n & Hn & Hto).
      destruct (getNeighbors_moves node terrainMap _ Hrun' n Hn) as (Hmove & Hopen).
      unfold coords in Hto at 1. injection Hto as <- <-. by split.
    + intros (Hmove & Hopen). unfold is_move, coords in Hmove. cbn [fst snd] in *.
      exists (neighbour_node node (tx - Node.x node, ty - Node.y node)). split.
      * rewrite Hrun. apply list_elem_of_fmap. eexists. split; [reflexivity|].
        apply elem_of_List_filter. split; [exact Hmove|].
        apply open_cell_spec. cbn [fst snd].
        by replace (Node.x node + (tx - Node.x node)) with tx by lia;
           replace (Node.y node + (ty - Node.y node)) with ty by lia.
      * unfold coords, neighbour_node. cbn. f_equal; lia.
  - rewrite Hrun. intros n (d & -> & _)%list_elem_of_fmap. by repeat split.
Qed.

Lemma getNeighbors_open_cells_witness :
  exists neighbors,
    @getNeighbors binary64 (example_node 0 0) land2 (grid_width land2) (grid_height land2)
    = Normal neighbors
    /\ exists n, n ∈ neighbors /\ coords n = (1, 1).
Proof.
  destruct (@getNeighbors_open_cells binary64 (example_node 0 0) land2)
    as (neighbors & Hrun & _ & _ & Hcells & _).
  exists neighbors. split; [exact Hrun|]. apply Hcells. split; [|split].
  - unfold is_move, DIRECTIONS. cbn. do 7 right. left.
  - unfold in_bounds, grid_width, grid_height, land2. cbn [fst snd length]. lia.
  - unfold impassable. intros Hcost. vm_compute in Hcost. discriminate Hcost.
Defined.

(** ** The route that [findPath] returns *)

Section Routes.
Context {N : Number}.
Variable terrainMap : list (list string).

Lemma is_path_snoc (from mid to : Z * Z) (steps : list (Z * Z)) :
  is_path terrainMap from steps mid ->
  is_move mid to -> in_bounds terrainMap to.1 to.2 -> ~ impassable terrainMap to.1 to.2 ->
  is_path terrainMap from (steps ++ [to]) to.
Proof.
  revert from. induction steps as [|s steps IH]; intros from Hpath Hmove Hin Hpass.
  - cbn [is_path] in Hpath. subst mid. cbn [is_path app].
    split; [done|]. split; [done|]. by split.
  - cbn [is_path app] in *. destruct Hpath as (Hm & Hi & Hp & Hrest).
    split; [done|]. split; [done|]. split; [done|]. by apply IH.
Qed.

Variable start : Z * Z.

(** A node made for a passable cell one move away from a node with a
    route, with that node as its parent, has a route. *)
Lemma route_extend (current : Node.t) (x y : Z) (g h f : num) :
  is_route terrainMap start (coords current) (rev (parent_chain current)) ->
  is_move (coords current) (x, y) ->
  in_bounds terrainMap x y -> ~ impassable terrainMap x y ->
  is_route terrainMap start (x, y)
    (rev (parent_chain (Node.Build x y g h f (Some current)))).
Proof.
  intros (steps & Hcoords & Hpath) Hmove Hin Hpass.
  exists (steps ++ [(x, y)]). split.
  - cbn [parent_chain rev]. rewrite fmap_app, Hcoords. reflexivity.
  - by apply (is_path_snoc start (coords current)).
Qed.

Variables (endX endY : Z).

Lemma relax_route (current : Node.t) (currentKey : string) (st st' : SearchState.t)
    (neighbor : Node.t) :
  route_inv terrainMap start st ->
  is_route terrainMap start (coords current) (rev (parent_chain current)) ->
  is_move (coords current) (coords neighbor) ->
  in_bounds terrainMap (Node.x neighbor) (Node.y neighbor) ->
  ~ impassable terrainMap (Node.x neighbor) (Node.y neighbor) ->
  relax endX endY terrainMap current currentKey st neighbor = Normal st' ->
  route_inv terrainMap start st'.
Proof.
  intros [Hinv Hroutes] Hcurrent Hmove Hin Hpass. unfold relax.
  destruct (bool_decide _); [by intros [= <-]|].
  destruct (at_index2 terrainMap _ _) as [terrain| |]; [|done..].
  cbn [mbind completion_bind].
  destruct (ltb _ _); [|by intros [= <-]].
  match goal with |- context [BinaryHeap.push ?n ?h] =>
    destruct (push_ok n h Hinv) as (open' & -> & Hinv' & _ & Hsub' & _)
  end.
  cbn [mbind completion_bind]. intros [= <-].
  split; [exact Hinv'|]. cbn [SearchState.openSet].
  intros node Hnode. destruct (Hsub' node Hnode) as [-> | Hold]; [|by apply Hroutes].
  by apply route_extend.
Qed.

Lemma relax_all_route (current : Node.t) (currentKey : string)
    (neighbors : list Node.t) (st st' : SearchState.t) :
  route_inv terrainMap start st ->
  is_route terrainMap start (coords current) (rev (parent_chain current)) ->
  (forall n, n ∈ neighbors ->
     is_move (coords current) (coords n)
     /\ in_bounds terrainMap (Node.x n) (Node.y n)
     /\ ~ impassable terrainMap (Node.x n) (Node.y n)) ->
  relax_all endX endY terrainMap current currentKey st neighbors = Normal st' ->
  route_inv terrainMap start st'.
Proof.
  revert st. induction neighbors as [|neighbor neighbors IH];
    intros st Hinv Hcurrent Hall; [by intros [= <-]|].
  cbn [relax_all].
  destruct (relax endX endY terrainMap current currentKey st neighbor) as [st1| |] eqn:Hrelax;
    [|done..].
  cbn [mbind completion_bind]. intros Hrest.
  destruct (Hall neighbor) as (Hmove & Hin & Hpass); [left|].
  apply (IH st1); [|done| |done].
  - by eapply relax_route.
  - intros n Hn. apply Hall. by right.
Qed.

Variable now : nat -> num.
Hypothesis start_open :
  in_bounds terrainMap start.1 start.2 /\ ~ impassable terrainMap start.1 start.2.
Hypothesis goal_open :
  in_bounds terrainMap endX endY /\ ~ impassable terrainMap endX endY.

Lemma last_rev_parent_chain (node : Node.t) :
  last (rev (parent_chain node)) = Some node.
Proof. destruct node. cbn [parent_chain rev]. by rewrite last_snoc. Qed.

(** A round of the main loop keeps the routes of the open set, and a
    result it returns is a result for the endpoints. *)
Lemma search_step_route (st : SearchState.t) :
  route_inv terrainMap start st ->
  match search_step now endX endY terrainMap
          (grid_width terrainMap) (grid_height terrainMap) st with
  | Normal (inl result) => route_result terrainMap start (endX, endY) result
  | Normal (inr st') => route_inv terrainMap start st'
  | _ => True
  end.
Proof using start_open goal_open.
  intros [Hinv Hroutes]. unfold search_step.
  destruct (BinaryHeap.isEmpty _); [by split|].
  destruct (pop_ok (SearchState.openSet st) Hinv)
    as (top & open' & -> & Hinv' & Htop & _ & Hsub').
  cbn [mbind completion_bind].
  destruct top as [current|]; [|done].
  assert (Hcurrent : is_route terrainMap start (coords current) (rev (parent_chain current))).
  { apply Hroutes. symmetry in Htop. by apply list_elem_of_lookup_2 in Htop. }
  assert (Hroutes' : forall node, node ∈ BinaryHeap.heap open' ->
            is_route terrainMap start (coords node) (rev (parent_chain node))).
  { intros node Hnode. by apply Hroutes, Hsub'. }
  destruct (bool_decide _); [by split|].
  destruct ((Node.x current =? endX) && (Node.y current =? endY)) eqn:Hgoal.
  - apply andb_true_iff in Hgoal as [Hx%Z.eqb_eq Hy%Z.eqb_eq].
    assert (Hcoords : coords current = (endX, endY)) by (unfold coords; congruence).
    rewrite Hcoords in Hcurrent.
    unfold route_result. cbn [PathResult.success PathResult.path PathResult.distance fst snd].
    destruct start_open as [Hs1 Hs2], goal_open as [Hg1 Hg2].
    split; [exact Hs1|]. split; [exact Hs2|]. split; [exact Hg1|]. split; [exact Hg2|].
    split; [exact Hcurrent|].
    exists current. by rewrite last_rev_parent_chain.
  - destruct (getNeighbors_ok terrainMap (grid_width terrainMap) (grid_height terrainMap)
                eq_refl current) as (neighbors & Hneighbors & _).
    rewrite Hneighbors. cbn [mbind completion_bind].
    match goal with |- context [relax_all _ _ _ _ _ ?s _] =>
      destruct (relax_all endX endY terrainMap current
                  (coordKey (Node.x current) (Node.y current)) s neighbors)
        as [st2| |] eqn:Hrelax
    end; [|done..].
    cbn [mbind completion_bind].
    eapply relax_all_route; [|exact Hcurrent| |exact Hrelax]; [by split|].
    by apply getNeighbors_moves.
Qed.
Lemma search_route (fuel : nat) (st : SearchState.t) (result : PathResult.t) :
  route_inv terrainMap start st ->
  search now endX endY terrainMap (grid_width terrainMap) (grid_height terrainMap) fuel st
  = Normal result ->
  route_result terrainMap start (endX, endY) result.
Proof using start_open goal_open.
  revert st. induction fuel as [|fuel IH]; intros st Hinv; [done|].
  cbn [search]. pose proof (search_step_route st Hinv) as Hstep.
  destruct (search_step _ _ _ _ _ _ st) as [[r | st']| |]; [| |done..];
    cbn [mbind completion_bind].
  - by intros [= <-].
  - by apply IH.
Qed.
End Routes.

Lemma initial_state_route {N : Number} (terrainMap : list (list string))
    (startX startY endX endY : Z) (st : SearchState.t) :
  initial_state startX startY endX endY = Normal st ->
  route_inv terrainMap (startX, startY) st.
Proof.
  unfold initial_state.
  match goal with |- context [BinaryHeap.push ?n BinaryHeap.empty] =>
    destruct (push_ok n BinaryHeap.empty heap_inv_empty)
      as (open & -> & Hinv & _ & Hsub & _)
  end.
  cbn [mbind completion_bind]. intros [= <-]. split; [exact Hinv|].
  cbn [SearchState.openSet]. intros node Hnode.
  destruct (Hsub node Hnode) as [-> | Hnil]; [|by apply elem_of_nil in Hnil].
  exists []. by split.
Qed.

(** X2.  [findPath] returns a route or a failure.  On a grid with no
    rows it throws; on every other grid it returns a result, and
    - a result with [success = true] carries a path that begins at the
      start, ends at the goal and goes from each node to the next by one of
      the 8 moves, every node on the grid and on a passable cell, and its
      distance is the [g] of the last node of the path;
    - a result with [success = false] carries the empty path and the
      distance 0. *)
Theorem findPath_returns_route {N : Number} (now : nat -> num)
    (startX startY endX endY : Z) (terrainMap : list (list string)) :
  match findPath now startX startY endX endY terrainMap with
  | Normal result => route_result terrainMap (startX, startY) (endX, endY) result
  | Throw msg => terrainMap = [] /\ msg = TypeError
  | OutOfFuel => False
  end.
Proof.
  destruct terrainMap as [|row0 rest]; [by split|].
  destruct (findPath_total now startX startY endX endY (row0 :: rest)) as [result Hrun];
    [done|].
  rewrite Hrun. revert Hrun.
  unfold findPath. cbn [lookup list_lookup mbind completion_bind].
  change (Z.of_nat (length row0)) with (grid_width (row0 :: rest)).
  change (Z.of_nat (length (row0 :: rest))) with (grid_height (row0 :: rest)).
  set (terrainMap := row0 :: rest).
  destruct (out_of_bounds startX startY _ _) eqn:Hs; cbn [orb]; [by intros [= <-]|].
  destruct (out_of_bounds endX endY _ _) eqn:He; cbv iota; [by intros [= <-]|].
  apply out_of_bounds_spec in Hs, He.
  rewrite !at_index2_in_range by (unfold grid_height in *; lia).
  cbn [mbind completion_bind].
  destruct (eqb _ Infinity) eqn:Hstart; cbn [mbind completion_bind]; [by intros [= <-]|].
  match goal with |- (if ?b then _ else _) = _ -> _ => destruct b eqn:Hend end;
    [by intros [= <-]|].
  assert (Hstart' : in_bounds terrainMap startX startY /\ ~ impassable terrainMap startX startY).
  { split; [exact Hs|]. unfold impassable, terrainCostAt, cell_at. by rewrite Hstart. }
  assert (Hend' : in_bounds terrainMap endX endY /\ ~ impassable terrainMap endX endY).
  { split; [exact He|]. unfold impassable, terrainCostAt, cell_at. by rewrite Hend. }
  destruct ((startX =? endX) && (startY =? endY)) eqn:Hsame; cbv iota.
  - intros [= <-]. apply andb_true_iff in Hsame as [<-%Z.eqb_eq <-%Z.eqb_eq].
    unfold route_result. cbn [PathResult.success PathResult.path PathResult.distance fst snd].
    destruct Hstart' as [Hs1 Hs2].
    split; [exact Hs1|]. split; [exact Hs2|]. split; [exact Hs1|]. split; [exact Hs2|].
    split; [exists []; by split|].
    eexists. by split.
  - destruct (initial_state startX startY endX endY) as [st| |] eqn:Hinit; [|done..].
    cbn [mbind completion_bind]. intros Hsearch.
    eapply (search_route terrainMap (startX, startY) endX endY now Hstart' Hend');
      [|exact Hsearch].
    by eapply initial_state_route.
Qed.

(** ** The heuristic and the cost of a path *)



(** ** Fractal noise *)

Section FractalNoise.
Variable noise2D : @num exact -> @num exact -> @num exact.
Hypothesis noise_bounded :
  forall a b, exists r, noise2D a b = Exact.Fin r /\ (-1 <= r <= 1)%R.

(** The loop over the octaves keeps the sum of the layers within the sum of
    their amplitudes. *)
Lemma fractal_octaves_bound (octaves : nat) (p : R) (x y frequency : @num exact)
    (v a m : R) :
  (0 <= p)%R -> (0 <= a)%R -> (- m <= v <= m)%R ->
  exists v' m',
    @fractal_octaves exact noise2D octaves (Exact.Fin p) x y
      (Exact.Fin v) (Exact.Fin a) frequency (Exact.Fin m)
    = (Exact.Fin v', Exact.Fin m')
    /\ (- m' <= v' <= m')%R /\ ((0 < octaves)%nat -> m + a <= m')%R.
Proof using noise_bounded.
  revert v a m frequency. induction octaves as [|octaves IH];
    intros v a m frequency Hp Ha Hv.
  - exists v, m. split; [reflexivity|]. split; [exact Hv|lia].
  - cbn [fractal_octaves].
    destruct (noise_bounded (@mul exact x frequency) (@mul exact y frequency))
      as (n & -> & Hn).
    exact_arith.
    destruct (IH (v + n * a)%R (a * p)%R (m + a)%R (@mul exact frequency (ofZ 2)))
      as (v' & m' & Hrun & Hv' & Hm'); [done|nra| |].
    { nra. }
    exists v', m'. split; [exact Hrun|]. split; [exact Hv'|].
    intros _. destruct octaves as [|octaves].
    + cbn in Hrun. injection Hrun as <- <-. lra.
    + assert (0 <= a * p)%R by nra. specialize (Hm' ltac:(lia)). lra.
Qed.
End FractalNoise.

(** X3.  In exact arithmetic, for a noise function with values between -1
    and 1, at least one octave and a persistence that is not negative,
    [generateFractalNoise] returns a number between 0 and 1. *)
Theorem generateFractalNoise_unit_interval
    (noise2D : @num exact -> @num exact -> @num exact)
    (x y : @num exact) (octaves : nat) (persistence : R) :
  (forall a b, exists r, noise2D a b = Exact.Fin r /\ (-1 <= r <= 1)%R) ->
  (0 < octaves)%nat -> (0 <= persistence)%R ->
  exists r,
    @generateFractalNoise exact noise2D x y octaves (Exact.Fin persistence) = Exact.Fin r
    /\ (0 <= r <= 1)%R.
Proof.
  intros Hnoise Hoctaves Hp. unfold generateFractalNoise.
  destruct (fractal_octaves_bound noise2D Hnoise octaves persistence x y (Exact.Fin 1)
              0 1 0 Hp) as (v & m & Hrun & Hv & Hm); [lra|lra|].
  specialize (Hm Hoctaves).
  change (@ofZ exact 0) with (Exact.Fin 0). change (@ofZ exact 1) with (Exact.Fin 1).
  rewrite Hrun. exact_arith. reqb_nonzero. exact_arith. reqb_nonzero.
  eexists. split; [reflexivity|].
  assert (-1 <= v / m <= 1)%R.
  { split.
    - apply (Rmult_le_reg_r m); [lra|]. unfold Rdiv. rewrite Rmult_assoc, Rinv_l by lra. lra.
    - apply (Rmult_le_reg_r m); [lra|]. unfold Rdiv. rewrite Rmult_assoc, Rinv_l by lra. lra. }
  lra.
Qed.

Lemma generateFractalNoise_unit_interval_witness :
  exists r,
    @generateFractalNoise exact (fun _ _ => Exact.Fin 1) (Exact.Fin 3) (Exact.Fin 7) 4
      (Exact.Fin (1 / 2)) = Exact.Fin r
    /\ (0 <= r <= 1)%R.
Proof.
  apply (generateFractalNoise_unit_interval (fun _ _ => Exact.Fin 1)).
  - intros _ _. exists 1%R. split; [reflexivity|lra].
  - lia.
  - lra.
Defined.

(** ** The default classifier and elevation *)

Lemma exact_boundaries :
  @TERRAIN_BOUNDARIES exact
  = @TerrainBoundaries.Build_t exact
      (Exact.Fin (40 / 100)) (Exact.Fin (45 / 100)) (Exact.Fin (65 / 100))
      (Exact.Fin (75 / 100)) (Exact.Fin (85 / 100)) (Exact.Fin (95 / 100)).
Proof. unfold TERRAIN_BOUNDARIES. by rewrite !exact_ofQ. Qed.

(** the classifier on a finite value, by cases on the value *)
Lemma exact_getTerrainType (r : R) :
  @getTerrainType exact (Exact.Fin r)
  = if Exact.Rltb r (40 / 100) then "water"
    else if Exact.Rltb r (45 / 100) then "sand"
    else if Exact.Rltb r (65 / 100) then "land"
    else if Exact.Rltb r (75 / 100) then "hills"
    else if Exact.Rltb r (85 / 100) then "mountain"
    else "snow".
Proof.
  unfold getTerrainType. rewrite exact_boundaries.
  cbn [TerrainBoundaries.water TerrainBoundaries.sand TerrainBoundaries.land
       TerrainBoundaries.hills TerrainBoundaries.mountain TerrainBoundaries.snow].
  exact_arith. by repeat destruct (Exact.Rltb _ _).
Qed.

(** X4.  In exact arithmetic the default classifier is monotone: of two
    numbers, the greater or equal one gets a terrain that is at least as
    high in the order of elevation (water, sand, land, hills, mountain,
    snow).  The numbers may be infinite. *)
Theorem getTerrainType_monotone (a b : @num exact) :
  @leb exact a b = true ->
  (terrain_rank (@getTerrainType exact a) <= terrain_rank (@getTerrainType exact b))%nat.
Proof.
  assert (Hsnow : @getTerrainType exact Exact.PInf = "snow")
    by (unfold getTerrainType; by rewrite exact_boundaries).
  assert (Hwater : @getTerrainType exact Exact.NInf = "water")
    by (unfold getTerrainType; by rewrite exact_boundaries).
  destruct a as [ra| | |], b as [rb| | |]; try discriminate;
    rewrite ?Hsnow, ?Hwater; try (intros _; by apply Nat.le_0_l); try done.
  - exact_arith. intros Hle.
    assert (ra <= rb)%R.
    { apply orb_true_iff in Hle as [H%Rltb_true | H%Reqb_true]; lra. }
    rewrite !exact_getTerrainType.
    real_cases; vm_compute; lia.
  - intros _. rewrite exact_getTerrainType. real_cases; vm_compute; lia.
Qed.

Lemma getTerrainType_monotone_witness :
  (terrain_rank (@getTerrainType exact (Exact.Fin (1 / 2)))
   <= terrain_rank (@getTerrainType exact (Exact.Fin (9 / 10))))%nat.
Proof.
  apply getTerrainType_monotone. exact_arith.
  apply orb_true_iff. left. apply Rltb_true. lra.
Defined.

(** X5.  In exact arithmetic, for a number [r] that is not negative and
    the terrain that the default classifier gives it, [getTerrainIntensity]
    is at least 0; it is below 1 when [r] is below the snow boundary 0.95;
    from 0.95 on, where the terrain is still snow, it is
    [(r - 0.85) / 0.10], which is 1 or more.  For a terrain outside the six
    names it is 0. *)
Theorem getTerrainIntensity_range :
  (forall r : R,
     (0 <= r)%R ->
     exists i,
       @getTerrainIntensity exact (Exact.Fin r) (@getTerrainType exact (Exact.Fin r))
       = Exact.Fin i
       /\ (0 <= i)%R
       /\ ((r < 95 / 100)%R -> (i < 1)%R)
       /\ ((95 / 100 <= r)%R -> i = ((r - 85 / 100) / (10 / 100))%R /\ (1 <= i)%R))
  /\ (forall (val : @num exact) (terrain : string),
        terrain ∉ @getTerrainOrder -> @getTerrainIntensity exact val terrain = ofZ 0).
Proof.
  split.
  - intros r Hr. rewrite exact_getTerrainType. unfold getTerrainIntensity.
    rewrite exact_boundaries.
    cbn [TerrainBoundaries.water TerrainBoundaries.sand TerrainBoundaries.land
         TerrainBoundaries.hills TerrainBoundaries.mountain TerrainBoundaries.snow].
    assert (E1 : (45 / 100 + - (40 / 100) = 5 / 100)%R) by lra.
    assert (E2 : (65 / 100 + - (45 / 100) = 20 / 100)%R) by lra.
    assert (E3 : (75 / 100 + - (65 / 100) = 10 / 100)%R) by lra.
    assert (E4 : (85 / 100 + - (75 / 100) = 10 / 100)%R) by lra.
    assert (E5 : (95 / 100 + - (85 / 100) = 10 / 100)%R) by lra.
    real_cases;
      repeat (rewrite bool_decide_eq_false_2 by done);
      rewrite bool_decide_eq_true_2 by done;
      exact_arith; reqb_nonzero;
      (eexists; split; [reflexivity|]);
      rewrite ?E1, ?E2, ?E3, ?E4, ?E5;
      (split; [|split]); try lra.
  - intros val terrain Hnot. unfold getTerrainIntensity.
    repeat (rewrite bool_decide_eq_false_2;
            [|intros ->; apply Hnot; unfold getTerrainOrder; set_solver]).
    reflexivity.
Qed.

Lemma getTerrainIntensity_range_witness :
  exists i,
    @getTerrainIntensity exact (Exact.Fin (1 / 2)) (@getTerrainType exact (Exact.Fin (1 / 2)))
    = Exact.Fin i
    /\ (0 <= i)%R
    /\ ((1 / 2 < 95 / 100)%R -> (i < 1)%R)
    /\ ((95 / 100 <= 1 / 2)%R -> i = ((1 / 2 - 85 / 100) / (10 / 100))%R /\ (1 <= i)%R).
Proof. apply (proj1 getTerrainIntensity_range). lra. Defined.

(** ** The cost of any terrain name *)



(** ** Colours *)

Lemma exact_clamp_integer (k : Z) :
  @Math_max exact (ofZ 0) (@Math_min exact (ofZ 255) (Exact.Fin (IZR k)))
  = Exact.Fin (IZR (Z.max 0 (Z.min 255 k))).
Proof.
  exact_arith.
  destruct (Exact.Rltb (IZR k) 255) eqn:Hhigh;
    [apply Rltb_true in Hhigh | apply Rltb_false in Hhigh].
  - apply lt_IZR in Hhigh. rewrite Z.min_r by lia.
    destruct (Exact.Rltb 0 (IZR k)) eqn:Hlow;
      [apply Rltb_true in Hlow | apply Rltb_false in Hlow].
    + apply lt_IZR in Hlow. by rewrite Z.max_r by lia.
    + apply le_IZR in Hlow. by rewrite Z.max_l by lia.
  - apply le_IZR in Hhigh. rewrite Z.min_l by lia.
    exact_arith. replace (Exact.Rltb 0 255) with true by (symmetry; apply Rltb_true; lra).
    reflexivity.
Qed.

Lemma exact_clamp_channel (x : R) :
  @Math_max exact (ofZ 0) (Math_min (ofZ 255) (exact_floor (Exact.Fin x)))
  = Exact.Fin (IZR (Z.max 0 (Z.min 255 (Int_part x)))).
Proof. apply exact_clamp_integer. Qed.

Lemma Int_part_bounds (x : R) (lo hi : Z) :
  (IZR lo <= x < IZR hi + 1)%R -> lo <= Int_part x <= hi.
Proof.
  intros [Hlo Hhi]. destruct (base_Int_part x) as [Hle Hgt]. split.
  - assert (IZR lo - 1 < IZR (Int_part x))%R as H by lra.
    rewrite <- minus_IZR in H. apply lt_IZR in H. lia.
  - assert (IZR (Int_part x) < IZR hi + 1)%R as H by lra.
    rewrite <- plus_IZR in H. apply lt_IZR in H. lia.
Qed.

Section Colors.
Variable toString : @num exact -> string.

Lemma exact_definition_color (definition : @TerrainDefinition.t exact) (i : R) :
  let base := TerrainDefinition.color_base definition in
  let variation := TerrainDefinition.color_variation definition in
  @definition_color exact exact_floor toString definition (Exact.Fin i)
  = rgb_template toString
      (Exact.Fin (IZR (channel (RGB.r base) (RGB.r variation) i)))
      (Exact.Fin (IZR (channel (RGB.g base) (RGB.g variation) i)))
      (Exact.Fin (IZR (channel (RGB.b base) (RGB.b variation) i))).
Proof.
  intros base variation. unfold definition_color, channel. fold base variation.
  assert (Hfloor : forall b v : Z,
            @add exact (ofZ b) (@mul exact (Exact.Fin i) (ofZ v)) = Exact.Fin (IZR b + i * IZR v))
    by reflexivity.
  by rewrite !Hfloor, !exact_clamp_channel.
Qed.
End Colors.

Lemma definitions_in_range {N : Number} (terrain : string) (definition : TerrainDefinition.t) :
  prop TERRAIN_DEFINITIONS terrain = Some definition -> palette_in_range definition.
Proof.
  unfold TERRAIN_DEFINITIONS. cbn [prop].
  repeat (destruct (decide _);
          [intros [= <-]; unfold palette_in_range; cbn; lia|]).
  done.
Qed.


Lemma inherited_not_defined {N : Number} (terrain : string) :
  terrain ∈ Object_prototype_names -> prop TERRAIN_DEFINITIONS terrain = None.
Proof.
  unfold Object_prototype_names.
  intros Hin. repeat (apply elem_of_cons in Hin as [-> | Hin]; [reflexivity|]).
  by apply elem_of_nil in Hin.
Qed.

Lemma exact_getTerrainColor (toString : @num exact -> string) (terrain : string) (i : R) :
  match @color_definition exact terrain with
  | Some definition =>
      palette_in_range definition
      /\ @getTerrainColor exact exact_floor toString terrain (Exact.Fin i)
         = Normal (rgb_template toString
             (Exact.Fin (IZR (channel (RGB.r (TerrainDefinition.color_base definition))
                                      (RGB.r (TerrainDefinition.color_variation definition)) i)))
             (Exact.Fin (IZR (channel (RGB.g (TerrainDefinition.color_base definition))
                                      (RGB.g (TerrainDefinition.color_variation definition)) i)))
             (Exact.Fin (IZR (channel (RGB.b (TerrainDefinition.color_base definition))
                                      (RGB.b (TerrainDefinition.color_variation definition)) i))))
  | None =>
      terrain ∈ Object_prototype_names
      /\ @getTerrainColor exact exact_floor toString terrain (Exact.Fin i) = Throw TypeError
  end.
Proof.
  assert (Hland : exists definition,
            prop (@TERRAIN_DEFINITIONS exact) "land" = Some definition)
    by (by eexists).
  unfold color_definition, getTerrainColor. cbn [getTerrainColor_within].
  destruct (prop TERRAIN_DEFINITIONS terrain) as [definition|] eqn:Hprop.
  - split; [by eapply definitions_in_range|].
    by rewrite exact_definition_color.
  - destruct (bool_decide (terrain ∈ Object_prototype_names)) eqn:Hinherited.
    { split; [by apply bool_decide_eq_true in Hinherited|done]. }
    destruct Hland as [definition Hland]. rewrite Hland.
    split; [by eapply definitions_in_range|].
    by rewrite exact_definition_color.
Qed.



Lemma exact_base_intensity :
  @Math_min exact (ofQ 1.0) (add (ofQ 0.8) (mul (ofQ 0.5) (ofQ 0.2))) = Exact.Fin (9 / 10).
Proof.
  rewrite !exact_ofQ. exact_arith.
  destruct (Exact.Rltb _ _) eqn:Hlt; [|apply Rltb_false in Hlt; lra].
  f_equal. lra.
Qed.

(** X8.  The colour of the indicator of a terrain in the panel, in exact
    arithmetic and whatever the conversion of numbers to strings: for a
    terrain of the table, [getTerrainBaseColor] is the colour that
    [getTerrainColor] gives the terrain at the intensity 0.9.  For a name
    that is not in the table the two differ: [getTerrainBaseColor] is the
    base colour of land, [rgb(50, 120, 50)], and [getTerrainColor] at 0.9 is
    land at that intensity, of channels 140, 210 and 95.  On a name that the
    table inherits from [Object.prototype] both throw a [TypeError]. *)
Theorem getTerrainBaseColor_intensity (toString : @num exact -> string) (terrain : string) :
  (is_Some (prop (@TERRAIN_DEFINITIONS exact) terrain) ->
   @getTerrainColor exact exact_floor toString terrain (Exact.Fin (9 / 10))
   = @getTerrainBaseColor exact exact_floor toString terrain)
  /\ (prop (@TERRAIN_DEFINITIONS exact) terrain = None ->
      terrain ∉ Object_prototype_names ->
      @getTerrainBaseColor exact exact_floor toString terrain = Normal "rgb(50, 120, 50)"
      /\ @getTerrainColor exact exact_floor toString terrain (Exact.Fin (9 / 10))
         = Normal (@rgb_template exact toString
                     (Exact.Fin 140) (Exact.Fin 210) (Exact.Fin 95)))
  /\ (terrain ∈ Object_prototype_names ->
      @getTerrainBaseColor exact exact_floor toString terrain = Throw TypeError
      /\ @getTerrainColor exact exact_floor toString terrain (Exact.Fin (9 / 10))
         = Throw TypeError).
Proof.
  split; [|split].
  - intros [definition Hdef].
    unfold getTerrainBaseColor, getTerrainColor. cbn [getTerrainColor_within].
    by rewrite Hdef, exact_base_intensity.
  - intros Hnone Hown. unfold getTerrainBaseColor. rewrite Hnone.
    rewrite bool_decide_eq_false_2 by done. split; [reflexivity|].
    pose proof (exact_getTerrainColor toString terrain (9 / 10)) as Hcolor.
    unfold color_definition in Hcolor. rewrite Hnone in Hcolor.
    rewrite bool_decide_eq_false_2 in Hcolor by done.
    cbn [prop TERRAIN_DEFINITIONS] in Hcolor.
    repeat (rewrite decide_False in Hcolor by done).
    rewrite decide_True in Hcolor by done.
    destruct Hcolor as [_ Hrun]. rewrite Hrun.
    cbn [TerrainDefinition.color_base TerrainDefinition.color_variation RGB.r RGB.g RGB.b].
    unfold channel.
    assert (Hr : Int_part (50 + 9 / 10 * 100) = 140)
      by (pose proof (Int_part_bounds (50 + 9 / 10 * 100) 140 140 ltac:(lra)); lia).
    assert (Hg : Int_part (120 + 9 / 10 * 100) = 210)
      by (pose proof (Int_part_bounds (120 + 9 / 10 * 100) 210 210 ltac:(lra)); lia).
    assert (Hb : Int_part (50 + 9 / 10 * 50) = 95)
      by (pose proof (Int_part_bounds (50 + 9 / 10 * 50) 95 95 ltac:(lra)); lia).
    by rewrite Hr, Hg, Hb.
  - intros Hinherited. pose proof (@inherited_not_defined exact terrain Hinherited) as Hnone.
    unfold getTerrainBaseColor, getTerrainColor. cbn [getTerrainColor_within].
    rewrite Hnone. by rewrite bool_decide_eq_true_2.
Qed.

Lemma getTerrainBaseColor_intensity_witness :
  @getTerrainColor exact exact_floor (fun _ => "n") "water" (Exact.Fin (9 / 10))
  = @getTerrainBaseColor exact exact_floor (fun _ => "n") "water"
  /\ @getTerrainBaseColor exact exact_floor (fun _ => "n") "lava"
     = Normal "rgb(50, 120, 50)"
  /\ @getTerrainBaseColor exact exact_floor (fun _ => "n") "toString" = Throw TypeError.
Proof.
  destruct (getTerrainBaseColor_intensity (fun _ => "n") "water") as (Hwater & _ & _).
  destruct (getTerrainBaseColor_intensity (fun _ => "n") "lava") as (_ & Hlava & _).
  destruct (getTerrainBaseColor_intensity (fun _ => "n") "toString") as (_ & _ & Hinherited).
  split; [apply Hwater; by eexists|]. split.
  - apply Hlava; [reflexivity|]. unfold Object_prototype_names.
    intros Hin. repeat (apply elem_of_cons in Hin as [Heq | Hin]; [discriminate Heq|]).
    by apply elem_of_nil in Hin.
  - apply Hinherited. unfold Object_prototype_names. do 8 right. left.
Defined.

(** ** Rendering helpers *)

(** X9.  The two clamps in exact arithmetic.  On every number but [NaN],
    [clamp01] returns a number between 0 and 1, the argument itself when
    that is between 0 and 1, and applying it twice is applying it once;
    [clamp255] returns an integer between 0 and 255.  On [NaN] both return
    [NaN]. *)
Theorem clamps_in_range :
  (forall v : @num exact,
     v <> Exact.Nan ->
     exists c,
       @clamp01 exact v = Exact.Fin c /\ (0 <= c <= 1)%R
       /\ (forall r, v = Exact.Fin r -> (0 <= r <= 1)%R -> c = r)
       /\ @clamp01 exact (clamp01 v) = clamp01 v)
  /\ (forall v : @num exact,
        v <> Exact.Nan ->
        exists z : Z, @clamp255 exact v = Exact.Fin (IZR z) /\ 0 <= z <= 255)
  /\ @clamp01 exact Exact.Nan = Exact.Nan
  /\ @clamp255 exact Exact.Nan = Exact.Nan.
Proof.
  assert (Hunit : forall r : R, (0 <= r <= 1)%R -> @clamp01 exact (Exact.Fin r) = Exact.Fin r).
  { intros r Hr. unfold clamp01. exact_arith.
    destruct (Exact.Rltb r 1) eqn:H1; [apply Rltb_true in H1 | apply Rltb_false in H1];
      exact_arith.
    - destruct (Exact.Rltb 0 r) eqn:H0; [done|]. apply Rltb_false in H0.
      f_equal. lra.
    - replace (Exact.Rltb 0 1) with true by (symmetry; apply Rltb_true; lra).
      f_equal. lra. }
  assert (Hrange : forall v : @num exact, v <> Exact.Nan ->
            exists c, @clamp01 exact v = Exact.Fin c /\ (0 <= c <= 1)%R
                      /\ (forall r, v = Exact.Fin r -> (0 <= r <= 1)%R -> c = r)).
  { intros [r| | |] Hv; [| | |done].
    - unfold clamp01. exact_arith.
      destruct (Exact.Rltb r 1) eqn:H1; [apply Rltb_true in H1 | apply Rltb_false in H1];
        exact_arith.
      + destruct (Exact.Rltb 0 r) eqn:H0; [apply Rltb_true in H0 | apply Rltb_false in H0].
        * exists r. split; [done|]. split; [lra|]. by intros ? [= <-].
        * exists 0%R. split; [done|]. split; [lra|]. intros ? [= <-]. lra.
      + replace (Exact.Rltb 0 1) with true by (symmetry; apply Rltb_true; lra).
        exists 1%R. split; [done|]. split; [lra|]. intros ? [= <-]. lra.
    - exists 1%R. unfold clamp01. exact_arith.
      replace (Exact.Rltb 0 1) with true by (symmetry; apply Rltb_true; lra).
      split; [done|]. split; [lra|]. by intros.
    - exists 0%R. unfold clamp01. exact_arith. split; [done|]. split; [lra|]. by intros. }
  split; [|split; [|split]].
  - intros v Hv. destruct (Hrange v Hv) as (c & Hrun & Hc & Hid).
    exists c. split; [exact Hrun|]. split; [exact Hc|]. split; [exact Hid|].
    rewrite Hrun. by apply Hunit.
  - intros [r| | |] Hv; [| | |done]; unfold clamp255;
      cbn [Math_round exact Exact.e_round].
    + rewrite exact_clamp_integer.
      eexists. split; [reflexivity|lia].
    + exists 255. exact_arith.
      replace (Exact.Rltb 0 255) with true by (symmetry; apply Rltb_true; lra).
      split; [done|lia].
    + exists 0. exact_arith. split; [done|lia].
  - reflexivity.
  - reflexivity.
Qed.

Lemma clamps_in_range_witness :
  (exists c, @clamp01 exact (Exact.Fin 3) = Exact.Fin c /\ (0 <= c <= 1)%R)
  /\ exists z : Z, @clamp255 exact (Exact.Fin 300) = Exact.Fin (IZR z) /\ 0 <= z <= 255.
Proof.
  split.
  - destruct (proj1 clamps_in_range (Exact.Fin 3)) as (c & Hrun & Hc & _); [done|].
    by exists c.
  - by apply (proj1 (proj2 clamps_in_range) (Exact.Fin 300)).
Defined.

Lemma hash_fold_mod (codes : list Z) (acc : Z) :
  foldl (fun seed code => to_uint32 (seed * 31 + code)) (to_uint32 acc) codes
  = to_uint32 (foldl (fun acc code => acc * 31 + code) acc codes).
Proof.
  revert acc. induction codes as [|code codes IH]; intros acc; [done|].
  cbn [foldl]. rewrite <- IH. f_equal. unfold to_uint32.
  rewrite Zplus_mod, Zmult_mod, Zmod_mod, <- Zmult_mod, <- Zplus_mod. reflexivity.
Qed.

(** X10.  The seed of the texture of a terrain is the polynomial hash of
    the character codes of its name, in base 31, reduced modulo 2^32;
    reducing after every character, as the loop does, gives the same as
    reducing once at the end.  The seed is an unsigned 32-bit integer, and
    the six terrains of the order of elevation have six different seeds. *)
Theorem terrainHashSeed_polynomial :
  (forall terrain : string,
     terrainHashSeed terrain = polynomial_hash (charCodes terrain) mod 2 ^ 32
     /\ 0 <= terrainHashSeed terrain < 2 ^ 32)
  /\ NoDup (terrainHashSeed <$> getTerrainOrder).
Proof.
  split.
  - intros terrain.
    assert (Heq : terrainHashSeed terrain = polynomial_hash (charCodes terrain) mod 2 ^ 32).
    { unfold terrainHashSeed, polynomial_hash.
      change 0 with (to_uint32 0) at 1. apply hash_fold_mod. }
    split; [exact Heq|]. rewrite Heq. apply Z.mod_pos_bound. lia.
  - apply (bool_decide_unpack (NoDup (terrainHashSeed <$> getTerrainOrder))).
    vm_compute. exact I.
Qed.

(** ** Pins *)

(** X11.  Placing a pin keeps at most two pins, the newest last: for less
    than two pins the new pin is added after them; for two pins (or more)
    the result is the second pin and the new one, so the oldest pin goes
    first. *)
Theorem placePin_keeps_two {N : Number} (prevPins : list Pin.t) (pin : Pin.t) :
  last (placePin prevPins pin) = Some pin
  /\ length (placePin prevPins pin) = Nat.min (S (length prevPins)) 2
  /\ ((length prevPins < 2)%nat -> placePin prevPins pin = prevPins ++ [pin])
  /\ (forall first second rest,
        prevPins = first :: second :: rest -> placePin prevPins pin = [second; pin]).
Proof.
  destruct prevPins as [|first [|second rest]]; cbn [placePin app length last].
  - split; [done|]. split; [done|]. split; [done|]. by intros.
  - split; [done|]. split; [done|]. split; [done|]. by intros.
  - split; [done|]. split; [done|]. split; [lia|]. by intros ? ? ? [= <- <- <-].
Qed.

Lemma placePin_keeps_two_witness :
  let a := @Pin.Build_t exact (Exact.Fin 1) (Exact.Fin 2) in
  let b := @Pin.Build_t exact (Exact.Fin 3) (Exact.Fin 4) in
  let c := @Pin.Build_t exact (Exact.Fin 5) (Exact.Fin 6) in
  placePin [a] b = [a; b] /\ placePin [a; b] c = [b; c].
Proof.
  intros a b c.
  destruct (placePin_keeps_two [a] b) as (_ & _ & Hadd & _).
  destruct (placePin_keeps_two [a; b] c) as (_ & _ & _ & Hshift).
  split; [apply Hadd; cbn; lia|by apply (Hshift a b [])].
Defined.

(** ** Textures and normals *)









(** X14.  [estimateNormal] returns exactly when the height map has a row
    [y]: on a map with no rows, and for a [y] that is not the index of a
    row, it throws a [TypeError]; otherwise it returns the normalized
    vector of the two central differences, whatever [x] (a cell that is
    missing reads as [NaN]). *)
Theorem estimateNormal_returns {N : Number} (Math_hypot : num -> num -> num)
    (heightMap : list (list num)) (x y : Z) :
  (0 <= y < Z.of_nat (length heightMap) ->
   exists right left below above,
     height_at heightMap y (Z.min (Z.of_nat (length (default [] (heightMap !! 0%nat))) - 1) (x + 1))
     = Normal right
     /\ height_at heightMap y (Z.max 0 (x - 1)) = Normal left
     /\ height_at heightMap (Z.min (Z.of_nat (length heightMap) - 1) (y + 1)) x = Normal below
     /\ height_at heightMap (Z.max 0 (y - 1)) x = Normal above
     /\ estimateNormal Math_hypot heightMap x y
        = Normal (normalize2D Math_hypot (sub right left, opp (sub below above))))
  /\ (~ 0 <= y < Z.of_nat (length heightMap) ->
      estimateNormal Math_hypot heightMap x y = Throw TypeError).
Proof.
  assert (Hrow : forall i j, 0 <= i < Z.of_nat (length heightMap) ->
            exists v, height_at heightMap i j = Normal v).
  { intros i j Hi. unfold height_at, at_index2, at_index.
    replace (i <? 0) with false by (symmetry; apply Z.ltb_ge; lia).
    destruct (lookup_lt_is_Some_2 heightMap (Z.to_nat i)) as [row ->]; [lia|].
    cbn [mbind completion_bind]. by eexists. }
  assert (Hmiss : forall i j, ~ 0 <= i < Z.of_nat (length heightMap) ->
            height_at heightMap i j = Throw TypeError).
  { intros i j Hi. unfold height_at, at_index2, at_index.
    destruct (i <? 0) eqn:Hneg; [done|]. apply Z.ltb_ge in Hneg.
    rewrite lookup_ge_None_2 by lia. done. }
  unfold estimateNormal.
  destruct heightMap as [|row0 rest].
  { split; [cbn [length]; lia|done]. }
  cbn [lookup list_lookup mbind completion_bind default].
  set (heightMap := row0 :: rest) in *.
  split.
  - intros Hy.
    destruct (Hrow y (Z.min (Z.of_nat (length row0) - 1) (x + 1)) Hy) as [right Hright].
    destruct (Hrow y (Z.max 0 (x - 1)) Hy) as [left Hleft].
    destruct (Hrow (Z.min (Z.of_nat (length heightMap) - 1) (y + 1)) x ltac:(lia))
      as [below Hbelow].
    destruct (Hrow (Z.max 0 (y - 1)) x ltac:(lia)) as [above Habove].
    exists right, left, below, above.
    rewrite Hright, Hleft, Hbelow, Habove. by cbn [mbind completion_bind].
  - intros Hy.
    rewrite (Hmiss y (Z.min (Z.of_nat (length row0) - 1) (x + 1)) Hy). reflexivity.
Qed.

Lemma estimateNormal_returns_witness :
  exists n,
    @estimateNormal exact exact_hypot
      [[Exact.Fin 0; Exact.Fin 1]; [Exact.Fin 2; Exact.Fin 3]] 0 0 = Normal n.
Proof.
  destruct (proj1 (@estimateNormal_returns exact exact_hypot
                     [[Exact.Fin 0; Exact.Fin 1]; [Exact.Fin 2; Exact.Fin 3]] 0 0))
    as (right & left & below & above & _ & _ & _ & _ & Hrun); [cbn; lia|].
  by eexists.
Defined.
